(** * darknet_crawler.py: the crawl engine, embedded and verified

    The development follows [darknet_crawler.py]: the [urls] table of the
    SQLite frontier store, the [queue.Queue] work queue, the methods of
    [DarknetCrawler] ([add_seed], [fetch], [parse_links], [mark_visited],
    [enqueue_new]) and the [worker] closure of [crawl], run by any number
    of threads under an arbitrary schedule.

    What is left to the environment: the network (each fetch is answered
    by an arbitrary [Net]), the HTML parser and [urllib.parse] (an
    interface, with a model of the latter for running examples), and the
    order in which a Python [set] is iterated.  What is assumed: the
    statements on the SQLite connection succeed, and a run is followed
    until [queue.join()] returns.  Of time only what [time.sleep] does
    with its argument is kept; printing is left out.

    Part I holds the definitions, Part II the lemmas and theorems. *)

From Stdlib Require Import List String Ascii ZArith Bool Lia ListSet Arith.
From Stdlib Require Import Permutation.
Import ListNotations.
Local Open Scope string_scope.
Local Open Scope list_scope.

(* ================================================================== *)
(** * Part I: definitions *)
(* ================================================================== *)

(** ** Results of calls that may raise *)

(** A Python call either returns a value or raises; the exception is
    recorded by its class name. *)
Inductive outcome (A : Type) : Type :=
| Returned (a : A)
| Raised (e : string).
Arguments Returned {A} a.
Arguments Raised {A} e.

Definition bind {A B : Type} (m : outcome A) (k : A -> outcome B) : outcome B :=
  match m with
  | Returned a => k a
  | Raised e => Raised e
  end.

Notation "x <- m ;; k" := (bind m (fun x => k))
  (at level 61, m at next level, right associativity).

(** Truth value of a Python [str]: the empty string is false. *)
Definition truthy (s : string) : bool :=
  match s with
  | EmptyString => false
  | String _ _ => true
  end.

(** ** The [urls] table

    [CREATE TABLE IF NOT EXISTS urls (url TEXT PRIMARY KEY, visited INTEGER)]:
    the table is the list of its rows, in insertion order.  Nothing in the
    type forbids two rows with one key; that no operation of the crawler
    produces such a table is a theorem of Part II. *)
Module Sqlite.

Definition Row : Type := (string * Z)%type.
Definition Table : Type := list Row.

Definition keys (t : Table) : list string := map fst t.

(** [SELECT visited FROM urls WHERE url=?] followed by [fetchone()]:
    the [visited] column of the first matching row, [None] without one. *)
Fixpoint select_visited (t : Table) (url : string) : option Z :=
  match t with
  | [] => None
  | (u, v) :: rest =>
      if String.eqb u url then Some v else select_visited rest url
  end.

(** [INSERT OR IGNORE INTO urls (url, visited) VALUES (?, 0)]: the new
    table and the cursor's [rowcount].  A row whose key is present
    conflicts with the primary key and is ignored. *)
Definition insert_or_ignore (t : Table) (url : string) : Table * Z :=
  if existsb (String.eqb url) (keys t)
  then (t, 0%Z)
  else (t ++ [(url, 0%Z)], 1%Z).

(** [UPDATE urls SET visited=1 WHERE url=?]. *)
Definition update_visited (t : Table) (url : string) : Table :=
  map (fun r : Row => if String.eqb (fst r) url then (fst r, 1%Z) else r) t.

End Sqlite.
Import Sqlite.

(** The worker's test [result is not None and result[0]] on the row that
    [fetchone()] returned. *)
Definition is_visited (t : Table) (url : string) : bool :=
  match select_visited t url with
  | Some v => negb (v =? 0)%Z
  | None => false
  end.

(** ** [queue.Queue]

    The standard library's queue: the deque of pending items and the
    counter [unfinished_tasks] that [join()] waits on. *)
Record Queue : Type := mkQueue {
  items : list string;
  unfinished_tasks : Z
}.

Definition Queue_new : Queue := mkQueue [] 0%Z.

(** [put(item)]: append and count one more unfinished task. *)
Definition put (q : Queue) (item : string) : Queue :=
  mkQueue (items q ++ [item]) (unfinished_tasks q + 1)%Z.

(** [get()]: the oldest item; [None] stands for a caller that blocks on
    an empty queue. *)
Definition get (q : Queue) : option (string * Queue) :=
  match items q with
  | [] => None
  | item :: rest => Some (item, mkQueue rest (unfinished_tasks q))
  end.

(** [task_done()]: one task fewer; [ValueError] when called more often
    than items were put. *)
Definition task_done (q : Queue) : outcome Queue :=
  let unfinished := (unfinished_tasks q - 1)%Z in
  if (unfinished <? 0)%Z
  then Raised "ValueError"
  else Returned (mkQueue (items q) unfinished).

(** [join()] returns once [unfinished_tasks] is zero: the drained state. *)
Definition drained (q : Queue) : bool := (unfinished_tasks q =? 0)%Z.

(** ** The crawler object *)

(** The fields of [self] that the crawl engine reads and writes: the
    table behind [self.conn], whether [self.lock] is held, [self.queue],
    whether a Selenium [self.driver] exists ([USE_SELENIUM]), and the
    politeness delay [self.delay], an [int] on the command line. *)
Record DarknetCrawler : Type := mkCrawler {
  conn : Table;
  lock : bool;
  queue : Queue;
  driver : bool;
  delay : Z
}.

Definition with_conn (self : DarknetCrawler) (t : Table) : DarknetCrawler :=
  mkCrawler t (lock self) (queue self) (driver self) (delay self).

Definition with_queue (self : DarknetCrawler) (q : Queue) : DarknetCrawler :=
  mkCrawler (conn self) (lock self) q (driver self) (delay self).

Definition with_lock (self : DarknetCrawler) (b : bool) : DarknetCrawler :=
  mkCrawler (conn self) b (queue self) (driver self) (delay self).

(** [__init__]: the table found at [db_path], the delay, a free lock, an
    empty queue. *)
Definition init (db : Table) (delay : Z) (use_selenium : bool) : DarknetCrawler :=
  mkCrawler db false Queue_new use_selenium delay.

(** [add_seed]: the insert runs under the lock, the [put] after it and
    whatever the insert did.  [__main__] calls it before any worker
    exists, so the lock is free when it is called and free again when it
    returns. *)
Definition add_seed (self : DarknetCrawler) (url : string) : DarknetCrawler :=
  let self1 := with_conn self (fst (insert_or_ignore (conn self) url)) in
  with_queue self1 (put (queue self1) url).

(** [mark_visited]. *)
Definition mark_visited (self : DarknetCrawler) (url : string) : DarknetCrawler :=
  with_conn self (update_visited (conn self) url).

(** The body of the [for link in links] loop of [enqueue_new]. *)
Definition enqueue_link (self : DarknetCrawler) (link : string) : DarknetCrawler :=
  let (t, rowcount) := insert_or_ignore (conn self) link in
  let self1 := with_conn self t in
  if (rowcount >? 0)%Z
  then with_queue self1 (put (queue self1) link)
  else self1.

(** [enqueue_new], for the links in the order the loop visits them. *)
Definition enqueue_new (self : DarknetCrawler) (links : list string) : DarknetCrawler :=
  fold_left enqueue_link links self.

(** ** The network *)

Record Response : Type := mkResponse {
  status_code : Z;
  text : string
}.

(** [Response.raise_for_status()] of requests: [HTTPError] on 4xx and 5xx. *)
Definition raise_for_status (resp : Response) : outcome unit :=
  if ((400 <=? status_code resp) && (status_code resp <? 600))%Z
  then Raised "HTTPError"
  else Returned tt.

(** What the outside world answers at the moment of one call:
    [driver.get(url); driver.page_source] and
    [session.get(url, timeout=30)]. *)
Record Net : Type := mkNet {
  driver_get : string -> outcome string;
  session_get : string -> outcome Response
}.

(** [time.sleep(secs)] on an [int]: the seconds are converted to
    nanoseconds in a 64-bit integer ([OverflowError] when they do not
    fit), and a negative length is refused with [ValueError]; otherwise
    the call returns after that time. *)
Definition time_sleep (secs : Z) : outcome unit :=
  if ((secs <? -9223372036) || (9223372036 <? secs))%Z then Raised "OverflowError"
  else if (secs <? 0)%Z then Raised "ValueError"
  else Returned tt.

(** The [try] block of [fetch]. *)
Definition request (self : DarknetCrawler) (net : Net) (url : string) : outcome string :=
  if driver self
  then driver_get net url
  else (resp <- session_get net url ;;
        _ <- raise_for_status resp ;;
        Returned (text resp)).

(** [fetch]: the sleep stands before the [try], so what it raises leaves
    [fetch]; every exception of the [try] block ends in the empty string. *)
Definition fetch (self : DarknetCrawler) (net : Net) (url : string) : outcome string :=
  _ <- time_sleep (delay self) ;;
  match request self net url with
  | Returned html => Returned html
  | Raised _ => Returned EmptyString
  end.

(** ** Libraries behind [parse_links]

    BeautifulSoup and [urllib.parse] are not code of the crawler.  The
    crawler is embedded over an interface to them, so that what is proved
    of it holds whatever the libraries compute. *)

(** A tag of the parsed document: its name and its attribute dictionary. *)
Record Tag : Type := mkTag {
  name : string;
  attrs : list (string * string)
}.

(** The six components of [urllib.parse.ParseResult]. *)
Record ParseResult : Type := mkParseResult {
  scheme : string;
  netloc : string;
  path : string;
  params : string;
  query : string;
  fragment : string
}.

Class Libraries : Type := {
  (** [BeautifulSoup(html, 'html.parser')]: the tags in document order;
      the parser rejects some markup with an exception. *)
  BeautifulSoup : string -> outcome (list Tag);
  (** [urljoin(base, url)]; it raises [ValueError] on some malformed hosts. *)
  urljoin : string -> string -> outcome string;
  (** [urlparse(url)]. *)
  urlparse : string -> outcome ParseResult;
  (** The order in which a [for] loop visits a Python [set]: unspecified,
      but it visits every element once. *)
  set_iter : set string -> list string;
  set_iter_perm : forall s : set string, Permutation (set_iter s) s
}.

(** [tag[key]] on a tag: the first binding of the attribute. *)
Fixpoint get_attr (l : list (string * string)) (key : string) : option string :=
  match l with
  | [] => None
  | (k, v) :: rest => if String.eqb k key then Some v else get_attr rest key
  end.

(** [soup.find_all('a', href=True)]. *)
Definition find_all_a_href (soup : list Tag) : list Tag :=
  filter (fun t => String.eqb (name t) "a" &&
                   match get_attr (attrs t) "href" with
                   | Some _ => true
                   | None => false
                   end) soup.

(** [str.endswith]. *)
Fixpoint endswith (s suffix : string) : bool :=
  String.eqb s suffix ||
  match s with
  | EmptyString => false
  | String _ rest => endswith rest suffix
  end.

(** The condition of line 109. *)
Definition link_filter (parsed : ParseResult) : bool :=
  existsb (String.eqb (scheme parsed)) ["http"; "https"] &&
  (endswith (netloc parsed) ".onion" || negb (endswith (netloc parsed) ".onion")).

(** The [for a in ...] loop of [parse_links], [links] being the set built
    so far.  A set is a list without repetition; [set_add] is [links.add]. *)
Fixpoint parse_links_loop `{Libraries} (base_url : string) (anchors : list Tag)
    (links : set string) : outcome (set string) :=
  match anchors with
  | [] => Returned links
  | a :: rest =>
      match get_attr (attrs a) "href" with
      | None => Raised "KeyError"
      | Some value =>
          href <- urljoin base_url value ;;
          parsed <- urlparse href ;;
          if link_filter parsed
          then parse_links_loop base_url rest (set_add string_dec href links)
          else parse_links_loop base_url rest links
      end
  end.

Definition parse_links `{Libraries} (html base_url : string) : outcome (set string) :=
  soup <- BeautifulSoup html ;;
  parse_links_loop base_url (find_all_a_href soup) (empty_set string).

(** ** The worker threads *)

(** Where a worker stands in the body of [while True]; the number is the
    source line it is about to execute. *)
Inductive pc : Type :=
| Get                                              (* 136 *)
| Select (url : string)                            (* 138-141 *)
| Skip (url : string)                              (* 142-143 *)
| Fetch (url : string)                             (* 145-146 *)
| Parse (url html : string)                        (* 147 *)
| Mark (url : string) (links : set string)         (* 148, 114 *)
| MarkLocked (url : string) (links : set string)   (* 115-117 *)
| Enqueue (url : string) (links : set string)      (* 149, 121 *)
| EnqueueLoop (url : string) (rest : list string)  (* 123-130 *)
| Finally (url : string)                           (* 156 *)
| Dead.

(** What an observer of the run sees. *)
Inductive Event : Type :=
| Got (url : string)                    (* [queue.get()] returned [url] *)
| Fetched (url html : string)           (* [fetch(url)] returned [html] *)
| FetchRaised (url e : string)          (* [fetch(url)] raised [e] *)
| Pushed (link : string)                (* [queue.put(link)] in [enqueue_new] *)
| TaskDone (url : string) (raised : bool). (* [queue.task_done()] was called *)

(** One atomic step of one worker; [None] when it cannot move: blocked in
    [get()] on an empty queue, waiting for the lock, or terminated.

    - [Skip]: [task_done()] and [continue] stand inside the [try], so an
      exception of that call is caught by [except Exception], and, raised
      or not, the [finally] clause runs next.
    - [Fetch]: an exception of [fetch] is caught and leads to [finally].
    - [Parse]: an exception of [parse_links] is caught and leads to
      [finally].
    - [Mark] acquires the lock of [mark_visited]; [MarkLocked] runs its
      [UPDATE] and commit and releases the lock.
    - [Enqueue] acquires the lock of [enqueue_new]; [EnqueueLoop] runs one
      round of its loop, and releases the lock after the last one.
    - [Finally]: an exception of [task_done()] leaves the loop and ends
      the thread. *)
Definition thread_step `{Libraries} (net : Net) (self : DarknetCrawler) (p : pc)
    : option (DarknetCrawler * pc * list Event) :=
  match p with
  | Get =>
      match get (queue self) with
      | None => None
      | Some (url, q) => Some (with_queue self q, Select url, [Got url])
      end
  | Select url =>
      if is_visited (conn self) url
      then Some (self, Skip url, [])
      else Some (self, Fetch url, [])
  | Skip url =>
      match task_done (queue self) with
      | Returned q => Some (with_queue self q, Finally url, [TaskDone url false])
      | Raised _ => Some (self, Finally url, [TaskDone url true])
      end
  | Fetch url =>
      match fetch self net url with
      | Returned html =>
          if truthy html
          then Some (self, Parse url html, [Fetched url html])
          else Some (self, Finally url, [Fetched url html])
      | Raised e => Some (self, Finally url, [FetchRaised url e])
      end
  | Parse url html =>
      match parse_links html url with
      | Returned links => Some (self, Mark url links, [])
      | Raised _ => Some (self, Finally url, [])
      end
  | Mark url links =>
      if lock self then None
      else Some (with_lock self true, MarkLocked url links, [])
  | MarkLocked url links =>
      Some (with_lock (mark_visited self url) false, Enqueue url links, [])
  | Enqueue url links =>
      if lock self then None
      else Some (with_lock self true, EnqueueLoop url (set_iter links), [])
  | EnqueueLoop url (link :: rest) =>
      Some (enqueue_link self link, EnqueueLoop url rest,
            if (snd (insert_or_ignore (conn self) link) >? 0)%Z
            then [Pushed link] else [])
  | EnqueueLoop url [] =>
      Some (with_lock self false, Finally url, [])
  | Finally url =>
      match task_done (queue self) with
      | Returned q => Some (with_queue self q, Get, [TaskDone url false])
      | Raised _ => Some (self, Dead, [TaskDone url true])
      end
  | Dead => None
  end.

(** The crawler, its worker threads and the events so far. *)
Record World : Type := mkWorld {
  crawler : DarknetCrawler;
  workers : list pc;
  trace : list Event
}.

Fixpoint set_nth {A : Type} (i : nat) (x : A) (l : list A) : list A :=
  match l, i with
  | [], _ => []
  | _ :: rest, O => x :: rest
  | y :: rest, S j => y :: set_nth j x rest
  end.

(** The scheduler lets worker [i] take a step while the network is in
    state [net]; a worker that cannot move leaves the world as it is. *)
Definition sched_step `{Libraries} (w : World) (turn : nat * Net) : World :=
  let (i, net) := turn in
  match nth_error (workers w) i with
  | None => w
  | Some p =>
      match thread_step net (crawler w) p with
      | None => w
      | Some (self', p', events) =>
          mkWorld self' (set_nth i p' (workers w)) (trace w ++ events)
      end
  end.

Definition run `{Libraries} (schedule : list (nat * Net)) (w : World) : World :=
  fold_left sched_step schedule w.

(** [__main__]: [add_seed(seed)] on the fresh object, then [crawl(threads)]
    starts the workers. *)
Definition start (db : Table) (delay : Z) (use_selenium : bool) (seed : string)
    (threads : nat) : World :=
  mkWorld (add_seed (init db delay use_selenium) seed) (repeat Get threads) [].

(** One worker left alone from [p] until it is back at the top of the loop
    (or cannot move), the network being in state [net] throughout. *)
Fixpoint iteration `{Libraries} (fuel : nat) (net : Net) (self : DarknetCrawler) (p : pc)
    (events : list Event) : DarknetCrawler * pc * list Event :=
  match fuel with
  | O => (self, p, events)
  | S fuel' =>
      match thread_step net self p with
      | None => (self, p, events)
      | Some (self', Get, evs) => (self', Get, events ++ evs)
      | Some (self', p', evs) => iteration fuel' net self' p' (events ++ evs)
      end
  end.

(** ** What the run has done so far *)

Definition fetched_url (e : Event) : list string :=
  match e with
  | Fetched url _ | FetchRaised url _ => [url]
  | _ => []
  end.

(** The event that [fetch(url)] leaves in the log: what it returned, or
    what it raised. *)
Definition fetch_event (self : DarknetCrawler) (net : Net) (url : string) : Event :=
  match fetch self net url with
  | Returned html => Fetched url html
  | Raised e => FetchRaised url e
  end.

(** The URLs passed to [fetch], in order. *)
Definition fetches (tr : list Event) : list string := flat_map fetched_url tr.

(** How often [task_done()] was called for [url]. *)
Definition task_done_calls (url : string) (tr : list Event) : nat :=
  List.length (filter (fun e => match e with
                                | TaskDone u _ => String.eqb u url
                                | _ => false
                                end) tr).

(** The links pushed by [enqueue_new], in order. *)
Definition pushes (tr : list Event) : list string :=
  flat_map (fun e => match e with Pushed l => [l] | _ => [] end) tr.

(** ** A model of [urllib.parse]

    [urlsplit], [urlparse], [urlunsplit], [urlunparse] and [urljoin] of
    CPython 3.11 on [str] arguments with [allow_fragments=True].  A string
    is read as the UTF-8 bytes of the Python string: every test below is
    on an ASCII delimiter, which no multi-byte sequence contains.

    The result is [None] where [urlsplit] raises [ValueError] or where it
    runs a check that is not modelled: a netloc with a square bracket (one
    bracket alone is the [ValueError] "Invalid IPv6 URL", a pair is
    validated as an IP literal) and a netloc with a non-ASCII character
    (checked under NFKC normalisation). *)
Module CPython.

Definition uses_relative : list string :=
  [EmptyString; "ftp"; "http"; "gopher"; "nntp"; "imap"; "wais"; "file";
   "https"; "shttp"; "mms"; "prospero"; "rtsp"; "rtspu"; "sftp"; "svn";
   "svn+ssh"; "ws"; "wss"].

Definition uses_netloc : list string :=
  [EmptyString; "ftp"; "http"; "gopher"; "nntp"; "telnet"; "imap"; "wais";
   "file"; "mms"; "https"; "shttp"; "snews"; "prospero"; "rtsp"; "rtspu";
   "rsync"; "svn"; "svn+ssh"; "sftp"; "nfs"; "git"; "git+ssh"; "ws"; "wss"].

Definition uses_params : list string :=
  [EmptyString; "ftp"; "hdl"; "prospero"; "http"; "imap"; "https"; "shttp";
   "rtsp"; "rtspu"; "sip"; "sips"; "mms"; "sftp"; "tel"].

Definition mem (x : string) (l : list string) : bool := existsb (String.eqb x) l.

Definition code (c : ascii) : nat := nat_of_ascii c.

Definition is_lower (c : ascii) : bool := ((97 <=? code c) && (code c <=? 122))%nat.
Definition is_upper (c : ascii) : bool := ((65 <=? code c) && (code c <=? 90))%nat.
Definition is_digit (c : ascii) : bool := ((48 <=? code c) && (code c <=? 57))%nat.

(** [c in scheme_chars]. *)
Definition scheme_char (c : ascii) : bool :=
  is_lower c || is_upper c || is_digit c ||
  Ascii.eqb c "+" || Ascii.eqb c "-" || Ascii.eqb c ".".

Fixpoint forallb_str (f : ascii -> bool) (s : string) : bool :=
  match s with
  | EmptyString => true
  | String c rest => f c && forallb_str f rest
  end.

Fixpoint map_str (f : ascii -> ascii) (s : string) : string :=
  match s with
  | EmptyString => EmptyString
  | String c rest => String (f c) (map_str f rest)
  end.

Fixpoint filter_str (f : ascii -> bool) (s : string) : string :=
  match s with
  | EmptyString => EmptyString
  | String c rest => if f c then String c (filter_str f rest) else filter_str f rest
  end.

Fixpoint rev_str (s : string) : string :=
  match s with
  | EmptyString => EmptyString
  | String c rest => (rev_str rest ++ String c EmptyString)%string
  end.

(** [c in s]. *)
Definition has_char (c : ascii) (s : string) : bool :=
  negb (forallb_str (fun d => negb (Ascii.eqb d c)) s).

(** [str.lower] on the characters of a scheme. *)
Definition lower (s : string) : string :=
  map_str (fun c => if is_upper c then ascii_of_nat (code c + 32) else c) s.

(** [s.lstrip(_WHATWG_C0_CONTROL_OR_SPACE)] and [s.strip(...)]. *)
Fixpoint lstrip (s : string) : string :=
  match s with
  | EmptyString => EmptyString
  | String c rest => if (code c <=? 32)%nat then lstrip rest else s
  end.

Definition strip (s : string) : string := rev_str (lstrip (rev_str (lstrip s))).

(** The loop over [_UNSAFE_URL_BYTES_TO_REMOVE]: tab, CR and LF go. *)
Definition remove_unsafe (s : string) : string :=
  filter_str (fun c => negb ((code c =? 9) || (code c =? 13) || (code c =? 10))%nat) s.

(** [s.split(c, 1)] when [c in s]: what precedes the first [c] and what
    follows it. *)
Fixpoint cut (c : ascii) (s : string) : option (string * string) :=
  match s with
  | EmptyString => None
  | String d rest =>
      if Ascii.eqb d c then Some (EmptyString, rest)
      else match cut c rest with
           | Some (before, after) => Some (String d before, after)
           | None => None
           end
  end.

(** The same at the last [c]: [s.rpartition(c)]. *)
Fixpoint rcut (c : ascii) (s : string) : option (string * string) :=
  match s with
  | EmptyString => None
  | String d rest =>
      match rcut c rest with
      | Some (before, after) => Some (String d before, after)
      | None => if Ascii.eqb d c then Some (EmptyString, rest) else None
      end
  end.

(** [s.split(c)]. *)
Fixpoint split (c : ascii) (s : string) : list string :=
  match s with
  | EmptyString => [EmptyString]
  | String d rest =>
      if Ascii.eqb d c then EmptyString :: split c rest
      else match split c rest with
           | [] => [String d EmptyString]
           | seg :: segs => String d seg :: segs
           end
  end.

(** ['/'.join(segments)]. *)
Fixpoint join (segments : list string) : string :=
  match segments with
  | [] => EmptyString
  | [seg] => seg
  | seg :: rest => (seg ++ "/" ++ join rest)%string
  end.

(** [_splitnetloc(url, 2)] on the part of [url] after the two slashes:
    the netloc runs up to the first of [/], [?] and [#]. *)
Fixpoint splitnetloc (s : string) : string * string :=
  match s with
  | EmptyString => (EmptyString, EmptyString)
  | String c rest =>
      if Ascii.eqb c "/" || Ascii.eqb c "?" || Ascii.eqb c "#"
      then (EmptyString, s)
      else let (host, tail) := splitnetloc rest in (String c host, tail)
  end.

Definition starts_with_slashes (s : string) : option string :=
  match s with
  | String "/" (String "/" rest) => Some rest
  | _ => None
  end.

Definition first_is_slash (s : string) : bool :=
  match s with
  | String "/" _ => true
  | _ => false
  end.

(** The scheme of [url], when it has one, and the rest. *)
Definition split_scheme (url default : string) : string * string :=
  match cut ":" url with
  | Some (String c0 pre, rest) =>
      if (is_lower c0 || is_upper c0) && forallb_str scheme_char (String c0 pre)
      then (lower (String c0 pre), rest)
      else (default, url)
  | _ => (default, url)
  end.

Record SplitResult : Type := mkSplitResult {
  s_scheme : string;
  s_netloc : string;
  s_path : string;
  s_query : string;
  s_fragment : string
}.

Definition is_ascii_str (s : string) : bool := forallb_str (fun c => (code c <? 128)%nat) s.

Definition urlsplit (url scheme : string) : option SplitResult :=
  let url := remove_unsafe (lstrip url) in
  let scheme := remove_unsafe (strip scheme) in
  let (scheme, url) := split_scheme url scheme in
  let (netloc, url) :=
    match starts_with_slashes url with
    | Some rest => splitnetloc rest
    | None => (EmptyString, url)
    end in
  if has_char "[" netloc || has_char "]" netloc || negb (is_ascii_str netloc)
  then None
  else
    let (url, fragment) :=
      match cut "#" url with
      | Some (before, after) => (before, after)
      | None => (url, EmptyString)
      end in
    let (url, query) :=
      match cut "?" url with
      | Some (before, after) => (before, after)
      | None => (url, EmptyString)
      end in
    Some (mkSplitResult scheme netloc url query fragment).

(** [_splitparams]: called on a [url] that contains a semicolon. *)
Definition splitparams (url : string) : string * string :=
  match rcut "/" url with
  | Some (dir, last) =>
      match cut ";" last with
      | Some (before, after) => ((dir ++ "/" ++ before)%string, after)
      | None => (url, EmptyString)
      end
  | None =>
      match cut ";" url with
      | Some (before, after) => (before, after)
      | None => (url, EmptyString)
      end
  end.

Definition urlparse (url scheme : string) : option ParseResult :=
  match urlsplit url scheme with
  | None => None
  | Some r =>
      let (url, params) :=
        if mem (s_scheme r) uses_params && has_char ";" (s_path r)
        then splitparams (s_path r)
        else (s_path r, EmptyString) in
      Some (mkParseResult (s_scheme r) (s_netloc r) url params (s_query r) (s_fragment r))
  end.

Definition urlunsplit (scheme netloc url query fragment : string) : string :=
  let url :=
    if truthy netloc ||
       (truthy scheme && mem scheme uses_netloc &&
        match starts_with_slashes url with Some _ => false | None => true end)
    then ("//" ++ netloc ++
          (if truthy url && negb (first_is_slash url) then "/" ++ url else url))%string
    else url in
  let url := if truthy scheme then (scheme ++ ":" ++ url)%string else url in
  let url := if truthy query then (url ++ "?" ++ query)%string else url in
  if truthy fragment then (url ++ "#" ++ fragment)%string else url.

Definition urlunparse (p : ParseResult) : string :=
  let url := if truthy (params p) then (path p ++ ";" ++ params p)%string else path p in
  urlunsplit (scheme p) (netloc p) url (query p) (fragment p).

(** [segments[1:-1] = filter(None, segments[1:-1])]. *)
Definition filter_middle (segments : list string) : list string :=
  match segments with
  | [] => []
  | first :: rest =>
      match rev rest with
      | [] => [first]
      | last :: middle => first :: filter truthy (rev middle) ++ [last]
      end
  end.

(** The loop that resolves [.] and [..]; [resolved] is kept reversed. *)
Fixpoint resolve (segments resolved : list string) : list string :=
  match segments with
  | [] => rev resolved
  | seg :: rest =>
      if String.eqb seg ".." then resolve rest (tl resolved)
      else if String.eqb seg "." then resolve rest resolved
      else resolve rest (seg :: resolved)
  end.

Definition urljoin (base url : string) : option string :=
  if negb (truthy base) then Some url
  else if negb (truthy url) then Some base
  else
    match urlparse base EmptyString with
    | None => None
    | Some b =>
        match urlparse url (scheme b) with
        | None => None
        | Some u =>
            if negb (String.eqb (scheme u) (scheme b)) || negb (mem (scheme u) uses_relative)
            then Some url
            else if mem (scheme u) uses_netloc && truthy (netloc u)
            then Some (urlunparse u)
            else
              let netloc' := if mem (scheme u) uses_netloc then netloc b else netloc u in
              if negb (truthy (path u)) && negb (truthy (params u))
              then Some (urlunparse
                           (mkParseResult (scheme u) netloc' (path b) (params b)
                              (if truthy (query u) then query u else query b)
                              (fragment u)))
              else
                let base_parts := split "/" (path b) in
                let base_parts :=
                  if truthy (last base_parts EmptyString)
                  then removelast base_parts else base_parts in
                let segments :=
                  if first_is_slash (path u)
                  then split "/" (path u)
                  else filter_middle (base_parts ++ split "/" (path u)) in
                let resolved_path := resolve segments [] in
                let final := last segments EmptyString in
                let resolved_path :=
                  if String.eqb final "." || String.eqb final ".."
                  then resolved_path ++ [EmptyString] else resolved_path in
                let joined := join resolved_path in
                Some (urlunparse
                        (mkParseResult (scheme u) netloc'
                           (if truthy joined then joined else "/")
                           (params u) (query u) (fragment u)))
        end
    end.

End CPython.

(** ** A stand-in for the HTML parser

    Enough of a parser to run examples: it finds the anchors written
    [<a href='...'>] and knows no other markup. *)
Module Html.

Fixpoint strip_prefix (prefix s : string) : option string :=
  match prefix, s with
  | EmptyString, _ => Some s
  | String c p, String d rest => if Ascii.eqb c d then strip_prefix p rest else None
  | String _ _, EmptyString => None
  end.

Fixpoint anchors (html : string) : list Tag :=
  match html with
  | EmptyString => []
  | String _ rest =>
      match strip_prefix "<a href='" html with
      | Some after =>
          match CPython.cut "'" after with
          | Some (value, _) => mkTag "a" [("href", value)] :: anchors rest
          | None => anchors rest
          end
      | None => anchors rest
      end
  end.

End Html.

Definition of_option {A : Type} (o : option A) : outcome A :=
  match o with
  | Some a => Returned a
  | None => Raised "ValueError"
  end.

(** The libraries as modelled above; sets are visited in insertion order. *)
Definition modelled_libraries : Libraries :=
  {| BeautifulSoup := fun html => Returned (Html.anchors html);
     urljoin := fun base url => of_option (CPython.urljoin base url);
     urlparse := fun url => of_option (CPython.urlparse url EmptyString);
     set_iter := fun s => s;
     set_iter_perm := fun s => Permutation_refl s |}.

(** The [href] values that the loop of [parse_links] goes through. *)
Definition hrefs (soup : list Tag) : list string :=
  flat_map (fun a => match get_attr (attrs a) "href" with
                     | Some value => [value]
                     | None => []
                     end) (find_all_a_href soup).

(** A link that the loop of [parse_links] accepts from [anchors]. *)
Definition accepted `{Libraries} (base_url : string) (anchors : list Tag) (l : string) : Prop :=
  exists a value parsed,
    In a anchors /\ get_attr (attrs a) "href" = Some value /\
    urljoin base_url value = Returned l /\ urlparse l = Returned parsed /\
    link_filter parsed = true.

(** The URLs whose fetch returned content. *)
Definition ok_fetches (tr : list Event) : list string :=
  flat_map (fun e => match e with
                     | Fetched url html => if truthy html then [url] else []
                     | _ => []
                     end) tr.

(** The fetch of [url] came back empty or raised. *)
Definition fetch_failed (url : string) (tr : list Event) : Prop :=
  In (Fetched url EmptyString) tr \/ exists e, In (FetchRaised url e) tr.

(** A request fails, as the code decides it: the call raises (transport
    error, timeout), or the status is one that [raise_for_status]
    rejects, 4xx or 5xx.  With a Selenium driver there is no status, and
    only an exception of the driver is a failure. *)
Definition fetch_fails (self : DarknetCrawler) (net : Net) (url : string) : Prop :=
  if driver self
  then exists e, driver_get net url = Raised e
  else (exists e, session_get net url = Raised e) \/
       (exists resp, session_get net url = Returned resp /\
                     (400 <= status_code resp < 600)%Z).

(** ** Callers racing on the store

    Calls on the store are serialised, by [self.lock] for the writers and
    by the connection itself; a race is the list of calls in the order in
    which they are admitted. *)
Inductive StoreCall : Type :=
| InsertIfAbsent (url : string)
| MarkVisited (url : string).

(** One call: the new table and whether the caller saw a new insert
    ([rowcount > 0]). *)
Definition store_call (t : Table) (c : StoreCall) : Table * bool :=
  match c with
  | InsertIfAbsent url =>
      let (t', rowcount) := insert_or_ignore t url in (t', (rowcount >? 0)%Z)
  | MarkVisited url => (update_visited t url, false)
  end.

Fixpoint serve (t : Table) (calls : list StoreCall) : Table * list bool :=
  match calls with
  | [] => (t, [])
  | c :: rest =>
      let (t1, report) := store_call t c in
      let (t2, reports) := serve t1 rest in
      (t2, report :: reports)
  end.

(** A caller that inserted [url] and saw a new insert. *)
Definition wins (url : string) (c : StoreCall) (report : bool) : bool :=
  match c with
  | InsertIfAbsent u => String.eqb u url && report
  | MarkVisited _ => false
  end.

(** How many of the callers that inserted [url] saw a new insert. *)
Definition winners (url : string) (calls : list StoreCall) (reports : list bool) : nat :=
  List.length (filter (fun cr => wins url (fst cr) (snd cr)) (combine calls reports)).

(** ** Invariants *)

(** What every operation keeps of the frontier store, from a table [t] to
    a later table [t']: keys stay unique, no row disappears, and a row
    keeps its flag or has it set to 1. *)
Record frontier_preserved (t t' : Table) : Prop := {
  keys_unique : NoDup (keys t) -> NoDup (keys t');
  rows_kept : forall url, In url (keys t) -> In url (keys t');
  flag_kept : forall url v, select_visited t url = Some v ->
                select_visited t' url = Some v \/ select_visited t' url = Some 1%Z;
  visited_kept : forall url, is_visited t url = true -> is_visited t' url = true
}.

(** A worker holds [url] when it has popped it and not yet fetched it. *)
Definition holds (url : string) (p : pc) : nat :=
  match p with
  | Select u | Skip u | Fetch u => if string_dec u url then 1 else 0
  | _ => 0
  end.

Definition held (url : string) (ws : list pc) : nat := list_sum (map (holds url) ws).

(** How often [url] is queued, held by a worker or already fetched. *)
Definition tokens (url : string) (w : World) : nat :=
  count_occ string_dec (items (queue (crawler w))) url +
  held url (workers w) +
  count_occ string_dec (fetches (trace w)) url.

(** The invariant of a run that started with the table [db0]. *)
Record run_invariant (db0 : Table) (w : World) : Prop := {
  one_token : forall url, tokens url w <= 1;
  token_has_row : forall url, 1 <= tokens url w -> In url (keys (conn (crawler w)));
  visited_mono : forall url, is_visited db0 url = true ->
                   is_visited (conn (crawler w)) url = true;
  visited_cause : forall url, is_visited (conn (crawler w)) url = true ->
                    is_visited db0 url = true \/ In url (ok_fetches (trace w));
  marker_fetched : forall p, In p (workers w) ->
                     match p with
                     | Parse url _ | Mark url _ | MarkLocked url _ =>
                         In url (ok_fetches (trace w))
                     | _ => True
                     end;
  fetched_unvisited : forall url, In (Fetch url) (workers w) \/ In url (fetches (trace w)) ->
                        is_visited db0 url = false;
  pushed_once : forall url, count_occ string_dec (pushes (trace w)) url <= 1;
  pushed_has_row : forall url, In url (pushes (trace w)) ->
                     In url (keys (conn (crawler w)))
}.

(** ** One iteration, spelled out *)

(** The [Pushed] events of [enqueue_new], round by round. *)
Fixpoint enqueue_events (self : DarknetCrawler) (links : list string) : list Event :=
  match links with
  | [] => []
  | link :: rest =>
      (if (snd (insert_or_ignore (conn self) link) >? 0)%Z then [Pushed link] else [])
      ++ enqueue_events (enqueue_link self link) rest
  end.

(** The [finally] clause, as the last step of an iteration. *)
Definition finish (self : DarknetCrawler) (url : string) (events : list Event)
    : DarknetCrawler * pc * list Event :=
  match task_done (queue self) with
  | Returned q => (with_queue self q, Get, events ++ [TaskDone url false])
  | Raised _ => (self, Dead, events ++ [TaskDone url true])
  end.

(** ** Networks for the examples *)

(** No host answers. *)
Definition offline : Net :=
  mkNet (fun _ => Raised "WebDriverException") (fun _ => Raised "ConnectionError").

(** Every host answers 200 with the page [html]. *)
Definition serving (html : string) : Net :=
  mkNet (fun _ => Returned html) (fun _ => Returned (mkResponse 200 html)).

(** Every host answers with the status [status] and an error page. *)
Definition failing (status : Z) : Net :=
  mkNet (fun _ => Raised "WebDriverException")
        (fun _ => Returned (mkResponse status "<h1>error</h1>")).

(** ** Steps, case by case *)

(** The steps of [thread_step] as a relation: from [self] and the program
    point [p] to the new crawler, the new program point and the events. *)
Inductive step_rel `{Libraries} (net : Net) (self : DarknetCrawler)
    : pc -> DarknetCrawler -> pc -> list Event -> Prop :=
| step_get url q :
    get (queue self) = Some (url, q) ->
    step_rel net self Get (with_queue self q) (Select url) [Got url]
| step_select_visited url :
    is_visited (conn self) url = true ->
    step_rel net self (Select url) self (Skip url) []
| step_select_unvisited url :
    is_visited (conn self) url = false ->
    step_rel net self (Select url) self (Fetch url) []
| step_skip url q :
    task_done (queue self) = Returned q ->
    step_rel net self (Skip url) (with_queue self q) (Finally url) [TaskDone url false]
| step_skip_raises url e :
    task_done (queue self) = Raised e ->
    step_rel net self (Skip url) self (Finally url) [TaskDone url true]
| step_fetch_content url html :
    fetch self net url = Returned html -> truthy html = true ->
    step_rel net self (Fetch url) self (Parse url html) [Fetched url html]
| step_fetch_empty url html :
    fetch self net url = Returned html -> truthy html = false ->
    step_rel net self (Fetch url) self (Finally url) [Fetched url html]
| step_fetch_raises url e :
    fetch self net url = Raised e ->
    step_rel net self (Fetch url) self (Finally url) [FetchRaised url e]
| step_parse url html links :
    parse_links html url = Returned links ->
    step_rel net self (Parse url html) self (Mark url links) []
| step_parse_raises url html e :
    parse_links html url = Raised e ->
    step_rel net self (Parse url html) self (Finally url) []
| step_mark url links :
    lock self = false ->
    step_rel net self (Mark url links) (with_lock self true) (MarkLocked url links) []
| step_mark_locked url links :
    step_rel net self (MarkLocked url links) (with_lock (mark_visited self url) false)
      (Enqueue url links) []
| step_enqueue url links :
    lock self = false ->
    step_rel net self (Enqueue url links) (with_lock self true)
      (EnqueueLoop url (set_iter links)) []
| step_loop_known url link rest :
    In link (keys (conn self)) ->
    step_rel net self (EnqueueLoop url (link :: rest)) self (EnqueueLoop url rest) []
| step_loop_new url link rest :
    ~ In link (keys (conn self)) ->
    step_rel net self (EnqueueLoop url (link :: rest))
      (mkCrawler (conn self ++ [(link, 0%Z)]) (lock self) (put (queue self) link)
         (driver self) (delay self))
      (EnqueueLoop url rest) [Pushed link]
| step_loop_end url :
    step_rel net self (EnqueueLoop url []) (with_lock self false) (Finally url) []
| step_finally url q :
    task_done (queue self) = Returned q ->
    step_rel net self (Finally url) (with_queue self q) Get [TaskDone url false]
| step_finally_raises url e :
    task_done (queue self) = Raised e ->
    step_rel net self (Finally url) self Dead [TaskDone url true].

(** ** More observations of a run *)

(** The URLs that [queue.get()] returned, in order. *)
Definition gots (tr : list Event) : list string :=
  flat_map (fun e => match e with Got url => [url] | _ => [] end) tr.

(** The item a worker is working on: from [get()] until its [finally]
    clause has run. *)
Definition carried (p : pc) : option string :=
  match p with
  | Get | Dead => None
  | Select u | Skip u | Fetch u | Parse u _ | Mark u _ | MarkLocked u _
  | Enqueue u _ | EnqueueLoop u _ | Finally u => Some u
  end.

Definition busy (p : pc) : nat :=
  match carried p with Some _ => 1 | None => 0 end.

Definition carries (url : string) (p : pc) : nat :=
  match carried p with
  | Some u => if string_dec u url then 1 else 0
  | None => 0
  end.

(** Inside a [with self.lock] block, that is, holding the lock: in
    [mark_visited] or in the loop of [enqueue_new]. *)
Definition in_critical (p : pc) : nat :=
  match p with MarkLocked _ _ | EnqueueLoop _ _ => 1 | _ => 0 end.

(** The steps a worker has left inside its [with self.lock] block: the
    [UPDATE] of [mark_visited], or the remaining rounds of the loop of
    [enqueue_new] and its commit. *)
Definition critical_steps (p : pc) : nat :=
  match p with
  | MarkLocked _ _ => 1
  | EnqueueLoop _ rest => S (List.length rest)
  | _ => 0
  end.

(** The turns that a schedule gives to worker [i]. *)
Definition turns_of (i : nat) (schedule : list (nat * Net)) : nat :=
  List.length (filter (fun turn => Nat.eqb (fst turn) i) schedule).

Definition total (f : pc -> nat) (ws : list pc) : nat := list_sum (map f ws).

Definition idle (p : pc) : Prop := p = Get.

(** [link] was extracted by [parse_links] from a page fetched in [tr]. *)
Definition extracted `{Libraries} (tr : list Event) (link : string) : Prop :=
  exists url html links,
    In (Fetched url html) tr /\ parse_links html url = Returned links /\ In link links.

(** The page of [url] was fetched with content and its links were parsed. *)
Definition processed `{Libraries} (tr : list Event) (url : string) : Prop :=
  exists html links,
    In (Fetched url html) tr /\ truthy html = true /\
    parse_links html url = Returned links.

(** Where the links of a worker past [parse_links] come from. *)
Definition provenance `{Libraries} (tr : list Event) (p : pc) : Prop :=
  match p with
  | Parse url html => In (Fetched url html) tr /\ truthy html = true
  | Mark url links | MarkLocked url links | Enqueue url links =>
      exists html, In (Fetched url html) tr /\ truthy html = true /\
                   parse_links html url = Returned links
  | EnqueueLoop url rest =>
      exists html links, In (Fetched url html) tr /\ truthy html = true /\
                         parse_links html url = Returned links /\ incl rest links
  | _ => True
  end.

(** A worker that has the content of [url] and has not yet run
    [mark_visited] for it. *)
Definition marking (url : string) (p : pc) : Prop :=
  match p with
  | Parse u _ | Mark u _ | MarkLocked u _ => u = url
  | _ => False
  end.

(** The origin of what the workers carry and of what was pushed and
    fetched. *)
Definition origins `{Libraries} (w : World) : Prop :=
  (forall p, In p (workers w) -> provenance (trace w) p) /\
  (forall link, In link (pushes (trace w)) -> extracted (trace w) link) /\
  (forall p url, In p (workers w) -> holds url p = 1 -> In url (gots (trace w))) /\
  (forall url, In url (fetches (trace w)) -> In url (gots (trace w))).

(** Visited URLs against processed pages, at one moment of a run that
    started with the table [db0]. *)
Definition visited_as_processed `{Libraries} (db0 : Table) (w : World) : Prop :=
  (forall url, is_visited (conn (crawler w)) url = true ->
               is_visited db0 url = true \/ processed (trace w) url) /\
  (forall url, processed (trace w) url ->
               is_visited (conn (crawler w)) url = true \/
               exists p, In p (workers w) /\ marking url p).

(** ** The command line *)

Module Cli.

(** The [argparse] namespace of [__main__]. *)
Record Args : Type := mkArgs {
  seed : string;
  delay : Z;
  db : string;
  threads : Z;
  login_url : option string;
  login_data : option (list string)
}.

(** A Python [dict] of strings: the bindings in insertion order. *)
Definition Dict : Type := list (string * string).

(** [d[k] = v]: an existing key keeps its place and takes the new value. *)
Fixpoint dict_set (d : Dict) (k v : string) : Dict :=
  match d with
  | [] => [(k, v)]
  | (k', v') :: rest =>
      if String.eqb k' k then (k, v) :: rest else (k', v') :: dict_set rest k v
  end.

(** One element of the generator [item.split('=') for item in ...] as
    [dict()] takes it: a sequence of length two, or [ValueError]. *)
Definition login_pair (item : string) : outcome (string * string) :=
  match CPython.split "=" item with
  | [k; v] => Returned (k, v)
  | _ => Raised "ValueError"
  end.

(** [dict(item.split('=') for item in items)], [d] being the dictionary
    built so far. *)
Fixpoint dict_of_items (items : list string) (d : Dict) : outcome Dict :=
  match items with
  | [] => Returned d
  | item :: rest =>
      kv <- login_pair item ;;
      dict_of_items rest (dict_set d (fst kv) (snd kv))
  end.

(** [authenticate]: nothing is caught here. *)
Definition authenticate (session_post : string -> Dict -> outcome Response)
    (login_url : string) (data : Dict) : outcome unit :=
  resp <- session_post login_url data ;;
  raise_for_status resp.

Definition USE_SELENIUM : bool := false.

(** How [__main__] goes: an exception before [crawl] ends the process,
    with the store as it then is; otherwise the workers run. *)
Inductive Exit : Type :=
| Crashed (e : string) (store : Table)
| Crawling (w : World).

(** The login step of [__main__], taken when both arguments are truthy. *)
Definition login (session_post : string -> Dict -> outcome Response) (args : Args)
    : outcome unit :=
  match login_url args, login_data args with
  | Some url, Some (item :: items) =>
      if truthy url
      then (data <- dict_of_items (item :: items) [] ;;
            authenticate session_post url data)
      else Returned tt
  | _, _ => Returned tt
  end.

(** [__main__], on the table found at [args.db]; [crawl] is followed
    along [schedule]. *)
Definition main `{Libraries} (session_post : string -> Dict -> outcome Response)
    (store : Table) (args : Args) (schedule : list (nat * Net)) : Exit :=
  let crawler := init store (delay args) USE_SELENIUM in
  let crawler := add_seed crawler (seed args) in
  match login session_post args with
  | Raised e => Crashed e (conn crawler)
  | Returned _ =>
      Crawling (run schedule (mkWorld crawler (repeat Get (Z.to_nat (threads args))) []))
  end.

(** How often [c] occurs in [s]. *)
Fixpoint occurrences (c : ascii) (s : string) : nat :=
  match s with
  | EmptyString => 0
  | String d rest => (if Ascii.eqb d c then 1 else 0) + occurrences c rest
  end.

End Cli.

(** The program points of a worker that goes down the already-visited
    path with the item [seed]. *)
Definition on_skip_path (seed : string) (p : pc) : Prop :=
  p = Get \/ p = Dead \/ p = Select seed \/ p = Skip seed \/ p = Finally seed.

(** ** Invariants of Part III *)

(** A run whose seed was not visited when it started: what is queued or
    not yet fetched is unvisited, no worker skips or has died, the
    counter of the queue counts the items queued and in work, every
    [get()] is answered by one [task_done()] once its worker is through,
    and no [task_done()] has raised. *)
Record fresh (w : World) : Prop := {
  queued_unvisited :
    forall url,
      1 <= count_occ string_dec (items (queue (crawler w))) url + held url (workers w) ->
      is_visited (conn (crawler w)) url = false;
  nobody_skips :
    forall p, In p (workers w) -> p <> Dead /\ forall url, p <> Skip url;
  accounting :
    unfinished_tasks (queue (crawler w)) =
    Z.of_nat (List.length (items (queue (crawler w))) + total busy (workers w));
  signalled :
    forall url,
      task_done_calls url (trace w) + total (carries url) (workers w) =
      count_occ string_dec (gots (trace w)) url;
  never_raised : forall url, ~ In (TaskDone url true) (trace w)
}.

(* ================================================================== *)
(** * Part II: lemmas and theorems *)
(* ================================================================== *)

(** ** The table *)

Lemma existsb_eqb_In (url : string) (l : list string) :
  existsb (String.eqb url) l = true <-> In url l.
Proof.
  rewrite existsb_exists. split.
  - intros [x [Hin Heq]]. apply String.eqb_eq in Heq. now subst.
  - intros Hin. exists url. split; [assumption | apply String.eqb_refl].
Qed.

Lemma existsb_eqb_false (url : string) (l : list string) :
  existsb (String.eqb url) l = false <-> ~ In url l.
Proof.
  rewrite <- existsb_eqb_In. destruct (existsb _ l); split; intros; congruence.
Qed.

Lemma select_visited_None (t : Table) (url : string) :
  select_visited t url = None <-> ~ In url (keys t).
Proof.
  induction t as [| [u v] t IH]; simpl.
  - tauto.
  - destruct (String.eqb u url) eqn:E.
    + apply String.eqb_eq in E. subst. split; [discriminate | tauto].
    + apply String.eqb_neq in E. rewrite IH. tauto.
Qed.

Lemma select_visited_Some_In (t : Table) (url : string) (v : Z) :
  select_visited t url = Some v -> In url (keys t).
Proof.
  intros H. destruct (in_dec string_dec url (keys t)) as [Hin | Hout]; [assumption |].
  apply select_visited_None in Hout. congruence.
Qed.

Lemma In_keys_select (t : Table) (url : string) :
  In url (keys t) -> exists v, select_visited t url = Some v.
Proof.
  intros Hin. destruct (select_visited t url) as [v |] eqn:E.
  - now exists v.
  - apply select_visited_None in E. contradiction.
Qed.

Lemma select_visited_app (t t' : Table) (url : string) :
  select_visited (t ++ t') url =
  match select_visited t url with
  | Some v => Some v
  | None => select_visited t' url
  end.
Proof.
  induction t as [| [u v] t IH]; simpl; [reflexivity |].
  destruct (String.eqb u url); [reflexivity | exact IH].
Qed.

Lemma keys_update_visited (t : Table) (url : string) :
  keys (update_visited t url) = keys t.
Proof.
  unfold keys, update_visited. rewrite map_map. apply map_ext.
  intros [u v]; simpl. now destruct (String.eqb u url).
Qed.

Lemma select_update_visited (t : Table) (url u : string) :
  select_visited (update_visited t url) u =
  if String.eqb u url
  then match select_visited t u with Some _ => Some 1%Z | None => None end
  else select_visited t u.
Proof.
  induction t as [| [k v] t IH]; simpl.
  - now destruct (String.eqb u url).
  - destruct (String.eqb k url) eqn:Ek; simpl.
    + apply String.eqb_eq in Ek. subst k.
      destruct (String.eqb url u) eqn:Eu.
      * apply String.eqb_eq in Eu. subst u. now rewrite String.eqb_refl.
      * rewrite IH. reflexivity.
    + destruct (String.eqb k u) eqn:Eu.
      * apply String.eqb_eq in Eu. subst u. now rewrite Ek.
      * exact IH.
Qed.

Lemma insert_or_ignore_present (t : Table) (url : string) :
  In url (keys t) -> insert_or_ignore t url = (t, 0%Z).
Proof.
  intros Hin. unfold insert_or_ignore.
  now rewrite (proj2 (existsb_eqb_In url (keys t)) Hin).
Qed.

Lemma insert_or_ignore_absent (t : Table) (url : string) :
  ~ In url (keys t) -> insert_or_ignore t url = (t ++ [(url, 0%Z)], 1%Z).
Proof.
  intros Hout. unfold insert_or_ignore.
  now rewrite (proj2 (existsb_eqb_false url (keys t)) Hout).
Qed.

Lemma insert_or_ignore_cases (t : Table) (url : string) :
  (In url (keys t) /\ insert_or_ignore t url = (t, 0%Z)) \/
  (~ In url (keys t) /\ insert_or_ignore t url = (t ++ [(url, 0%Z)], 1%Z)).
Proof.
  destruct (in_dec string_dec url (keys t)) as [Hin | Hout].
  - left. split; [assumption | now apply insert_or_ignore_present].
  - right. split; [assumption | now apply insert_or_ignore_absent].
Qed.

Lemma keys_app (t t' : Table) : keys (t ++ t') = keys t ++ keys t'.
Proof. apply map_app. Qed.

Lemma is_visited_select (t t' : Table) (url : string) :
  select_visited t url = select_visited t' url -> is_visited t url = is_visited t' url.
Proof. unfold is_visited. now intros ->. Qed.

(** ** [frontier_preserved] is a preorder, kept by each write *)

Lemma frontier_preserved_refl (t : Table) : frontier_preserved t t.
Proof. split; auto. Qed.

Lemma frontier_preserved_trans (t1 t2 t3 : Table) :
  frontier_preserved t1 t2 -> frontier_preserved t2 t3 -> frontier_preserved t1 t3.
Proof.
  intros [U1 R1 F1 V1] [U2 R2 F2 V2]. split; auto.
  intros url v Hv. destruct (F1 url v Hv) as [H | H].
  - exact (F2 url v H).
  - destruct (F2 url 1%Z H) as [H' | H']; right; exact H'.
Qed.

Lemma insert_preserves_frontier (t : Table) (url : string) :
  frontier_preserved t (fst (insert_or_ignore t url)).
Proof.
  destruct (insert_or_ignore_cases t url) as [[Hin ->] | [Hout ->]]; simpl.
  - apply frontier_preserved_refl.
  - split.
    + intros Hnd. rewrite keys_app. simpl.
      apply NoDup_app; [assumption | repeat constructor; simpl; tauto |].
      intros x Hx [<- | []]. contradiction.
    + intros u Hu. rewrite keys_app. apply in_or_app. now left.
    + intros u v Hv. left. rewrite select_visited_app. now rewrite Hv.
    + intros u. unfold is_visited. rewrite select_visited_app.
      destruct (select_visited t u); [auto | discriminate].
Qed.

Lemma update_preserves_frontier (t : Table) (url : string) :
  frontier_preserved t (update_visited t url).
Proof.
  split.
  - now rewrite keys_update_visited.
  - intros u. now rewrite keys_update_visited.
  - intros u v Hv. rewrite select_update_visited, Hv.
    destruct (String.eqb u url); auto.
  - intros u. unfold is_visited. rewrite select_update_visited.
    destruct (String.eqb u url); [| auto].
    destruct (select_visited t u); [reflexivity | discriminate].
Qed.

(** ** The methods of the crawler *)

Lemma conn_enqueue_link (self : DarknetCrawler) (link : string) :
  conn (enqueue_link self link) = fst (insert_or_ignore (conn self) link).
Proof.
  unfold enqueue_link.
  destruct (insert_or_ignore (conn self) link) as [t rowcount]; simpl.
  now destruct (rowcount >? 0)%Z.
Qed.

Lemma enqueue_link_present (self : DarknetCrawler) (link : string) :
  In link (keys (conn self)) -> enqueue_link self link = self.
Proof.
  intros Hin. unfold enqueue_link. rewrite (insert_or_ignore_present _ _ Hin); simpl.
  now destruct self.
Qed.

Lemma enqueue_link_absent (self : DarknetCrawler) (link : string) :
  ~ In link (keys (conn self)) ->
  enqueue_link self link =
  mkCrawler (conn self ++ [(link, 0%Z)]) (lock self) (put (queue self) link)
    (driver self) (delay self).
Proof.
  intros Hout. unfold enqueue_link. now rewrite (insert_or_ignore_absent _ _ Hout).
Qed.

Lemma lock_enqueue_link (self : DarknetCrawler) (link : string) :
  lock (enqueue_link self link) = lock self.
Proof.
  destruct (in_dec string_dec link (keys (conn self))) as [Hin | Hout].
  - now rewrite enqueue_link_present.
  - now rewrite enqueue_link_absent.
Qed.

Lemma enqueue_new_cons (self : DarknetCrawler) (link : string) (links : list string) :
  enqueue_new self (link :: links) = enqueue_new (enqueue_link self link) links.
Proof. reflexivity. Qed.

Lemma add_seed_preserves_frontier (self : DarknetCrawler) (url : string) :
  frontier_preserved (conn self) (conn (add_seed self url)).
Proof. apply insert_preserves_frontier. Qed.

Lemma mark_visited_preserves_frontier (self : DarknetCrawler) (url : string) :
  frontier_preserved (conn self) (conn (mark_visited self url)).
Proof. apply update_preserves_frontier. Qed.

Lemma enqueue_link_preserves_frontier (self : DarknetCrawler) (link : string) :
  frontier_preserved (conn self) (conn (enqueue_link self link)).
Proof. rewrite conn_enqueue_link. apply insert_preserves_frontier. Qed.

Lemma enqueue_new_preserves_frontier (links : list string) (self : DarknetCrawler) :
  frontier_preserved (conn self) (conn (enqueue_new self links)).
Proof.
  revert self. induction links as [| link links IH]; intros self.
  - apply frontier_preserved_refl.
  - rewrite enqueue_new_cons.
    eapply frontier_preserved_trans; [apply enqueue_link_preserves_frontier | apply IH].
Qed.

(** ** Steps and runs *)

Section Steps.
Context `{Libraries}.

(** The table after a step is the table before it, or that table after
    [mark_visited], or after one round of [enqueue_new]. *)
Lemma thread_step_conn (net : Net) (self self' : DarknetCrawler) (p p' : pc)
    (events : list Event) :
  thread_step net self p = Some (self', p', events) ->
  conn self' = conn self \/
  (exists url links, p = MarkLocked url links /\
                     self' = with_lock (mark_visited self url) false) \/
  (exists url link rest, p = EnqueueLoop url (link :: rest) /\
                         self' = enqueue_link self link).
Proof.
  intros Hstep. destruct p as [| u | u | u | u h | u l | u l | u l | u [| link rest] | u |];
    simpl in Hstep.
  - destruct (get (queue self)) as [[url q] |]; inversion Hstep; subst. now left.
  - destruct (is_visited (conn self) u); inversion Hstep; subst; now left.
  - destruct (task_done (queue self)); inversion Hstep; subst; now left.
  - destruct (fetch self net u) as [html | e];
      [destruct (truthy html) |]; inversion Hstep; subst; now left.
  - destruct (parse_links h u); inversion Hstep; subst; now left.
  - destruct (lock self); inversion Hstep; subst. now left.
  - inversion Hstep; subst. right; left. now exists u, l.
  - destruct (lock self); inversion Hstep; subst. now left.
  - inversion Hstep; subst. now left.
  - inversion Hstep; subst. right; right. now exists u, link, rest.
  - destruct (task_done (queue self)); inversion Hstep; subst; now left.
  - discriminate.
Qed.

Lemma thread_step_preserves_frontier (net : Net) (self self' : DarknetCrawler)
    (p p' : pc) (events : list Event) :
  thread_step net self p = Some (self', p', events) ->
  frontier_preserved (conn self) (conn self').
Proof.
  intros Hstep.
  destruct (thread_step_conn _ _ _ _ _ _ Hstep)
    as [-> | [(u & l & _ & ->) | (u & link & rest & _ & ->)]].
  - apply frontier_preserved_refl.
  - apply mark_visited_preserves_frontier.
  - apply enqueue_link_preserves_frontier.
Qed.

Lemma sched_step_preserves_frontier (w : World) (turn : nat * Net) :
  frontier_preserved (conn (crawler w)) (conn (crawler (sched_step w turn))).
Proof.
  destruct turn as [i net]. unfold sched_step.
  destruct (nth_error (workers w) i) as [p |]; [| apply frontier_preserved_refl].
  destruct (thread_step net (crawler w) p) as [[[self' p'] events] |] eqn:Hstep;
    [| apply frontier_preserved_refl].
  simpl. eapply thread_step_preserves_frontier; eassumption.
Qed.

Lemma run_preserves_frontier (schedule : list (nat * Net)) (w : World) :
  frontier_preserved (conn (crawler w)) (conn (crawler (run schedule w))).
Proof.
  revert w. induction schedule as [| turn schedule IH]; intros w.
  - apply frontier_preserved_refl.
  - simpl. eapply frontier_preserved_trans;
      [apply sched_step_preserves_frontier | apply IH].
Qed.

End Steps.

(** ** Bookkeeping for the run invariant *)

Lemma nth_error_set_nth_In {A : Type} (i : nat) (x y : A) (l : list A) :
  In y (set_nth i x l) -> y = x \/ In y l.
Proof.
  revert i. induction l as [| z l IH]; intros [| i]; simpl; try tauto.
  - intros [<- | Hin]; auto.
  - intros [<- | Hin]; auto. destruct (IH i Hin); auto.
Qed.

Lemma held_set_nth (url : string) (i : nat) (p p' : pc) (ws : list pc) :
  nth_error ws i = Some p ->
  held url (set_nth i p' ws) + holds url p = held url ws + holds url p'.
Proof.
  unfold held. revert i. induction ws as [| q ws IH]; intros [| i]; simpl; try discriminate.
  - intros [= ->]. lia.
  - intros Hnth. specialize (IH i Hnth). lia.
Qed.

Lemma fetches_app (tr tr' : list Event) : fetches (tr ++ tr') = fetches tr ++ fetches tr'.
Proof. apply flat_map_app. Qed.

Lemma ok_fetches_app (tr tr' : list Event) :
  ok_fetches (tr ++ tr') = ok_fetches tr ++ ok_fetches tr'.
Proof. apply flat_map_app. Qed.

Lemma pushes_app (tr tr' : list Event) : pushes (tr ++ tr') = pushes tr ++ pushes tr'.
Proof. apply flat_map_app. Qed.

Lemma tokens_after_step (url : string) (w : World) (i : nat) (p p' : pc)
    (self' : DarknetCrawler) (events : list Event) :
  nth_error (workers w) i = Some p ->
  tokens url (mkWorld self' (set_nth i p' (workers w)) (trace w ++ events))
    + holds url p + count_occ string_dec (items (queue (crawler w))) url =
  tokens url w + holds url p' + count_occ string_dec (items (queue self')) url
    + count_occ string_dec (fetches events) url.
Proof.
  intros Hnth. unfold tokens; simpl.
  rewrite fetches_app, count_occ_app.
  pose proof (held_set_nth url i p p' (workers w) Hnth). lia.
Qed.

Lemma task_done_items (q q' : Queue) : task_done q = Returned q' -> items q' = items q.
Proof.
  unfold task_done. destruct (_ <? 0)%Z; [discriminate |]. now intros [= <-].
Qed.

Lemma is_visited_after_update (t : Table) (url u : string) :
  is_visited (update_visited t url) u = true -> u = url \/ is_visited t u = true.
Proof.
  unfold is_visited. rewrite select_update_visited.
  destruct (String.eqb u url) eqn:E; [| auto].
  apply String.eqb_eq in E. auto.
Qed.

Lemma is_visited_after_insert (t : Table) (url u : string) :
  is_visited (fst (insert_or_ignore t url)) u = true -> is_visited t u = true.
Proof.
  destruct (insert_or_ignore_cases t url) as [[_ ->] | [Hout ->]]; simpl; [auto |].
  unfold is_visited. rewrite select_visited_app.
  destruct (select_visited t u) eqn:E; [auto |]. simpl.
  destruct (String.eqb url u); simpl; discriminate.
Qed.

Lemma count_occ_put (q : Queue) (item url : string) :
  count_occ string_dec (items (put q item)) url =
  count_occ string_dec (items q) url + (if string_dec item url then 1 else 0).
Proof.
  simpl. rewrite count_occ_app. simpl. now destruct (string_dec item url).
Qed.

(** ** The run invariant *)

Section RunInvariant.
Context `{Libraries}.
Variable db0 : Table.

(** A step never adds a token for a URL that already has one: the only
    step that adds a token is the round of [enqueue_new] that inserts a
    URL without a row, hence without a token. *)
Lemma step_tokens (w : World) (i : nat) (net : Net) (p p' : pc)
    (self' : DarknetCrawler) (events : list Event) (url : string) :
  run_invariant db0 w ->
  nth_error (workers w) i = Some p ->
  thread_step net (crawler w) p = Some (self', p', events) ->
  let w' := mkWorld self' (set_nth i p' (workers w)) (trace w ++ events) in
  tokens url w' <= tokens url w \/
  (tokens url w = 0 /\ tokens url w' = 1 /\ In url (keys (conn self'))).
Proof.
  intros Inv Hnth Hstep w'.
  pose proof (tokens_after_step url w i p p' self' events Hnth) as Htok.
  fold w' in Htok.
  destruct p as [| u | u | u | u h | u l | u l | u l | u [| link rest] | u |];
    simpl in Hstep.
  - unfold get in Hstep.
    destruct (items (queue (crawler w))) as [| item rest] eqn:Hq; [discriminate |].
    inversion Hstep; subst; clear Hstep. simpl in Htok.
    left. destruct (string_dec item url); lia.
  - left. destruct (is_visited (conn (crawler w)) u);
      inversion Hstep; subst; simpl in Htok; lia.
  - left. destruct (task_done (queue (crawler w))) as [q |] eqn:Hq;
      inversion Hstep; subst; simpl in Htok.
    + rewrite (task_done_items _ _ Hq) in Htok. lia.
    + lia.
  - left. destruct (fetch (crawler w) net u) as [html | e]; [destruct (truthy html) |];
      inversion Hstep; subst; simpl in Htok; destruct (string_dec u url); lia.
  - left. destruct (parse_links h u); inversion Hstep; subst; simpl in Htok; lia.
  - left. destruct (lock (crawler w)); inversion Hstep; subst; simpl in Htok; lia.
  - left. inversion Hstep; subst; simpl in Htok; lia.
  - left. destruct (lock (crawler w)); inversion Hstep; subst; simpl in Htok; lia.
  - left. inversion Hstep; subst; simpl in Htok; lia.
  - destruct (in_dec string_dec link (keys (conn (crawler w)))) as [Hin | Hout].
    + rewrite (enqueue_link_present _ _ Hin) in Hstep.
      inversion Hstep; subst; clear Hstep. left.
      rewrite (insert_or_ignore_present _ _ Hin) in Htok. simpl in Htok. lia.
    + rewrite (enqueue_link_absent _ _ Hout) in Hstep.
      inversion Hstep; subst; clear Hstep.
      rewrite (insert_or_ignore_absent _ _ Hout) in Htok.
      cbn [queue holds snd fetches flat_map fetched_url app count_occ] in Htok.
      replace (1 >? 0)%Z with true in Htok by reflexivity.
      cbn [queue holds snd fetches flat_map fetched_url app count_occ] in Htok.
      rewrite count_occ_put in Htok.
      destruct (string_dec link url) as [-> | Hne].
      * right.
        assert (tokens url w = 0) as Hzero.
        { destruct (tokens url w) eqn:E; [reflexivity |].
          exfalso. apply Hout. apply (token_has_row _ _ Inv). lia. }
        repeat split; [assumption | lia |].
        simpl. rewrite keys_app. apply in_or_app. right. now left.
      * left. lia.
  - left. destruct (task_done (queue (crawler w))) as [q |] eqn:Hq;
      inversion Hstep; subst; simpl in Htok.
    + rewrite (task_done_items _ _ Hq) in Htok. lia.
    + lia.
  - discriminate.
Qed.

Lemma ok_fetches_grow (tr events : list Event) (url : string) :
  In url (ok_fetches tr) -> In url (ok_fetches (tr ++ events)).
Proof. intros Hin. rewrite ok_fetches_app. apply in_or_app. now left. Qed.

(** What a step appends to the log of fetches, and where its new program
    point comes from. *)
Ltac invert_step Hstep :=
  simpl in Hstep;
  repeat match type of Hstep with
         | context [match ?x with _ => _ end] => destruct x eqn:?
         end;
  inversion Hstep; subst.

Lemma step_fetch_event (net : Net) (self self' : DarknetCrawler) (p p' : pc)
    (events : list Event) (url : string) :
  thread_step net self p = Some (self', p', events) ->
  In url (fetches events) ->
  p = Fetch url.
Proof.
  intros Hstep Hin.
  destruct p as [| u | u | u | u h | u l | u l | u l | u [| link rest] | u |];
    invert_step Hstep; simpl in Hin;
    try contradiction;
    try (destruct (_ >? _)%Z; simpl in Hin; contradiction);
    destruct Hin as [<- | []]; auto.
Qed.

Lemma step_to_fetch (net : Net) (self self' : DarknetCrawler) (p : pc)
    (events : list Event) (url : string) :
  thread_step net self p = Some (self', Fetch url, events) ->
  p = Select url /\ is_visited (conn self) url = false.
Proof.
  intros Hstep.
  destruct p as [| u | u | u | u h | u l | u l | u l | u [| link rest] | u |];
    invert_step Hstep; auto.
Qed.

Lemma step_to_marker (net : Net) (self self' : DarknetCrawler) (p p' : pc)
    (events : list Event) :
  thread_step net self p = Some (self', p', events) ->
  match p' with
  | Parse url html => p = Fetch url /\ events = [Fetched url html] /\ truthy html = true
  | Mark url _ => exists html, p = Parse url html
  | MarkLocked url links => p = Mark url links
  | _ => True
  end.
Proof.
  intros Hstep.
  destruct p as [| u | u | u | u h | u l | u l | u l | u [| link rest] | u |];
    invert_step Hstep; auto.
  now exists h.
Qed.

(** A step pushes at most one link, and only one that had no row. *)
Lemma step_pushes (net : Net) (self self' : DarknetCrawler) (p p' : pc)
    (events : list Event) :
  thread_step net self p = Some (self', p', events) ->
  pushes events = [] \/
  exists link, pushes events = [link] /\ ~ In link (keys (conn self)) /\
               In link (keys (conn self')).
Proof.
  intros Hstep.
  destruct p as [| u | u | u | u h | u l | u l | u l | u [| link rest] | u |];
    try (invert_step Hstep; now left).
  simpl in Hstep.
  destruct (in_dec string_dec link (keys (conn self))) as [Hin | Hout].
  - rewrite (insert_or_ignore_present _ _ Hin) in Hstep.
    inversion Hstep; subst. now left.
  - rewrite (insert_or_ignore_absent _ _ Hout), (enqueue_link_absent _ _ Hout) in Hstep.
    inversion Hstep; subst. right. exists link. simpl. repeat split; [assumption |].
    rewrite keys_app. apply in_or_app. right. now left.
Qed.

Lemma thread_step_invariant (w : World) (i : nat) (net : Net) (p p' : pc)
    (self' : DarknetCrawler) (events : list Event) :
  run_invariant db0 w ->
  nth_error (workers w) i = Some p ->
  thread_step net (crawler w) p = Some (self', p', events) ->
  run_invariant db0 (mkWorld self' (set_nth i p' (workers w)) (trace w ++ events)).
Proof.
  intros Inv Hnth Hstep.
  pose proof (nth_error_In _ _ Hnth) as Hp.
  pose proof (thread_step_preserves_frontier _ _ _ _ _ _ Hstep) as Hfr.
  split; cbn [crawler workers trace].
  - intros url.
    destruct (step_tokens w i net p p' self' events url Inv Hnth Hstep) as [Hle | (_ & -> & _)].
    + pose proof (one_token _ _ Inv url). lia.
    + lia.
  - intros url Htok.
    destruct (step_tokens w i net p p' self' events url Inv Hnth Hstep) as [Hle | (_ & _ & Hin)].
    + apply (rows_kept _ _ Hfr). apply (token_has_row _ _ Inv). lia.
    + exact Hin.
  - intros url Hv. apply (visited_kept _ _ Hfr). now apply (visited_mono _ _ Inv).
  - intros url Hv.
    assert (is_visited (conn (crawler w)) url = true \/
            exists links, p = MarkLocked url links) as [Hold | [links ->]].
    { destruct (thread_step_conn _ _ _ _ _ _ Hstep)
        as [Heq | [(u & l & -> & ->) | (u & link & rest & _ & ->)]].
      - left. now rewrite <- Heq.
      - simpl in Hv. destruct (is_visited_after_update _ _ _ Hv) as [-> | Hold]; eauto.
      - left. rewrite conn_enqueue_link in Hv. now apply is_visited_after_insert in Hv. }
    + destruct (visited_cause _ _ Inv url Hold) as [Hdb | Hok]; [now left |].
      right. now apply ok_fetches_grow.
    + right. apply ok_fetches_grow. exact (marker_fetched _ _ Inv _ Hp).
  - intros q Hq. destruct (nth_error_set_nth_In _ _ _ _ Hq) as [-> | Hold].
    + pose proof (step_to_marker _ _ _ _ _ _ Hstep) as Hm.
      destruct p'; try exact I.
      * destruct Hm as (_ & -> & Ht). rewrite ok_fetches_app. apply in_or_app. right.
        simpl. rewrite Ht. now left.
      * destruct Hm as [html ->]. apply ok_fetches_grow.
        exact (marker_fetched _ _ Inv _ Hp).
      * rewrite Hm in Hp. apply ok_fetches_grow.
        exact (marker_fetched _ _ Inv _ Hp).
    + pose proof (marker_fetched _ _ Inv _ Hold) as Hm.
      destruct q; try exact I; now apply ok_fetches_grow.
  - intros url [Hq | Hf].
    + destruct (nth_error_set_nth_In _ _ _ _ Hq) as [<- | Hold].
      * destruct (step_to_fetch _ _ _ _ _ _ Hstep) as [_ Hv].
        destruct (is_visited db0 url) eqn:E; [| reflexivity].
        rewrite (visited_mono _ _ Inv url E) in Hv. discriminate.
      * apply (fetched_unvisited _ _ Inv). now left.
    + rewrite fetches_app in Hf. apply in_app_or in Hf. destruct Hf as [Hf | Hf].
      * apply (fetched_unvisited _ _ Inv). now right.
      * rewrite (step_fetch_event _ _ _ _ _ _ _ Hstep Hf) in Hp.
        apply (fetched_unvisited _ _ Inv). now left.
  - intros url. rewrite pushes_app, count_occ_app.
    pose proof (pushed_once _ _ Inv url) as Hone.
    destruct (step_pushes _ _ _ _ _ _ Hstep) as [-> | (link & -> & Hout & _)];
      simpl; [lia |].
    destruct (string_dec link url) as [-> | Hne]; [| lia].
    assert (count_occ string_dec (pushes (trace w)) url = 0) as ->; [| lia].
    apply count_occ_not_In. intros Hin. apply Hout. exact (pushed_has_row _ _ Inv url Hin).
  - intros url Hin. rewrite pushes_app in Hin. apply in_app_or in Hin.
    destruct Hin as [Hin | Hin].
    + apply (rows_kept _ _ Hfr). exact (pushed_has_row _ _ Inv url Hin).
    + destruct (step_pushes _ _ _ _ _ _ Hstep) as [Hnil | (link & Hone & _ & Hrow)].
      * rewrite Hnil in Hin. contradiction.
      * rewrite Hone in Hin. destruct Hin as [<- | []]. exact Hrow.
Qed.

Lemma sched_step_invariant (w : World) (turn : nat * Net) :
  run_invariant db0 w -> run_invariant db0 (sched_step w turn).
Proof.
  intros Inv. destruct turn as [i net]. unfold sched_step.
  destruct (nth_error (workers w) i) as [p |] eqn:Hnth; [| exact Inv].
  destruct (thread_step net (crawler w) p) as [[[self' p'] events] |] eqn:Hstep;
    [| exact Inv].
  eapply thread_step_invariant; eassumption.
Qed.

Lemma run_invariant_run (schedule : list (nat * Net)) (w : World) :
  run_invariant db0 w -> run_invariant db0 (run schedule w).
Proof.
  revert w. induction schedule as [| turn schedule IH]; intros w Inv; [exact Inv |].
  simpl. apply IH. now apply sched_step_invariant.
Qed.

End RunInvariant.

(** ** A run from [start] *)

Lemma held_repeat_Get (url : string) (n : nat) : held url (repeat Get n) = 0.
Proof. unfold held. induction n as [| n IH]; simpl; [reflexivity | exact IH]. Qed.

Lemma start_invariant (db : Table) (delay : Z) (use_selenium : bool) (seed : string)
    (threads : nat) :
  let w := start db delay use_selenium seed threads in
  run_invariant (conn (crawler w)) w.
Proof.
  intros w. split.
  - intros url. unfold tokens; simpl. rewrite held_repeat_Get.
    destruct (string_dec seed url); lia.
  - intros url. unfold tokens; simpl. rewrite held_repeat_Get.
    destruct (string_dec seed url) as [<- | Hne]; [intros _ | lia].
    destruct (insert_or_ignore_cases db seed) as [[Hin ->] | [Hout ->]]; simpl.
    + exact Hin.
    + rewrite keys_app. apply in_or_app. right. now left.
  - auto.
  - auto.
  - intros p Hp. simpl in Hp. apply repeat_spec in Hp. now subst.
  - intros url [Hp | []]. simpl in Hp. apply repeat_spec in Hp. discriminate.
  - intros url. simpl. lia.
  - intros url [].
Qed.

Lemma count_ok_le_fetches (url : string) (tr : list Event) :
  count_occ string_dec (ok_fetches tr) url <= count_occ string_dec (fetches tr) url.
Proof.
  induction tr as [| e tr IH]; simpl; [lia |].
  destruct e as [u | u h | u x | l | u r]; simpl; try exact IH.
  - destruct (truthy h); simpl; destruct (string_dec u url); lia.
  - destruct (string_dec u url); lia.
Qed.

Lemma failed_event_counts (url : string) (tr : list Event) (e : Event) :
  In e tr ->
  e = Fetched url EmptyString \/ (exists x, e = FetchRaised url x) ->
  1 + count_occ string_dec (ok_fetches tr) url <= count_occ string_dec (fetches tr) url.
Proof.
  intros Hin He. induction tr as [| e' tr IH]; simpl; [contradiction |].
  destruct Hin as [-> | Hin].
  - pose proof (count_ok_le_fetches url tr).
    destruct He as [-> | [x ->]]; simpl;
      (destruct (string_dec url url) as [_ | Hne]; [lia | congruence]).
  - specialize (IH Hin).
    destruct e' as [u | u h | u x | l | u r]; simpl; try exact IH.
    + destruct (truthy h); simpl; destruct (string_dec u url); lia.
    + destruct (string_dec u url); lia.
Qed.

Lemma failed_fetch_counts (url : string) (tr : list Event) :
  fetch_failed url tr ->
  1 + count_occ string_dec (ok_fetches tr) url <= count_occ string_dec (fetches tr) url.
Proof.
  intros [Hin | [x Hin]]; eapply failed_event_counts; eauto.
Qed.

Section Runs.
Context `{Libraries}.

Lemma run_from_start_invariant (db : Table) (delay : Z) (use_selenium : bool) (seed : string)
    (threads : nat) (schedule : list (nat * Net)) :
  run_invariant (conn (crawler (start db delay use_selenium seed threads)))
                (run schedule (start db delay use_selenium seed threads)).
Proof. apply run_invariant_run. apply start_invariant. Qed.

(** Whatever is queued during a run has a row in the store. *)
Lemma queued_url_has_row (db : Table) (delay : Z) (use_selenium : bool) (seed : string)
    (threads : nat) (schedule : list (nat * Net)) (url : string) :
  let w := run schedule (start db delay use_selenium seed threads) in
  In url (items (queue (crawler w))) -> In url (keys (conn (crawler w))).
Proof.
  intros w Hin.
  apply (token_has_row _ _ (run_from_start_invariant db delay use_selenium seed threads schedule)).
  fold w. unfold tokens.
  apply (count_occ_In string_dec) in Hin. lia.
Qed.

(** Across all workers of a run, a URL is reported as newly inserted,
    and so pushed by [enqueue_new], at most once. *)
Lemma pushed_at_most_once (db : Table) (delay : Z) (use_selenium : bool) (seed : string)
    (threads : nat) (schedule : list (nat * Net)) (url : string) :
  count_occ string_dec
    (pushes (trace (run schedule (start db delay use_selenium seed threads)))) url <= 1.
Proof.
  apply (pushed_once _ _ (run_from_start_invariant db delay use_selenium seed threads schedule)).
Qed.

(** A URL whose fetch came back empty or raised is not visited, at any
    moment of the run. *)
Lemma failed_fetch_not_visited (db : Table) (delay : Z) (use_selenium : bool) (seed : string)
    (threads : nat) (schedule : list (nat * Net)) (url : string) :
  let w := run schedule (start db delay use_selenium seed threads) in
  fetch_failed url (trace w) ->
  is_visited (conn (crawler w)) url = false.
Proof.
  intros w Hfail.
  pose proof (run_from_start_invariant db delay use_selenium seed threads schedule) as Inv.
  fold w in Inv.
  destruct (is_visited (conn (crawler w)) url) eqn:Hv; [exfalso | reflexivity].
  pose proof (failed_fetch_counts url _ Hfail) as Hcount.
  assert (In url (fetches (trace w))) as Hfetched.
  { apply (count_occ_In string_dec). lia. }
  destruct (visited_cause _ _ Inv url Hv) as [Hdb | Hok].
  - rewrite (fetched_unvisited _ _ Inv url (or_intror Hfetched)) in Hdb. discriminate.
  - apply (count_occ_In string_dec) in Hok.
    pose proof (one_token _ _ Inv url) as Hone. unfold tokens in Hone. lia.
Qed.

End Runs.

(** C1. In every crawl run started from one seed, under any number of
    worker threads and any interleaving of their steps, no URL is passed
    to [fetch] twice. *)
Theorem no_duplicate_fetch `{Libraries} (db : Table) (delay : Z) (use_selenium : bool)
    (seed : string) (threads : nat) (schedule : list (nat * Net)) :
  NoDup (fetches (trace (run schedule (start db delay use_selenium seed threads)))).
Proof.
  apply (NoDup_count_occ string_dec). intros url.
  pose proof (one_token _ _
                (run_from_start_invariant db delay use_selenium seed threads schedule) url)
    as Hone.
  unfold tokens in Hone. lia.
Qed.

(** ** One worker, left alone *)

Lemma with_lock_id (self : DarknetCrawler) : with_lock self (lock self) = self.
Proof. now destruct self. Qed.

Lemma enqueue_link_with_lock (self : DarknetCrawler) (b : bool) (link : string) :
  enqueue_link (with_lock self b) link = with_lock (enqueue_link self link) b.
Proof.
  destruct (in_dec string_dec link (keys (conn self))) as [Hin | Hout].
  - rewrite !enqueue_link_present by assumption. reflexivity.
  - rewrite !enqueue_link_absent by assumption. reflexivity.
Qed.

Lemma enqueue_new_with_lock (links : list string) (self : DarknetCrawler) (b : bool) :
  enqueue_new (with_lock self b) links = with_lock (enqueue_new self links) b.
Proof.
  revert self. induction links as [| link links IH]; intros self; [reflexivity |].
  rewrite !enqueue_new_cons, enqueue_link_with_lock. apply IH.
Qed.

Lemma enqueue_events_with_lock (links : list string) (self : DarknetCrawler) (b : bool) :
  enqueue_events (with_lock self b) links = enqueue_events self links.
Proof.
  revert self. induction links as [| link links IH]; intros self; [reflexivity |].
  simpl. rewrite enqueue_link_with_lock, IH. reflexivity.
Qed.

Lemma lock_enqueue_new (links : list string) (self : DarknetCrawler) :
  lock (enqueue_new self links) = lock self.
Proof.
  revert self. induction links as [| link links IH]; intros self; [reflexivity |].
  rewrite enqueue_new_cons, IH. apply lock_enqueue_link.
Qed.

(** The queue after [enqueue_new] is the queue before it followed by the
    links it pushed. *)
Lemma items_enqueue_new (links : list string) (self : DarknetCrawler) :
  items (queue (enqueue_new self links)) =
  items (queue self) ++ pushes (enqueue_events self links).
Proof.
  revert self. induction links as [| link links IH]; intros self.
  - simpl. now rewrite app_nil_r.
  - rewrite enqueue_new_cons, IH. simpl. rewrite pushes_app.
    destruct (in_dec string_dec link (keys (conn self))) as [Hin | Hout].
    + rewrite (enqueue_link_present _ _ Hin), (insert_or_ignore_present _ _ Hin).
      reflexivity.
    + rewrite (enqueue_link_absent _ _ Hout), (insert_or_ignore_absent _ _ Hout).
      simpl. now rewrite <- app_assoc.
Qed.

(** [enqueue_new] pushes exactly the links without a row, each once. *)
Lemma pushes_enqueue_events (links : list string) (self : DarknetCrawler) :
  NoDup (pushes (enqueue_events self links)) /\
  forall l, In l (pushes (enqueue_events self links)) <->
            In l links /\ ~ In l (keys (conn self)).
Proof.
  revert self. induction links as [| link links IH]; intros self.
  - simpl. split; [constructor | tauto].
  - simpl. rewrite pushes_app.
    destruct (IH (enqueue_link self link)) as [Hnd Hiff].
    destruct (in_dec string_dec link (keys (conn self))) as [Hin | Hout].
    + rewrite (insert_or_ignore_present _ _ Hin). simpl.
      rewrite (enqueue_link_present _ _ Hin) in *.
      split; [exact Hnd |]. intros l. rewrite Hiff.
      split; [tauto |]. intros [[<- | Hl] Hn]; tauto.
    + rewrite (insert_or_ignore_absent _ _ Hout). simpl.
      rewrite (enqueue_link_absent _ _ Hout) in *. simpl in Hiff.
      split.
      * constructor; [| exact Hnd]. rewrite Hiff, keys_app.
        intros [_ Hn]. apply Hn. apply in_or_app. right. now left.
      * intros l. rewrite Hiff, keys_app. split.
        -- intros [<- | [Hl Hn]]; [tauto |]. split; [tauto |].
           intros Hk. apply Hn. apply in_or_app. now left.
        -- intros [[<- | Hl] Hn]; [tauto |].
           destruct (string_dec link l) as [-> | Hne]; [tauto |].
           right. split; [assumption |]. intros Hk.
           apply in_app_or in Hk. destruct Hk as [Hk | [Hk | []]]; tauto.
Qed.

(** After [enqueue_new] every link has a row. *)
Lemma enqueue_new_rows (links : list string) (self : DarknetCrawler) (l : string) :
  In l links -> In l (keys (conn (enqueue_new self links))).
Proof.
  revert self. induction links as [| link links IH]; intros self; [contradiction |].
  rewrite enqueue_new_cons. intros [<- | Hl]; [| now apply IH].
  apply (rows_kept _ _ (enqueue_new_preserves_frontier links _)).
  rewrite conn_enqueue_link.
  destruct (insert_or_ignore_cases (conn self) link) as [[Hin ->] | [Hout ->]]; simpl.
  - exact Hin.
  - rewrite keys_app. apply in_or_app. right. now left.
Qed.

Section Iteration.
Context `{Libraries}.
Variable net : Net.

Lemma iteration_S (fuel : nat) (self : DarknetCrawler) (p : pc) (events : list Event) :
  iteration (S fuel) net self p events =
  match thread_step net self p with
  | None => (self, p, events)
  | Some (self', Get, evs) => (self', Get, events ++ evs)
  | Some (self', p', evs) => iteration fuel net self' p' (events ++ evs)
  end.
Proof. reflexivity. Qed.

Lemma iteration_Dead (fuel : nat) (self : DarknetCrawler) (events : list Event) :
  iteration fuel net self Dead events = (self, Dead, events).
Proof. now destruct fuel. Qed.

Lemma iteration_Finally (fuel : nat) (self : DarknetCrawler) (url : string)
    (events : list Event) :
  iteration (S fuel) net self (Finally url) events = finish self url events.
Proof.
  unfold finish. rewrite iteration_S. cbn [thread_step].
  destruct (task_done (queue self)); [reflexivity |].
  apply iteration_Dead.
Qed.

Lemma iteration_EnqueueLoop (links : list string) (fuel : nat) (self : DarknetCrawler)
    (url : string) (events : list Event) :
  List.length links + 2 <= fuel ->
  iteration fuel net self (EnqueueLoop url links) events =
  finish (with_lock (enqueue_new self links) false) url
         (events ++ enqueue_events self links).
Proof.
  revert fuel self events. induction links as [| link links IH]; intros fuel self events Hfuel.
  - destruct fuel as [| [| fuel]]; simpl in Hfuel; try lia.
    rewrite iteration_S. cbn [thread_step]. rewrite iteration_Finally. simpl.
    now rewrite !app_nil_r.
  - destruct fuel as [| fuel]; simpl in Hfuel; [lia |].
    rewrite iteration_S. cbn [thread_step]. rewrite IH by lia.
    rewrite enqueue_new_cons. simpl. now rewrite <- app_assoc.
Qed.

(** From [Fetch] on a page with content whose links parse. *)
Lemma iteration_Fetch_content (fuel : nat) (self : DarknetCrawler) (url html : string)
    (links : set string) :
  lock self = false ->
  fetch self net url = Returned html ->
  truthy html = true ->
  parse_links html url = Returned links ->
  List.length (set_iter links) + 7 <= fuel ->
  iteration fuel net self (Fetch url) [] =
  finish (enqueue_new (mark_visited self url) (set_iter links)) url
    (Fetched url html :: enqueue_events (mark_visited self url) (set_iter links)).
Proof.
  intros Hlock Hfetch Hhtml Hparse Hfuel.
  destruct fuel as [| [| [| [| [| fuel]]]]]; try lia.
  rewrite iteration_S. cbn [thread_step]. rewrite Hfetch, Hhtml.
  rewrite iteration_S. cbn [thread_step]. rewrite Hparse.
  rewrite iteration_S. cbn [thread_step]. rewrite Hlock.
  rewrite iteration_S. cbn [thread_step].
  assert (with_lock (mark_visited (with_lock self true) url) false = mark_visited self url)
    as ->.
  { destruct self; simpl in *; subst; reflexivity. }
  rewrite iteration_S. cbn [thread_step mark_visited with_conn lock]. rewrite Hlock.
  rewrite iteration_EnqueueLoop by lia.
  rewrite enqueue_new_with_lock, enqueue_events_with_lock.
  replace (with_lock (with_lock _ true) false)
    with (enqueue_new (mark_visited self url) (set_iter links)).
  - reflexivity.
  - set (s := enqueue_new _ _).
    assert (lock s = false) as Hs.
    { unfold s. now rewrite lock_enqueue_new. }
    destruct s. simpl in *. now subst.
Qed.

(** From [Fetch] on a fetch without content. *)
Lemma iteration_Fetch_empty (fuel : nat) (self : DarknetCrawler) (url html : string) :
  fetch self net url = Returned html ->
  truthy html = false ->
  iteration (S (S fuel)) net self (Fetch url) [] = finish self url [Fetched url html].
Proof.
  intros Hfetch Hhtml. rewrite iteration_S. cbn [thread_step]. rewrite Hfetch, Hhtml.
  now rewrite iteration_Finally.
Qed.

(** From [Fetch] on a fetch that raises: the handler of the worker takes
    over. *)
Lemma iteration_Fetch_raises (fuel : nat) (self : DarknetCrawler) (url e : string) :
  fetch self net url = Raised e ->
  iteration (S (S fuel)) net self (Fetch url) [] = finish self url [FetchRaised url e].
Proof.
  intros Hfetch. rewrite iteration_S. cbn [thread_step]. rewrite Hfetch.
  now rewrite iteration_Finally.
Qed.

(** From [Fetch] on a page with content on which [parse_links] raises:
    the handler of the worker takes over, and store and queue stay as
    they are. *)
Lemma iteration_Fetch_parse_error (fuel : nat) (self : DarknetCrawler)
    (url html e : string) :
  fetch self net url = Returned html ->
  truthy html = true ->
  parse_links html url = Raised e ->
  iteration (S (S (S fuel))) net self (Fetch url) [] = finish self url [Fetched url html].
Proof.
  intros Hfetch Hhtml Hparse.
  rewrite iteration_S. cbn [thread_step]. rewrite Hfetch, Hhtml.
  rewrite iteration_S. cbn [thread_step]. rewrite Hparse.
  now rewrite iteration_Finally.
Qed.

(** From [Select] on a visited URL. *)
Lemma iteration_Select_visited (fuel : nat) (self : DarknetCrawler) (url : string) :
  is_visited (conn self) url = true ->
  iteration (S (S (S fuel))) net self (Select url) [] =
  match task_done (queue self) with
  | Returned q => finish (with_queue self q) url [TaskDone url false]
  | Raised _ => finish self url [TaskDone url true]
  end.
Proof.
  intros Hv. rewrite iteration_S. cbn [thread_step]. rewrite Hv.
  rewrite iteration_S. cbn [thread_step].
  destruct (task_done (queue self)); now rewrite iteration_Finally.
Qed.

End Iteration.

(** ** Races on the store *)

Lemma serve_cons (t : Table) (c : StoreCall) (calls : list StoreCall) :
  serve t (c :: calls) =
  (fst (serve (fst (store_call t c)) calls),
   snd (store_call t c) :: snd (serve (fst (store_call t c)) calls)).
Proof.
  simpl. destruct (store_call t c) as [t1 report]; simpl.
  now destruct (serve t1 calls).
Qed.

Lemma store_call_keeps_rows (t : Table) (c : StoreCall) (url : string) :
  In url (keys t) -> In url (keys (fst (store_call t c))).
Proof.
  intros Hin. destruct c as [u | u]; simpl.
  - pose proof (rows_kept _ _ (insert_preserves_frontier t u) url Hin) as Hk.
    now destruct (insert_or_ignore t u).
  - now rewrite keys_update_visited.
Qed.

Lemma winners_cons (url : string) (c : StoreCall) (calls : list StoreCall)
    (report : bool) (reports : list bool) :
  winners url (c :: calls) (report :: reports) =
  (if wins url c report then 1 else 0) + winners url calls reports.
Proof. unfold winners. simpl. now destruct (wins url c report). Qed.

Lemma winners_present (url : string) (calls : list StoreCall) (t : Table) :
  In url (keys t) -> winners url calls (snd (serve t calls)) = 0.
Proof.
  revert t. induction calls as [| c calls IH]; intros t Hin; [reflexivity |].
  rewrite serve_cons. cbn [snd]. rewrite winners_cons.
  rewrite (IH _ (store_call_keeps_rows t c url Hin)).
  destruct c as [u | u]; simpl; [| reflexivity].
  destruct (String.eqb u url) eqn:E; [| reflexivity].
  apply String.eqb_eq in E. subst u.
  now rewrite (insert_or_ignore_present _ _ Hin).
Qed.

Lemma winners_absent (url : string) (calls : list StoreCall) (t : Table) :
  ~ In url (keys t) -> In (InsertIfAbsent url) calls ->
  winners url calls (snd (serve t calls)) = 1.
Proof.
  revert t. induction calls as [| c calls IH]; intros t Hout Hin; [contradiction |].
  rewrite serve_cons. cbn [snd]. rewrite winners_cons.
  destruct c as [u | u].
  - destruct (string_dec u url) as [-> | Hne].
    + rewrite winners_present.
      * simpl. rewrite String.eqb_refl, (insert_or_ignore_absent _ _ Hout). reflexivity.
      * simpl. rewrite (insert_or_ignore_absent _ _ Hout). simpl.
        rewrite keys_app. apply in_or_app. right. now left.
    + destruct Hin as [Heq | Hin]; [congruence |].
      rewrite IH; [| | assumption].
      * simpl. now rewrite (proj2 (String.eqb_neq u url) Hne).
      * simpl. destruct (insert_or_ignore_cases t u) as [[_ E] | [_ E]];
          rewrite E; simpl; [assumption |].
        rewrite keys_app. intros Hk.
        apply in_app_or in Hk. destruct Hk as [Hk | [Hk | []]]; tauto.
  - destruct Hin as [Heq | Hin]; [discriminate |].
    rewrite IH; [reflexivity | | assumption].
    simpl. now rewrite keys_update_visited.
Qed.

(** C2. [INSERT OR IGNORE], as [enqueue_new] and [add_seed] issue it,
    reports a new insert exactly when the URL had no row; when it had
    one, the table, and so that row, stays as it was; among callers
    racing on a URL without a row, whatever other calls run between
    them, exactly one sees a new insert (none when the row existed); and
    across the workers of a run, under any interleaving, at most one
    round of [enqueue_new] sees a new insert of the URL. *)
Theorem insert_if_absent_first_write_wins (t : Table) (url : string) :
  ((snd (insert_or_ignore t url) >? 0)%Z = true <-> ~ In url (keys t)) /\
  (In url (keys t) ->
     fst (insert_or_ignore t url) = t /\
     forall self, conn self = t ->
       enqueue_new self [url] = self /\ conn (add_seed self url) = t) /\
  (~ In url (keys t) ->
     select_visited (fst (insert_or_ignore t url)) url = Some 0%Z /\
     forall self, conn self = t ->
       queue (enqueue_new self [url]) = put (queue self) url) /\
  (forall calls, In (InsertIfAbsent url) calls ->
     winners url calls (snd (serve t calls)) =
     if in_dec string_dec url (keys t) then 0 else 1) /\
  (forall (L : Libraries) delay use_selenium seed threads schedule,
     count_occ string_dec
       (pushes (trace (run schedule (start t delay use_selenium seed threads)))) url <= 1).
Proof.
  split; [| split; [| split; [| split]]].
  - split.
    + intros Hnew Hin. rewrite (insert_or_ignore_present _ _ Hin) in Hnew. discriminate.
    + intros Hout. now rewrite (insert_or_ignore_absent _ _ Hout).
  - intros Hin. split.
    + now rewrite (insert_or_ignore_present _ _ Hin).
    + intros self <-. split.
      * unfold enqueue_new; simpl. now apply enqueue_link_present.
      * unfold add_seed; simpl. now rewrite (insert_or_ignore_present _ _ Hin).
  - intros Hout. split.
    + rewrite (insert_or_ignore_absent _ _ Hout). simpl. rewrite select_visited_app.
      rewrite (proj2 (select_visited_None t url) Hout). simpl.
      now rewrite String.eqb_refl.
    + intros self <-. unfold enqueue_new; simpl.
      now rewrite (enqueue_link_absent _ _ Hout).
  - intros calls Hcall. destruct (in_dec string_dec url (keys t)) as [Hin | Hout].
    + now apply winners_present.
    + now apply winners_absent.
  - intros L delay use_selenium seed threads schedule. apply pushed_at_most_once.
Qed.

(** C4 as the code has it: [add_seed] pushes the seed whether or not the
    insert was new; the store gains the row only when it had none. *)
Theorem add_seed_always_pushes (self : DarknetCrawler) (url : string) :
  queue (add_seed self url) = put (queue self) url /\
  items (queue (add_seed self url)) = items (queue self) ++ [url] /\
  conn (add_seed self url) = fst (insert_or_ignore (conn self) url) /\
  In url (keys (conn (add_seed self url))) /\
  (In url (keys (conn self)) -> conn (add_seed self url) = conn self).
Proof.
  unfold add_seed; simpl. repeat split.
  - destruct (insert_or_ignore_cases (conn self) url) as [[Hin ->] | [Hout ->]]; simpl.
    + exact Hin.
    + rewrite keys_app. apply in_or_app. right. now left.
  - intros Hin. now rewrite (insert_or_ignore_present _ _ Hin).
Qed.

(** C8. Every operation on the frontier store ([add_seed], [enqueue_new],
    [mark_visited], every step of a worker and so every run of the worker
    loop) keeps the keys unique, keeps every row, and leaves a row's
    visited flag as it was or sets it; a set flag is never cleared. *)
Theorem frontier_invariant_preserved `{Libraries} :
  (forall self url, frontier_preserved (conn self) (conn (add_seed self url))) /\
  (forall self links, frontier_preserved (conn self) (conn (enqueue_new self links))) /\
  (forall self url, frontier_preserved (conn self) (conn (mark_visited self url))) /\
  (forall net self p self' p' events,
     thread_step net self p = Some (self', p', events) ->
     frontier_preserved (conn self) (conn self')) /\
  (forall schedule w,
     frontier_preserved (conn (crawler w)) (conn (crawler (run schedule w)))).
Proof.
  split; [| split; [| split; [| split]]].
  - intros self url. apply add_seed_preserves_frontier.
  - intros self links. apply enqueue_new_preserves_frontier.
  - intros self url. apply mark_visited_preserves_frontier.
  - intros net self p self' p' events. apply thread_step_preserves_frontier.
  - intros schedule w. apply run_preserves_frontier.
Qed.

(** ** What an iteration signals and fetches *)

Lemma task_done_calls_app (url : string) (tr tr' : list Event) :
  task_done_calls url (tr ++ tr') = task_done_calls url tr + task_done_calls url tr'.
Proof. unfold task_done_calls. now rewrite filter_app, length_app. Qed.

Lemma task_done_calls_enqueue_events (url : string) (links : list string)
    (self : DarknetCrawler) :
  task_done_calls url (enqueue_events self links) = 0.
Proof.
  revert self. induction links as [| link links IH]; intros self; [reflexivity |].
  simpl. rewrite task_done_calls_app, IH.
  now destruct (_ >? 0)%Z.
Qed.

Lemma finish_spec (self : DarknetCrawler) (url : string) (events : list Event) :
  exists final p raised,
    finish self url events = (final, p, events ++ [TaskDone url raised]) /\
    conn final = conn self /\ items (queue final) = items (queue self) /\
    (p = Get \/ p = Dead).
Proof.
  unfold finish. destruct (task_done (queue self)) as [q | e] eqn:Hq.
  - exists (with_queue self q), Get, false. repeat split; auto.
    simpl. now apply task_done_items.
  - exists self, Dead, true. repeat split; auto.
Qed.

Lemma task_done_calls_finish (self : DarknetCrawler) (url : string) (events : list Event) :
  task_done_calls url (snd (finish self url events)) = task_done_calls url events + 1.
Proof.
  destruct (finish_spec self url events) as (final & p & raised & -> & _).
  simpl. rewrite task_done_calls_app. unfold task_done_calls at 2. simpl.
  now rewrite String.eqb_refl.
Qed.

Section Claims.
Context `{Libraries}.

(** Events are only ever appended. *)
Lemma iteration_extends (fuel : nat) (net : Net) (self : DarknetCrawler) (p : pc)
    (events : list Event) :
  exists more, snd (iteration fuel net self p events) = events ++ more.
Proof.
  revert self p events. induction fuel as [| fuel IH]; intros self p events.
  - exists []. simpl. now rewrite app_nil_r.
  - rewrite iteration_S.
    destruct (thread_step net self p) as [[[self' p'] evs] |].
    + assert (exists more, snd (iteration fuel net self' p' (events ++ evs))
                           = events ++ more) as Hrec.
      { destruct (IH self' p' (events ++ evs)) as [more ->].
        exists (evs ++ more). now rewrite app_assoc. }
      destruct p'; try exact Hrec. exists evs. reflexivity.
    + exists []. simpl. now rewrite app_nil_r.
Qed.

(** On the skip path [task_done()] is called twice for the one item. *)
Lemma skip_path_signals_twice (net : Net) (self : DarknetCrawler) (url : string)
    (fuel : nat) :
  is_visited (conn self) url = true ->
  task_done_calls url (snd (iteration (S (S (S fuel))) net self (Select url) [])) = 2.
Proof.
  intros Hv. rewrite (iteration_Select_visited net fuel self url Hv).
  destruct (task_done (queue self)); rewrite task_done_calls_finish;
    unfold task_done_calls; simpl; now rewrite String.eqb_refl.
Qed.

(** On every other path it is called once. *)
Lemma other_paths_signal_once (net : Net) (self : DarknetCrawler) (url : string)
    (fuel : nat) :
  is_visited (conn self) url = false ->
  lock self = false ->
  (forall html links,
     fetch self net url = Returned html -> parse_links html url = Returned links ->
     List.length (set_iter links) + 8 <= fuel) ->
  4 <= fuel ->
  task_done_calls url (snd (iteration fuel net self (Select url) [])) = 1.
Proof.
  intros Hv Hlock Hlinks Hfuel.
  destruct fuel as [| fuel]; [lia |].
  rewrite iteration_S. cbn [thread_step]. rewrite Hv. cbn [app].
  destruct (fetch self net url) as [html | e] eqn:Hfetch.
  - destruct (truthy html) eqn:Hhtml.
    + destruct (parse_links html url) as [links | e] eqn:Hparse.
      * specialize (Hlinks html links eq_refl Hparse).
        rewrite (iteration_Fetch_content net fuel self url html links
                   Hlock Hfetch Hhtml Hparse) by lia.
        rewrite task_done_calls_finish.
        unfold task_done_calls at 1. cbn [filter].
        fold (task_done_calls url (enqueue_events (mark_visited self url) (set_iter links))).
        now rewrite task_done_calls_enqueue_events.
      * destruct fuel as [| [| [| fuel]]]; try lia.
        rewrite (iteration_Fetch_parse_error net fuel self url html e Hfetch Hhtml Hparse).
        rewrite task_done_calls_finish. reflexivity.
    + destruct fuel as [| [| fuel]]; try lia.
      rewrite (iteration_Fetch_empty net fuel self url html Hfetch Hhtml).
      rewrite task_done_calls_finish. reflexivity.
  - destruct fuel as [| [| fuel]]; try lia.
    rewrite (iteration_Fetch_raises net fuel self url e Hfetch).
    rewrite task_done_calls_finish. reflexivity.
Qed.

Lemma time_sleep_returns (secs : Z) :
  (0 <= secs <= 9223372036)%Z -> time_sleep secs = Returned tt.
Proof.
  intros [Hlo Hhi]. unfold time_sleep.
  replace (secs <? -9223372036)%Z with false by (symmetry; apply Z.ltb_ge; lia).
  replace (9223372036 <? secs)%Z with false by (symmetry; apply Z.ltb_ge; lia).
  replace (secs <? 0)%Z with false by (symmetry; apply Z.ltb_ge; lia).
  reflexivity.
Qed.

Lemma fetch_fails_request (self : DarknetCrawler) (net : Net) (url : string) :
  fetch_fails self net url -> exists e, request self net url = Raised e.
Proof.
  unfold fetch_fails, request. destruct (driver self).
  - intros [e ->]. now exists e.
  - intros [[e ->] | (resp & -> & Hlo & Hhi)]; [now exists e |].
    simpl. unfold raise_for_status.
    rewrite (proj2 (Z.leb_le _ _) Hlo), (proj2 (Z.ltb_lt _ _) Hhi).
    now exists "HTTPError".
Qed.

Lemma fetch_fails_empty (self : DarknetCrawler) (net : Net) (url : string) :
  (0 <= delay self <= 9223372036)%Z ->
  fetch_fails self net url -> fetch self net url = Returned EmptyString.
Proof.
  intros Hdelay Hfails. unfold fetch. rewrite (time_sleep_returns _ Hdelay).
  destruct (fetch_fails_request _ _ _ Hfails) as [e ->]. reflexivity.
Qed.

(** What [fetch] raises is what its sleep raised: no exception of the
    request leaves it. *)
Lemma fetch_raises_sleep (self : DarknetCrawler) (net : Net) (url e : string) :
  fetch self net url = Raised e -> time_sleep (delay self) = Raised e.
Proof.
  unfold fetch. destruct (time_sleep (delay self)) as [[] | e']; simpl.
  - destruct (request self net url); discriminate.
  - intros [= ->]. reflexivity.
Qed.

(** C6 as the code has it.  A request that fails (the call raises, or
    the status is 4xx or 5xx, which is what [raise_for_status] rejects)
    makes [fetch], once its sleep has returned, return the empty string;
    no exception of the request leaves [fetch].  After an empty fetch
    (and as well after a fetch that raised) the worker goes straight to
    [finally]: the store and the queue's items are as before, nothing is
    pushed; and at no moment of a run is a URL whose fetch came back
    empty or raised marked visited. *)
Theorem failed_fetch_leaves_url_unvisited :
  (forall self net url,
     (0 <= delay self <= 9223372036)%Z ->
     fetch_fails self net url -> fetch self net url = Returned EmptyString) /\
  (forall self net url e,
     fetch self net url = Raised e -> time_sleep (delay self) = Raised e) /\
  (forall self net url fuel,
     fetch self net url = Returned EmptyString ->
     exists final p raised,
       iteration (S (S fuel)) net self (Fetch url) [] =
         (final, p, [Fetched url EmptyString; TaskDone url raised]) /\
       conn final = conn self /\
       items (queue final) = items (queue self)) /\
  (forall self net url e fuel,
     fetch self net url = Raised e ->
     exists final p raised,
       iteration (S (S fuel)) net self (Fetch url) [] =
         (final, p, [FetchRaised url e; TaskDone url raised]) /\
       conn final = conn self /\
       items (queue final) = items (queue self)) /\
  (forall db delay use_selenium seed threads schedule url,
     let w := run schedule (start db delay use_selenium seed threads) in
     fetch_failed url (trace w) ->
     is_visited (conn (crawler w)) url = false).
Proof.
  split; [exact fetch_fails_empty |].
  split; [exact fetch_raises_sleep |].
  split; [| split].
  - intros self net url fuel Hempty.
    rewrite (iteration_Fetch_empty net fuel self url EmptyString Hempty eq_refl).
    destruct (finish_spec self url [Fetched url EmptyString])
      as (final & p & raised & Hfin & Hconn & Hitems & _).
    exists final, p, raised. auto.
  - intros self net url e fuel Hraised.
    rewrite (iteration_Fetch_raises net fuel self url e Hraised).
    destruct (finish_spec self url [FetchRaised url e])
      as (final & p & raised & Hfin & Hconn & Hitems & _).
    exists final, p, raised. auto.
  - intros db delay use_selenium seed threads schedule url.
    apply failed_fetch_not_visited.
Qed.

(** One round of the loop of [enqueue_new], in any state of the store:
    the link has a row afterwards, and it is pushed exactly when the
    insert was new. *)
Lemma enqueue_round (net : Net) (self : DarknetCrawler) (url link : string)
    (rest : list string) :
  thread_step net self (EnqueueLoop url (link :: rest)) =
    Some (enqueue_link self link, EnqueueLoop url rest,
          if in_dec string_dec link (keys (conn self)) then [] else [Pushed link]) /\
  In link (keys (conn (enqueue_link self link))) /\
  items (queue (enqueue_link self link)) =
    items (queue self) ++
    (if in_dec string_dec link (keys (conn self)) then [] else [link]).
Proof.
  cbn [thread_step].
  destruct (in_dec string_dec link (keys (conn self))) as [Hin | Hout].
  - rewrite (insert_or_ignore_present _ _ Hin), (enqueue_link_present _ _ Hin).
    rewrite app_nil_r. auto.
  - rewrite (insert_or_ignore_absent _ _ Hout), (enqueue_link_absent _ _ Hout).
    simpl. rewrite keys_app. repeat split. apply in_or_app. right. now left.
Qed.

(** C7 as the code has it.  When the fetch returns content and link
    extraction returns, the worker, left alone, marks the URL visited
    (its row, which a URL popped in a run always has), inserts every
    link, and pushes exactly the links that had no row before, each
    once; links with a row are not pushed.  Under any interleaving, each
    round of the loop of [enqueue_new] pushes its link exactly when the
    insert was new. *)
Theorem content_is_marked_and_new_links_pushed (net : Net) (self : DarknetCrawler)
    (url html : string) (links : set string) :
  lock self = false ->
  fetch self net url = Returned html ->
  truthy html = true ->
  parse_links html url = Returned links ->
  (exists final p events,
     iteration (List.length links + 7) net self (Fetch url) [] = (final, p, events) /\
     conn final = conn (enqueue_new (mark_visited self url) (set_iter links)) /\
     (In url (keys (conn self)) -> is_visited (conn final) url = true) /\
     (forall l, In l links -> In l (keys (conn final))) /\
     items (queue final) = items (queue self) ++ pushes events /\
     NoDup (pushes events) /\
     (forall l, In l (pushes events) <-> In l links /\ ~ In l (keys (conn self)))) /\
  (forall (other : DarknetCrawler) (link : string) (rest : list string),
     thread_step net other (EnqueueLoop url (link :: rest)) =
       Some (enqueue_link other link, EnqueueLoop url rest,
             if in_dec string_dec link (keys (conn other)) then [] else [Pushed link]) /\
     In link (keys (conn (enqueue_link other link))) /\
     items (queue (enqueue_link other link)) =
       items (queue other) ++
       (if in_dec string_dec link (keys (conn other)) then [] else [link])).
Proof.
  intros Hlock Hfetch Hhtml Hparse.
  split; [| intros other link rest; apply enqueue_round].
  pose proof (Permutation_length (set_iter_perm links)) as Hlen.
  rewrite (iteration_Fetch_content net _ self url html links Hlock Hfetch Hhtml Hparse)
    by lia.
  set (self1 := mark_visited self url).
  set (order := set_iter links).
  destruct (finish_spec (enqueue_new self1 order) url
              (Fetched url html :: enqueue_events self1 order))
    as (final & p & raised & Hfin & Hconn & Hitems & _).
  exists final, p,
    ((Fetched url html :: enqueue_events self1 order)
       ++ [TaskDone url raised]).
  assert (pushes ((Fetched url html :: enqueue_events self1 order)
                    ++ [TaskDone url raised]) = pushes (enqueue_events self1 order))
    as Hpushes.
  { rewrite pushes_app. simpl. now rewrite app_nil_r. }
  rewrite Hpushes.
  destruct (pushes_enqueue_events order self1) as [Hnd Hiff].
  split; [exact Hfin |]. split; [exact Hconn |].
  split.
  { intros Hrow. rewrite Hconn.
    apply (visited_kept _ _ (enqueue_new_preserves_frontier order self1)).
    unfold self1, is_visited; simpl. rewrite select_update_visited, String.eqb_refl.
    destruct (In_keys_select _ _ Hrow) as [v ->]. reflexivity. }
  split.
  { intros l Hl. rewrite Hconn. apply enqueue_new_rows.
    unfold order. apply (Permutation_in l (Permutation_sym (set_iter_perm links)) Hl). }
  split.
  { rewrite Hitems, items_enqueue_new. reflexivity. }
  split; [exact Hnd |].
  intros l. rewrite Hiff. unfold self1, order; simpl. rewrite keys_update_visited.
  split; intros [Hl Hn]; (split; [| exact Hn]).
  - apply (Permutation_in l (set_iter_perm links) Hl).
  - apply (Permutation_in l (Permutation_sym (set_iter_perm links)) Hl).
Qed.

(** C10. A popped URL without a row is treated as unvisited: the lookup
    returns no row, the test is false, nothing is raised, and the worker
    goes on to fetch it. *)
Theorem url_without_row_is_fetched (net : Net) (self : DarknetCrawler) (url : string) :
  select_visited (conn self) url = None ->
  is_visited (conn self) url = false /\
  thread_step net self (Select url) = Some (self, Fetch url, []) /\
  forall fuel,
    In (fetch_event self net url)
       (snd (iteration (S (S fuel)) net self (Select url) [])).
Proof.
  intros Hnone.
  assert (is_visited (conn self) url = false) as Hv.
  { unfold is_visited. now rewrite Hnone. }
  split; [exact Hv | split].
  - simpl. now rewrite Hv.
  - intros fuel. rewrite iteration_S. cbn [thread_step]. rewrite Hv. cbn [app].
    rewrite iteration_S. cbn [thread_step]. unfold fetch_event.
    destruct (fetch self net url) as [html | e].
    + destruct (truthy html); cbn iota beta; cbn [app].
      * destruct (iteration_extends fuel net self (Parse url html) [Fetched url html])
          as [more ->].
        now left.
      * destruct (iteration_extends fuel net self (Finally url) [Fetched url html])
          as [more ->].
        now left.
    + cbn iota beta; cbn [app].
      destruct (iteration_extends fuel net self (Finally url) [FetchRaised url e])
        as [more ->].
      now left.
Qed.

End Claims.

(** ** Link extraction *)

(** The host condition of line 109 is [x or not x]. *)
Lemma link_filter_scheme (parsed : ParseResult) :
  link_filter parsed = true <-> scheme parsed = "http" \/ scheme parsed = "https".
Proof.
  unfold link_filter. rewrite orb_negb_r, andb_true_r. simpl.
  rewrite orb_false_r, orb_true_iff, !String.eqb_eq. tauto.
Qed.

Lemma In_hrefs (soup : list Tag) (value : string) :
  In value (hrefs soup) <->
  exists a, In a (find_all_a_href soup) /\ get_attr (attrs a) "href" = Some value.
Proof.
  unfold hrefs. rewrite in_flat_map. split.
  - intros (a & Ha & Hv). exists a. split; [assumption |].
    destruct (get_attr (attrs a) "href"); [| contradiction].
    destruct Hv as [-> | []]. reflexivity.
  - intros (a & Ha & Hv). exists a. split; [assumption |]. rewrite Hv. now left.
Qed.

Lemma find_all_a_href_has_href (soup : list Tag) (a : Tag) :
  In a (find_all_a_href soup) -> exists value, get_attr (attrs a) "href" = Some value.
Proof.
  unfold find_all_a_href. rewrite filter_In. intros [_ Hf].
  apply andb_true_iff in Hf. destruct Hf as [_ Hf].
  destruct (get_attr (attrs a) "href") as [value |]; [now exists value | discriminate].
Qed.

Section Extraction.
Context `{Libraries}.
Variable base_url : string.

Lemma parse_links_loop_spec (anchors : list Tag) (links0 links : set string) :
  parse_links_loop base_url anchors links0 = Returned links ->
  (NoDup links0 -> NoDup links) /\
  forall l, In l links <-> In l links0 \/ accepted base_url anchors l.
Proof.
  revert links0. induction anchors as [| a anchors IH]; intros links0; simpl.
  - intros [= <-]. split; [auto |]. intros l. split; [auto |].
    intros [Hl | (a & v & p & [] & _)]. exact Hl.
  - destruct (get_attr (attrs a) "href") as [value |] eqn:Hattr; [| discriminate].
    destruct (urljoin base_url value) as [href | e] eqn:Hjoin; [| discriminate].
    simpl. destruct (urlparse href) as [parsed | e] eqn:Hparse; [| discriminate].
    simpl. destruct (link_filter parsed) eqn:Hfilter; intros Hloop;
      destruct (IH _ Hloop) as [Hnd Hiff]; split.
    + intros Hnd0. apply Hnd. now apply set_add_nodup.
    + intros l. rewrite Hiff, set_add_iff. split.
      * intros [[-> | Hl] | (a' & v & p & Ha & Hrest)].
        -- right. exists a, value, parsed. simpl. auto.
        -- now left.
        -- right. exists a', v, p. simpl. auto.
      * intros [Hl | (a' & v & p & [<- | Ha] & Hv & Hj & Hp & Hf)].
        -- auto.
        -- left. left. congruence.
        -- right. exists a', v, p. auto.
    + exact Hnd.
    + intros l. rewrite Hiff. split.
      * intros [Hl | (a' & v & p & Ha & Hrest)]; [now left |].
        right. exists a', v, p. simpl. auto.
      * intros [Hl | (a' & v & p & [<- | Ha] & Hv & Hj & Hp & Hf)].
        -- now left.
        -- exfalso. rewrite Hattr in Hv. injection Hv as <-.
           rewrite Hjoin in Hj. injection Hj as <-.
           rewrite Hparse in Hp. injection Hp as <-. congruence.
        -- right. exists a', v, p. auto.
Qed.

Lemma parse_links_loop_returns (anchors : list Tag) (links0 : set string) :
  (forall a, In a anchors ->
     exists value l parsed,
       get_attr (attrs a) "href" = Some value /\
       urljoin base_url value = Returned l /\ urlparse l = Returned parsed) ->
  exists links, parse_links_loop base_url anchors links0 = Returned links.
Proof.
  revert links0. induction anchors as [| a anchors IH]; intros links0 Hall; simpl.
  - now exists links0.
  - destruct (Hall a (or_introl eq_refl)) as (value & l & parsed & -> & -> & Hp).
    simpl. rewrite Hp. simpl.
    destruct (link_filter parsed); apply IH; intros a' Ha'; apply Hall; now right.
Qed.

Lemma parse_links_loop_resolves (anchors : list Tag) (links0 links : set string) :
  parse_links_loop base_url anchors links0 = Returned links ->
  forall a, In a anchors ->
    exists value l parsed,
      get_attr (attrs a) "href" = Some value /\
      urljoin base_url value = Returned l /\ urlparse l = Returned parsed.
Proof.
  revert links0. induction anchors as [| a anchors IH]; intros links0 Hloop b Hb;
    [contradiction |].
  simpl in Hloop.
  destruct (get_attr (attrs a) "href") as [value |] eqn:Hattr; [| discriminate].
  destruct (urljoin base_url value) as [l | e] eqn:Hjoin; [| discriminate].
  simpl in Hloop.
  destruct (urlparse l) as [parsed | e] eqn:Hparse; [| discriminate].
  simpl in Hloop.
  destruct Hb as [<- | Hb].
  - exists value, l, parsed. auto.
  - destruct (link_filter parsed); eapply IH; eauto.
Qed.

Lemma parse_links_soup (html : string) (links : set string) :
  parse_links html base_url = Returned links ->
  exists soup, BeautifulSoup html = Returned soup /\
               parse_links_loop base_url (find_all_a_href soup) (empty_set string)
               = Returned links.
Proof.
  unfold parse_links. destruct (BeautifulSoup html) as [soup | e]; [| discriminate].
  intros Hloop. now exists soup.
Qed.

Lemma parse_links_spec (html : string) (links : set string) :
  parse_links html base_url = Returned links ->
  exists soup,
    BeautifulSoup html = Returned soup /\
    NoDup links /\
    forall l, In l links <->
      exists value parsed,
        In value (hrefs soup) /\
        urljoin base_url value = Returned l /\
        urlparse l = Returned parsed /\
        (scheme parsed = "http" \/ scheme parsed = "https").
Proof.
  intros Hparse. destruct (parse_links_soup _ _ Hparse) as (soup & Hsoup & Hloop).
  exists soup. split; [exact Hsoup |].
  destruct (parse_links_loop_spec _ _ _ Hloop) as [Hnd Hiff].
  split; [apply Hnd; constructor |].
  intros l. rewrite Hiff. split.
  - intros [[] | (a & value & parsed & Ha & Hv & Hj & Hp & Hf)].
    exists value, parsed. rewrite In_hrefs. apply link_filter_scheme in Hf. eauto 6.
  - intros (value & parsed & Hin & Hj & Hp & Hs). right.
    apply In_hrefs in Hin. destruct Hin as (a & Ha & Hv).
    exists a, value, parsed. apply link_filter_scheme in Hs. auto.
Qed.

(** [parse_links] returns exactly when the parser accepts the page and
    every [href] resolves and parses. *)
Lemma parse_links_returns (html : string) :
  (exists links, parse_links html base_url = Returned links) <->
  exists soup,
    BeautifulSoup html = Returned soup /\
    forall value, In value (hrefs soup) ->
      exists l parsed, urljoin base_url value = Returned l /\ urlparse l = Returned parsed.
Proof.
  split.
  - intros [links Hparse]. destruct (parse_links_soup _ _ Hparse) as (soup & Hsoup & Hloop).
    exists soup. split; [exact Hsoup |]. intros value Hin.
    apply In_hrefs in Hin. destruct Hin as (a & Ha & Hv).
    destruct (parse_links_loop_resolves _ _ _ Hloop a Ha) as (v & l & parsed & Hv' & Hj & Hp).
    rewrite Hv in Hv'. injection Hv' as <-. now exists l, parsed.
  - intros (soup & Hsoup & Hall). unfold parse_links. rewrite Hsoup. simpl.
    apply parse_links_loop_returns.
    intros a Ha. destruct (find_all_a_href_has_href _ _ Ha) as [value Hv].
    destruct (Hall value) as (l & parsed & Hj & Hp).
    + apply In_hrefs. eauto.
    + exists value, l, parsed. auto.
Qed.

End Extraction.

(** C9 as the code has it.  The host condition is always true, so the
    host plays no part.  Whenever link extraction returns, it returns a
    set (no repetition) that holds exactly the resolved [href] values
    whose scheme is http or https; and it returns exactly when the parser
    accepts the content and every [href] resolves and parses. *)
Theorem parse_links_filters_by_scheme_only `{Libraries} (html base_url : string) :
  (forall parsed,
     (endswith (netloc parsed) ".onion" || negb (endswith (netloc parsed) ".onion")) = true /\
     (link_filter parsed = true <-> scheme parsed = "http" \/ scheme parsed = "https")) /\
  (forall links,
     parse_links html base_url = Returned links ->
     exists soup,
       BeautifulSoup html = Returned soup /\
       NoDup links /\
       forall l, In l links <->
         exists value parsed,
           In value (hrefs soup) /\
           urljoin base_url value = Returned l /\
           urlparse l = Returned parsed /\
           (scheme parsed = "http" \/ scheme parsed = "https")) /\
  ((exists links, parse_links html base_url = Returned links) <->
   exists soup,
     BeautifulSoup html = Returned soup /\
     forall value, In value (hrefs soup) ->
       exists l parsed, urljoin base_url value = Returned l /\ urlparse l = Returned parsed).
Proof.
  split; [| split].
  - intros parsed. split; [apply orb_negb_r | apply link_filter_scheme].
  - apply parse_links_spec.
  - apply parse_links_returns.
Qed.

(** ** Fragments under [urljoin] *)

Module CPythonFacts.
Import CPython.

Lemma split_scheme_hash (rest default : string) :
  split_scheme (String "#" rest) default = (default, String "#" rest).
Proof.
  unfold split_scheme. simpl. now destruct (cut ":" rest) as [[before after] |].
Qed.

(** A reference that is a fragment only parses to that fragment, under
    the default scheme. *)
Lemma urlparse_fragment_only (frag default : string) :
  remove_unsafe (strip default) = default ->
  urlparse (String "#" frag) default =
  Some (mkParseResult default EmptyString EmptyString EmptyString EmptyString
          (remove_unsafe frag)).
Proof.
  intros Hdefault. unfold urlparse, urlsplit.
  change (lstrip (String "#" frag)) with (String "#" frag).
  change (remove_unsafe (String "#" frag)) with (String "#" (remove_unsafe frag)).
  rewrite Hdefault, split_scheme_hash. simpl.
  now rewrite andb_false_r.
Qed.

Lemma uses_relative_cases (s : string) :
  mem s uses_relative = true ->
  remove_unsafe (strip s) = s /\ mem s uses_netloc = true.
Proof.
  unfold mem at 1, uses_relative. rewrite existsb_eqb_In. simpl.
  intros Hs.
  repeat (destruct Hs as [<- | Hs]; [split; reflexivity |]).
  contradiction.
Qed.

(** [urlunsplit] ends with the fragment it is given. *)
Lemma urlunparse_fragment (p : ParseResult) :
  truthy (fragment p) = true ->
  exists front, urlunparse p = (front ++ "#" ++ fragment p)%string.
Proof.
  intros Hfrag. unfold urlunparse, urlunsplit. rewrite Hfrag. eauto.
Qed.

Lemma urljoin_fragment_only (base frag : string) (b : ParseResult) :
  truthy base = true ->
  urlparse base EmptyString = Some b ->
  mem (scheme b) uses_relative = true ->
  urljoin base (String "#" frag) =
  Some (urlunparse (mkParseResult (scheme b) (netloc b) (path b) (params b) (query b)
                      (remove_unsafe frag))).
Proof.
  intros Hbase Hparse Hrel.
  destruct (uses_relative_cases _ Hrel) as [Hclean Hnet].
  unfold urljoin. rewrite Hbase, Hparse. cbn [negb truthy].
  rewrite (urlparse_fragment_only frag (scheme b) Hclean).
  cbn [scheme netloc path params query fragment truthy negb andb orb].
  rewrite String.eqb_refl, Hrel, Hnet. reflexivity.
Qed.

End CPythonFacts.

(** C5 as the code has it: the crawler normalises with [urljoin] alone
    and never touches the fragment.  Every extracted link is the value
    [urljoin] returned for some [href]; and [urljoin] of a fragment-only
    reference is the base with its fragment replaced by the new one
    (tab, CR and LF removed), which the result then ends with. *)
Theorem normalization_keeps_fragment :
  (forall (L : Libraries) html base_url links l,
     parse_links html base_url = Returned links -> In l links ->
     exists soup value,
       BeautifulSoup html = Returned soup /\ In value (hrefs soup) /\
       urljoin base_url value = Returned l) /\
  (forall base frag b,
     truthy base = true ->
     CPython.urlparse base EmptyString = Some b ->
     CPython.mem (scheme b) CPython.uses_relative = true ->
     let joined := CPython.urlunparse
                     (mkParseResult (scheme b) (netloc b) (path b) (params b) (query b)
                        (CPython.remove_unsafe frag)) in
     CPython.urljoin base (String "#" frag) = Some joined /\
     (truthy (CPython.remove_unsafe frag) = true ->
      exists front, joined = (front ++ "#" ++ CPython.remove_unsafe frag)%string)).
Proof.
  split.
  - intros L html base_url links l Hparse Hl.
    destruct (parse_links_spec base_url html links Hparse) as (soup & Hsoup & _ & Hiff).
    apply Hiff in Hl. destruct Hl as (value & parsed & Hin & Hj & _). eauto.
  - intros base frag b Hbase Hparse Hrel joined. split.
    + now apply CPythonFacts.urljoin_fragment_only.
    + intros Hfrag. unfold joined.
      now apply (CPythonFacts.urlunparse_fragment
                   (mkParseResult _ _ _ _ _ (CPython.remove_unsafe frag))).
Qed.

(** ** The examples of the specification, run on the model *)

Example normalize_absolute_path :
  CPython.urljoin "http://x.onion/c/d" "/a/b" = Some "http://x.onion/a/b".
Proof. reflexivity. Qed.

Example normalize_parent_segment :
  CPython.urljoin "http://x.onion/c/d/" "../e" = Some "http://x.onion/c/e".
Proof. reflexivity. Qed.

Example normalize_protocol_relative :
  CPython.urljoin "http://x.onion/c/d" "//other.onion/p" = Some "http://other.onion/p".
Proof. reflexivity. Qed.

Example normalize_unbalanced_bracket :
  CPython.urljoin "http://x.onion/" "http://[" = None.
Proof. reflexivity. Qed.

Example extract_two_links :
  @parse_links modelled_libraries
    "<a href='/p1'>one</a> <a href='http://other.onion/p2'>two</a>" "http://x.onion/"
  = Returned ["http://x.onion/p1"; "http://other.onion/p2"].
Proof. reflexivity. Qed.

(** Hosts outside [.onion] pass, other schemes do not, repeated links
    are kept once. *)
Example extract_ignores_host :
  @parse_links modelled_libraries
    "<a href='https://example.com/'>a</a><a href='mailto:me@x.onion'>b</a><a href='/p1'>c</a><a href='p1'>d</a>"
    "http://x.onion/"
  = Returned ["https://example.com/"; "http://x.onion/p1"].
Proof. reflexivity. Qed.

(** A fresh seed whose page has no links: nine steps of one worker
    process the one item, with one [task_done()], and the queue is drained. *)
Example drain_after_one_item :
  let seed := "http://x.onion/" in
  let net := serving "<p>nothing to follow</p>" in
  let w := @run modelled_libraries (repeat (0, net) 9) (start [] 5 false seed 1) in
  trace w = [Got seed; Fetched seed "<p>nothing to follow</p>"; TaskDone seed false] /\
  conn (crawler w) = [(seed, 1%Z)] /\
  drained (queue (crawler w)) = true /\
  workers w = [Get].
Proof. repeat split. Qed.

(** Two workers and two pages that link to each other.  Worker 1 pops
    the second page while worker 0 is still inside [enqueue_new], fetches
    it, and waits for the lock before [mark_visited]; each page is
    fetched once. *)
Example two_workers_two_pages :
  let seed := "http://x.onion/" in
  let net := serving "<a href='/'>home</a> <a href='/about'>about</a>" in
  let early := @run modelled_libraries
                 (repeat (0, net) 9 ++ repeat (1, net) 6) (start [] 5 false seed 2) in
  let w := @run modelled_libraries (repeat (0, net) 2 ++ repeat (1, net) 7) early in
  workers early = [EnqueueLoop seed [];
                   Mark "http://x.onion/about" [seed; "http://x.onion/about"]] /\
  lock (crawler early) = true /\
  fetches (trace w) = [seed; "http://x.onion/about"] /\
  pushes (trace w) = ["http://x.onion/about"] /\
  conn (crawler w) = [(seed, 1%Z); ("http://x.onion/about", 1%Z)] /\
  drained (queue (crawler w)) = true /\
  workers w = [Get; Get].
Proof. repeat split. Qed.

(** ** C3 on the skip path *)

(** C3. The worker is meant to signal completion once per popped item,
    but on the already-visited path it calls [task_done()] before
    [continue] and again in [finally].  Resuming with a seed that the
    store already holds as visited: the one popped item is signalled
    twice, the second call raises [ValueError] out of the loop, and the
    worker thread is gone. *)
Theorem visited_seed_is_signalled_twice :
  let seed := "http://x.onion/" in
  let w := @run modelled_libraries (repeat (0, offline) 4)
             (start [(seed, 1%Z)] 5 false seed 1) in
  trace w = [Got seed; TaskDone seed false; TaskDone seed true] /\
  task_done_calls seed (trace w) = 2 /\
  workers w = [Dead].
Proof. repeat split. Qed.

(** With a second item queued behind a visited one, the two calls use up
    both counts: [join()] would return while that item is still queued. *)
Example premature_drain :
  let a := "http://x.onion/a" in
  let b := "http://x.onion/b" in
  let self := add_seed (add_seed (init [(a, 1%Z)] 5 false) a) b in
  let w := @run modelled_libraries (repeat (0, offline) 4) (mkWorld self [Get] []) in
  task_done_calls a (trace w) = 2 /\
  items (queue (crawler w)) = [b] /\
  drained (queue (crawler w)) = true.
Proof. repeat split. Qed.

(** ** Counterexamples *)

(** Against C4: the seed has a row, the insert reports nothing new, and
    the seed is pushed all the same. *)
Lemma add_seed_pushes_known_seed :
  let seed := "http://x.onion/" in
  let self := init [(seed, 1%Z)] 5 false in
  snd (insert_or_ignore (conn self) seed) = 0%Z /\
  conn (add_seed self seed) = conn self /\
  items (queue (add_seed self seed)) = [seed].
Proof. repeat split. Qed.

(** Against C5: the fragment survives normalisation and extraction. *)
Lemma fragment_is_not_stripped :
  CPython.urljoin "http://x.onion/c/d" "#frag" = Some "http://x.onion/c/d#frag" /\
  @parse_links modelled_libraries
    "<a href='#frag'>here</a> <a href='http://other.onion/p2#sec'>there</a>"
    "http://x.onion/c/d"
  = Returned ["http://x.onion/c/d#frag"; "http://other.onion/p2#sec"] /\
  option_map fragment (CPython.urlparse "http://x.onion/c/d#frag" EmptyString)
  = Some "frag".
Proof. repeat split. Qed.

(** Against C6: an answer whose status is not 2xx, yet neither 4xx nor
    5xx, is no failure for [fetch].  [raise_for_status] lets status 300
    pass, [fetch] returns the body, and the worker marks the URL
    visited. *)
Lemma status_300_is_fetched_and_marked :
  let seed := "http://x.onion/" in
  let net := failing 300 in
  let w0 := start [] 5 false seed 1 in
  let w := @run modelled_libraries (repeat (0, net) 9) w0 in
  session_get net seed = Returned (mkResponse 300 "<h1>error</h1>") /\
  ~ (200 <= 300 < 300)%Z /\
  fetch (crawler w0) net seed = Returned "<h1>error</h1>" /\
  trace w = [Got seed; Fetched seed "<h1>error</h1>"; TaskDone seed false] /\
  is_visited (conn (crawler w)) seed = true.
Proof.
  intros seed net w0 w.
  split; [reflexivity |]. split; [lia |]. repeat split.
Qed.

(** Against C7: the fetch returns content, one [href] of the page makes
    [urljoin] raise, and the handler of the worker takes over: the URL
    is not marked visited and the link [/ok] of the same page is neither
    inserted nor pushed. *)
Lemma page_with_malformed_href_is_dropped :
  let seed := "http://x.onion/" in
  let html := "<a href='http://['>bad</a> <a href='/ok'>ok</a>" in
  let w0 := start [] 5 false seed 1 in
  let w := @run modelled_libraries (repeat (0, serving html) 5) w0 in
  fetch (crawler w0) (serving html) seed = Returned html /\
  truthy html = true /\
  trace w = [Got seed; Fetched seed html; TaskDone seed false] /\
  workers w = [Get] /\
  drained (queue (crawler w)) = true /\
  conn (crawler w) = [(seed, 0%Z)] /\
  is_visited (conn (crawler w)) seed = false /\
  pushes (trace w) = [].
Proof. repeat split. Qed.

(** Against C9: on a content string with one [href] that [urljoin]
    rejects, link extraction returns no set at all, although the page
    holds a link whose resolved scheme is http. *)
Lemma malformed_href_makes_extraction_raise :
  let html := "<a href='http://['>bad</a> <a href='/ok'>ok</a>" in
  let base_url := "http://x.onion/" in
  hrefs (Html.anchors html) = ["http://["; "/ok"] /\
  @urljoin modelled_libraries base_url "/ok" = Returned "http://x.onion/ok" /\
  option_map scheme (CPython.urlparse "http://x.onion/ok" EmptyString) = Some "http" /\
  @urljoin modelled_libraries base_url "http://[" = Raised "ValueError" /\
  @parse_links modelled_libraries html base_url = Raised "ValueError" /\
  ~ exists links, @parse_links modelled_libraries html base_url = Returned links.
Proof.
  intros html base_url. repeat split. intros [links Hlinks]. discriminate Hlinks.
Qed.

(** ** The theorems at concrete inputs *)

Lemma insert_if_absent_first_write_wins_witness :
  let t := [("http://x.onion/", 1%Z)] in
  let calls := [InsertIfAbsent "http://x.onion/a"; MarkVisited "http://x.onion/";
                InsertIfAbsent "http://x.onion/a"; InsertIfAbsent "http://x.onion/"] in
  In "http://x.onion/" (keys t) /\
  fst (insert_or_ignore t "http://x.onion/") = t /\
  snd (serve t calls) = [true; false; false; false] /\
  winners "http://x.onion/a" calls (snd (serve t calls)) = 1 /\
  winners "http://x.onion/" calls (snd (serve t calls)) = 0.
Proof.
  intros t calls.
  split; [simpl; auto |]. split; [| split; [reflexivity | split]].
  - apply (insert_if_absent_first_write_wins t "http://x.onion/"). simpl. auto.
  - destruct (insert_if_absent_first_write_wins t "http://x.onion/a")
      as (_ & _ & _ & Hrace & _).
    rewrite (Hrace calls); [reflexivity | simpl; auto].
  - destruct (insert_if_absent_first_write_wins t "http://x.onion/")
      as (_ & _ & _ & Hrace & _).
    rewrite (Hrace calls); [reflexivity | simpl; auto].
Defined.

Lemma add_seed_always_pushes_witness :
  let seed := "http://x.onion/" in
  let self := init [(seed, 1%Z)] 5 false in
  In seed (keys (conn self)) /\
  conn (add_seed self seed) = conn self /\
  items (queue (add_seed self seed)) = [seed].
Proof.
  intros seed self.
  destruct (add_seed_always_pushes self seed) as (_ & Hitems & _ & _ & Hconn).
  split; [simpl; auto |]. split; [apply Hconn; simpl; auto | exact Hitems].
Defined.

Lemma normalization_keeps_fragment_witness :
  let base := "http://x.onion/c/d?q=1#old" in
  let b := mkParseResult "http" "x.onion" "/c/d" EmptyString "q=1" "old" in
  CPython.urlparse base EmptyString = Some b /\
  CPython.urljoin base "#new" = Some "http://x.onion/c/d?q=1#new" /\
  exists soup value,
    @BeautifulSoup modelled_libraries "<a href='#new'>x</a>" = Returned soup /\
    In value (hrefs soup) /\
    @urljoin modelled_libraries base value = Returned "http://x.onion/c/d?q=1#new".
Proof.
  intros base b. destruct normalization_keeps_fragment as [Hlinks Hjoin].
  split; [reflexivity |]. split.
  - exact (proj1 (Hjoin base "new" b eq_refl eq_refl eq_refl)).
  - exact (Hlinks modelled_libraries "<a href='#new'>x</a>" base
             ["http://x.onion/c/d?q=1#new"] "http://x.onion/c/d?q=1#new"
             eq_refl (or_introl eq_refl)).
Defined.

Lemma failed_fetch_leaves_url_unvisited_witness :
  let seed := "http://x.onion/" in
  let self := init [] 5 false in
  let w := @run modelled_libraries (repeat (0, failing 404) 4) (start [] 5 false seed 1) in
  (0 <= delay self <= 9223372036)%Z /\
  fetch_fails self (failing 404) seed /\
  fetch self (failing 404) seed = Returned EmptyString /\
  fetch_failed seed (trace w) /\
  is_visited (conn (crawler w)) seed = false.
Proof.
  intros seed self w.
  destruct (@failed_fetch_leaves_url_unvisited modelled_libraries)
    as (Hfetch & _ & _ & _ & Hrun).
  assert (0 <= delay self <= 9223372036)%Z as Hdelay by (simpl; lia).
  assert (fetch_fails self (failing 404) seed) as Hfails.
  { right. exists (mkResponse 404 "<h1>error</h1>"). split; [reflexivity | simpl; lia]. }
  split; [exact Hdelay |].
  split; [exact Hfails |]. split; [exact (Hfetch _ _ _ Hdelay Hfails) |].
  assert (fetch_failed seed (trace w)) as Hin by (left; simpl; auto).
  split; [exact Hin |].
  exact (Hrun [] 5%Z false seed 1 (repeat (0, failing 404) 4) seed Hin).
Defined.

Lemma content_is_marked_and_new_links_pushed_witness :
  let seed := "http://x.onion/" in
  let html := "<a href='/'>home</a> <a href='/about'>about</a>" in
  let self := init [(seed, 0%Z)] 5 false in
  exists final p events,
    @iteration modelled_libraries 9 (serving html) self (Fetch seed) []
      = (final, p, events) /\
    is_visited (conn final) seed = true /\
    In "http://x.onion/about" (pushes events) /\
    ~ In seed (pushes events).
Proof.
  intros seed html self.
  destruct (@content_is_marked_and_new_links_pushed modelled_libraries
              (serving html) self seed html [seed; "http://x.onion/about"]
              eq_refl eq_refl eq_refl eq_refl)
    as [(final & p & events & Hrun & _ & Hvisited & _ & _ & _ & Hpushed) _].
  exists final, p, events. split; [exact Hrun |]. split; [| split].
  - apply Hvisited. simpl. auto.
  - apply Hpushed. split; [simpl; auto |].
    simpl. intros [Heq | []]. discriminate.
  - intros Hin. apply Hpushed in Hin. destruct Hin as [_ Hrow].
    apply Hrow. simpl. auto.
Defined.

Lemma frontier_invariant_preserved_witness :
  let seed := "http://x.onion/" in
  let net := serving "<a href='/'>home</a> <a href='/about'>about</a>" in
  let w0 := start [] 5 false seed 2 in
  let w := @run modelled_libraries (repeat (0, net) 9 ++ repeat (1, net) 6) w0 in
  NoDup (keys (conn (crawler w0))) /\
  NoDup (keys (conn (crawler w))) /\
  frontier_preserved (conn (crawler w0)) (conn (with_queue (crawler w0) (mkQueue [] 1%Z))).
Proof.
  intros seed net w0 w.
  destruct (@frontier_invariant_preserved modelled_libraries)
    as (_ & _ & _ & Hstep & Hrun).
  assert (NoDup (keys (conn (crawler w0)))) as Hnd.
  { simpl. constructor; [intros [] | constructor]. }
  split; [exact Hnd |]. split.
  - exact (keys_unique _ _ (Hrun (repeat (0, net) 9 ++ repeat (1, net) 6) w0) Hnd).
  - exact (Hstep net (crawler w0) Get _ (Select seed) [Got seed] eq_refl).
Defined.

Lemma parse_links_filters_by_scheme_only_witness :
  let html := "<a href='https://example.com/'>a</a><a href='mailto:me@x.onion'>b</a><a href='/p1'>c</a>" in
  let links := ["https://example.com/"; "http://x.onion/p1"] in
  @parse_links modelled_libraries html "http://x.onion/" = Returned links /\
  NoDup links /\
  ~ In "mailto:me@x.onion" links /\
  exists value parsed,
    In value (hrefs (Html.anchors html)) /\
    CPython.urljoin "http://x.onion/" value = Some "https://example.com/" /\
    CPython.urlparse "https://example.com/" EmptyString = Some parsed /\
    netloc parsed = "example.com".
Proof.
  intros html links.
  destruct (@parse_links_filters_by_scheme_only modelled_libraries html "http://x.onion/")
    as (_ & Hspec & _).
  destruct (Hspec links eq_refl) as (soup & Hsoup & Hnd & Hiff).
  split; [reflexivity |]. split; [exact Hnd |]. split.
  - simpl. intros [Heq | [Heq | []]]; discriminate.
  - exists "https://example.com/",
      (mkParseResult "https" "example.com" "/" EmptyString EmptyString EmptyString).
    split; [simpl; auto |]. repeat split.
Defined.

Lemma url_without_row_is_fetched_witness :
  let self := init [] 5 false in
  let url := "http://x.onion/new" in
  select_visited (conn self) url = None /\
  @thread_step modelled_libraries offline self (Select url) = Some (self, Fetch url, []) /\
  In (Fetched url EmptyString)
     (snd (@iteration modelled_libraries 2 offline self (Select url) [])).
Proof.
  intros self url.
  destruct (@url_without_row_is_fetched modelled_libraries offline self url eq_refl)
    as (_ & Hstep & Hfetch).
  split; [reflexivity |]. split; [exact Hstep | exact (Hfetch 0)].
Defined.

(* ================================================================== *)
(** * Part III: more of the crawler *)
(* ================================================================== *)

(** ** Steps as a relation, and induction over a run *)

Lemma total_set_nth (f : pc -> nat) (i : nat) (p p' : pc) (ws : list pc) :
  nth_error ws i = Some p ->
  total f (set_nth i p' ws) + f p = total f ws + f p'.
Proof.
  unfold total. revert i. induction ws as [| q ws IH]; intros [| i]; simpl; try discriminate.
  - intros [= ->]. lia.
  - intros Hnth. specialize (IH i Hnth). lia.
Qed.

Lemma total_positive (f : pc -> nat) (ws : list pc) :
  1 <= total f ws -> exists i p, nth_error ws i = Some p /\ 1 <= f p.
Proof.
  unfold total. induction ws as [| q ws IH]; simpl; [lia |].
  intros Hsum. destruct (f q) eqn:E.
  - destruct (IH Hsum) as (i & p & Hnth & Hp). now exists (S i), p.
  - exists 0, q. simpl. split; [reflexivity | lia].
Qed.

Lemma total_zero (f : pc -> nat) (ws : list pc) :
  total f ws = 0 <-> forall p, In p ws -> f p = 0.
Proof.
  unfold total. induction ws as [| q ws IH]; simpl.
  - split; [intros _ p [] | reflexivity].
  - split.
    + intros Hsum p [<- | Hp]; [lia |]. apply IH; [lia | assumption].
    + intros Hall. rewrite (Hall q (or_introl eq_refl)). apply IH. auto.
Qed.

Lemma In_set_nth_old {A : Type} (i : nat) (x y z : A) (l : list A) :
  nth_error l i = Some z -> In y l -> y = z \/ In y (set_nth i x l).
Proof.
  revert i. induction l as [| a l IH]; intros [| i]; simpl; try discriminate; try tauto.
  - intros [= ->] [<- | Hin]; auto.
  - intros Hnth [<- | Hin]; auto. destruct (IH i Hnth Hin); auto.
Qed.

Lemma In_set_nth_new {A : Type} (i : nat) (x z : A) (l : list A) :
  nth_error l i = Some z -> In x (set_nth i x l).
Proof.
  revert i. induction l as [| a l IH]; intros [| i]; simpl; try discriminate.
  - now left.
  - intros Hnth. right. now apply IH.
Qed.

Lemma gots_app (tr tr' : list Event) : gots (tr ++ tr') = gots tr ++ gots tr'.
Proof. apply flat_map_app. Qed.

Lemma get_items (q q' : Queue) (url : string) :
  get q = Some (url, q') ->
  items q = url :: items q' /\ unfinished_tasks q' = unfinished_tasks q.
Proof.
  unfold get. destruct (items q) as [| item rest]; [discriminate |].
  intros [= -> <-]. auto.
Qed.

Lemma task_done_unfinished (q q' : Queue) :
  task_done q = Returned q' ->
  (unfinished_tasks q' = unfinished_tasks q - 1)%Z /\ (1 <= unfinished_tasks q)%Z.
Proof.
  unfold task_done. destruct (_ <? 0)%Z eqn:E; [discriminate |].
  intros [= <-]. simpl. apply Z.ltb_ge in E. lia.
Qed.

Lemma task_done_raises (q : Queue) (e : string) :
  task_done q = Raised e -> (unfinished_tasks q <= 0)%Z.
Proof.
  unfold task_done. destruct (_ <? 0)%Z eqn:E; [| discriminate].
  intros _. apply Z.ltb_lt in E. lia.
Qed.

Section StepRelation.
Context `{Libraries}.

Lemma thread_step_rel (net : Net) (self self' : DarknetCrawler) (p p' : pc)
    (events : list Event) :
  thread_step net self p = Some (self', p', events) ->
  step_rel net self p self' p' events.
Proof.
  intros Hstep.
  destruct p as [| u | u | u | u h | u l | u l | u l | u [| link rest] | u |];
    simpl in Hstep.
  - destruct (get (queue self)) as [[url q] |] eqn:E; inversion Hstep; subst.
    now constructor.
  - destruct (is_visited (conn self) u) eqn:E; inversion Hstep; subst; now constructor.
  - destruct (task_done (queue self)) eqn:E; inversion Hstep; subst.
    + now constructor.
    + now apply step_skip_raises with (e := e).
  - destruct (fetch self net u) as [html | e] eqn:E.
    + destruct (truthy html) eqn:E'; inversion Hstep; subst; now constructor.
    + inversion Hstep; subst. now constructor.
  - destruct (parse_links h u) eqn:E; inversion Hstep; subst.
    + now constructor.
    + now apply step_parse_raises with (e := e).
  - destruct (lock self) eqn:E; inversion Hstep; subst. now constructor.
  - inversion Hstep; subst. constructor.
  - destruct (lock self) eqn:E; inversion Hstep; subst. now constructor.
  - inversion Hstep; subst. constructor.
  - destruct (in_dec string_dec link (keys (conn self))) as [Hin | Hout].
    + rewrite (enqueue_link_present _ _ Hin), (insert_or_ignore_present _ _ Hin) in Hstep.
      inversion Hstep; subst. now constructor.
    + rewrite (enqueue_link_absent _ _ Hout), (insert_or_ignore_absent _ _ Hout) in Hstep.
      inversion Hstep; subst. now constructor.
  - destruct (task_done (queue self)) eqn:E; inversion Hstep; subst.
    + now constructor.
    + now apply step_finally_raises with (e := e).
  - discriminate.
Qed.

(** What holds at the start and is kept by every step holds throughout
    every run. *)
Lemma run_induction (P : World -> Prop) (w0 : World) :
  P w0 ->
  (forall w i net p self' p' events,
     P w ->
     nth_error (workers w) i = Some p ->
     thread_step net (crawler w) p = Some (self', p', events) ->
     step_rel net (crawler w) p self' p' events ->
     P (mkWorld self' (set_nth i p' (workers w)) (trace w ++ events))) ->
  forall schedule, P (run schedule w0).
Proof.
  intros Hstart Hkeep schedule. revert w0 Hstart.
  induction schedule as [| [i net] schedule IH]; intros w0 Hstart; [exact Hstart |].
  simpl. apply IH. unfold sched_step.
  destruct (nth_error (workers w0) i) as [p |] eqn:Hnth; [| exact Hstart].
  destruct (thread_step net (crawler w0) p) as [[[self' p'] events] |] eqn:Hstep;
    [| exact Hstart].
  eapply Hkeep; eauto using thread_step_rel.
Qed.

(** ** The queue is first in, first out, and the store mirrors it *)

Lemma step_queue_and_keys (net : Net) (self self' : DarknetCrawler) (p p' : pc)
    (events : list Event) :
  step_rel net self p self' p' events ->
  gots events ++ items (queue self') = items (queue self) ++ pushes events /\
  keys (conn self') = keys (conn self) ++ pushes events.
Proof.
  intros Hstep. destruct Hstep; simpl;
    rewrite ?app_nil_r, ?keys_update_visited, ?keys_app;
    try (split; reflexivity).
  - apply get_items in H0. destruct H0 as [-> _]. auto.
  - rewrite (task_done_items _ _ H0). auto.
  - rewrite (task_done_items _ _ H0). auto.
Qed.

Lemma fifo_and_mirror (db : Table) (delay : Z) (use_selenium : bool) (seed : string) (threads : nat)
    (schedule : list (nat * Net)) :
  let w0 := start db delay use_selenium seed threads in
  let w := run schedule w0 in
  gots (trace w) ++ items (queue (crawler w)) = seed :: pushes (trace w) /\
  keys (conn (crawler w)) = keys (conn (crawler w0)) ++ pushes (trace w).
Proof.
  intros w0 w. unfold w.
  apply (run_induction
           (fun w => gots (trace w) ++ items (queue (crawler w)) = seed :: pushes (trace w) /\
                     keys (conn (crawler w)) = keys (conn (crawler w0)) ++ pushes (trace w))).
  - simpl. now rewrite app_nil_r.
  - intros w1 i net p self' p' events [Hq Hk] _ _ Hstep. simpl.
    destruct (step_queue_and_keys _ _ _ _ _ _ Hstep) as [Hq' Hk'].
    rewrite gots_app, pushes_app. split.
    + rewrite <- app_assoc, Hq', app_assoc, Hq. reflexivity.
    + rewrite Hk', Hk, app_assoc. reflexivity.
Qed.

End StepRelation.

(** X1. URLs leave the queue in the order in which they were found: at
    every moment of a run, the URLs popped so far followed by the URLs
    still queued are the seed followed by the links pushed so far. *)
Theorem queue_is_first_in_first_out `{Libraries} (db : Table) (delay : Z) (use_selenium : bool)
    (seed : string) (threads : nat) (schedule : list (nat * Net)) :
  let w := run schedule (start db delay use_selenium seed threads) in
  gots (trace w) ++ items (queue (crawler w)) = seed :: pushes (trace w).
Proof. apply fifo_and_mirror. Qed.

(** X2. The store gains a row exactly when a link is pushed: the keys of
    the table are, in order, the keys it had before the run, the seed if
    it was not among them, and the links pushed so far. *)
Theorem store_mirrors_pushes `{Libraries} (db : Table) (delay : Z) (use_selenium : bool)
    (seed : string) (threads : nat) (schedule : list (nat * Net)) :
  let w := run schedule (start db delay use_selenium seed threads) in
  keys (conn (crawler w)) =
  keys db ++ (if in_dec string_dec seed (keys db) then [] else [seed])
          ++ pushes (trace w).
Proof.
  intros w. unfold w.
  rewrite (proj2 (fifo_and_mirror db delay use_selenium seed threads schedule)).
  rewrite app_assoc. f_equal. simpl.
  destruct (in_dec string_dec seed (keys db)) as [Hin | Hout].
  - rewrite (insert_or_ignore_present _ _ Hin). simpl. now rewrite app_nil_r.
  - rewrite (insert_or_ignore_absent _ _ Hout). simpl. apply keys_app.
Qed.

(** ** The lock *)

Ltac step_cases Hstep :=
  destruct Hstep as
    [url q Hget | url Hv | url Hv | url q Hdone | url e Hdone
    | url html Hret Hhtml | url html Hret Hhtml | url e Hret
    | url html links Hparse | url html e Hparse | url links Hlock | url links
    | url links Hlock | url link rest Hin | url link rest Hout | url
    | url q Hdone | url e Hdone].

Lemma lock_counts_holders `{Libraries} (db : Table) (delay : Z) (use_selenium : bool)
    (seed : string) (threads : nat) (schedule : list (nat * Net)) :
  let w := run schedule (start db delay use_selenium seed threads) in
  total in_critical (workers w) = if lock (crawler w) then 1 else 0.
Proof.
  intros w. unfold w.
  apply (run_induction
           (fun w => total in_critical (workers w) = if lock (crawler w) then 1 else 0)).
  - simpl. apply total_zero. intros p Hp. apply repeat_spec in Hp. now subst.
  - intros w1 i net p self' p' events Hinv Hnth _ Hstep.
    pose proof (total_set_nth in_critical i p p' (workers w1) Hnth) as Hsum.
    cbn [workers crawler].
    step_cases Hstep; cbn [in_critical lock with_queue with_lock mark_visited with_conn] in *;
      try rewrite Hlock in Hinv;
      first [lia | destruct (lock (crawler w1)); lia].
Qed.

Lemma total_one (f : pc -> nat) (ws : list pc) (i : nat) (p : pc) :
  nth_error ws i = Some p -> f p <= total f ws.
Proof.
  unfold total. revert i. induction ws as [| a ws IH]; intros [| i]; simpl; try discriminate.
  - intros [= ->]. lia.
  - intros Hnth. specialize (IH i Hnth). lia.
Qed.

Lemma total_two (f : pc -> nat) (ws : list pc) (i j : nat) (p q : pc) :
  i <> j -> nth_error ws i = Some p -> nth_error ws j = Some q ->
  f p + f q <= total f ws.
Proof.
  revert i j. induction ws as [| a ws IH]; intros [| i] [| j] Hne Hi Hj;
    simpl in Hi, Hj; try discriminate; try congruence.
  - injection Hi as ->. pose proof (total_one f ws j q Hj). unfold total in *. simpl. lia.
  - injection Hj as ->. pose proof (total_one f ws i p Hi). unfold total in *. simpl. lia.
  - assert (i <> j) as Hne' by congruence.
    pose proof (IH i j Hne' Hi Hj). unfold total in *. simpl. lia.
Qed.

Lemma nth_error_set_nth_same {A : Type} (i : nat) (x y : A) (l : list A) :
  nth_error l i = Some y -> nth_error (set_nth i x l) i = Some x.
Proof.
  revert i. induction l as [| a l IH]; intros [| i]; simpl; try discriminate; auto.
Qed.

Lemma nth_error_set_nth_other {A : Type} (i j : nat) (x : A) (l : list A) :
  i <> j -> nth_error (set_nth j x l) i = nth_error l i.
Proof.
  revert i j. induction l as [| a l IH]; intros [| i] [| j] Hne; simpl; auto; congruence.
Qed.

Lemma run_app `{Libraries} (schedule more : list (nat * Net)) (w : World) :
  run (schedule ++ more) w = run more (run schedule w).
Proof. apply fold_left_app. Qed.

Section Lock.
Context `{Libraries}.

(** Inside a [with self.lock] block a worker waits for nothing: its next
    step releases the lock, or is one round of the loop and leaves one
    step fewer to go. *)
Lemma critical_step_moves (net : Net) (self : DarknetCrawler) (p : pc) :
  in_critical p = 1 ->
  exists self' p' events,
    thread_step net self p = Some (self', p', events) /\
    (lock self' = false \/
     lock self' = lock self /\ in_critical p' = 1 /\
     S (critical_steps p') = critical_steps p).
Proof.
  intros Hp.
  destruct p as [| u | u | u | u h | u l | u l | u l | u [| link rest] | u |];
    try discriminate; cbn [thread_step]; do 3 eexists; (split; [reflexivity |]).
  - now left.
  - now left.
  - right. rewrite lock_enqueue_link. auto.
Qed.

(** A worker outside these blocks does not touch a held lock. *)
Lemma outsider_keeps_lock (net : Net) (self self' : DarknetCrawler) (q q' : pc)
    (events : list Event) :
  lock self = true ->
  in_critical q = 0 ->
  thread_step net self q = Some (self', q', events) ->
  lock self' = true.
Proof.
  intros Hheld Hq Hstep. apply thread_step_rel in Hstep.
  step_cases Hstep; try discriminate; try exact Hheld; congruence.
Qed.

(** Once the holder of the lock has had as many turns as its block has
    steps left, the lock has been free, whatever the other workers and
    the network did in between. *)
Lemma holder_releases (db : Table) (delay : Z) (use_selenium : bool) (seed : string)
    (threads : nat) (more : list (nat * Net)) :
  forall (schedule : list (nat * Net)) (i : nat) (p : pc),
    let w := run schedule (start db delay use_selenium seed threads) in
    lock (crawler w) = true ->
    nth_error (workers w) i = Some p ->
    in_critical p = 1 ->
    critical_steps p <= turns_of i more ->
    exists before after,
      more = before ++ after /\ lock (crawler (run before w)) = false.
Proof.
  induction more as [| [j net] more IH]; intros schedule i p w Hheld Hnth Hp Hturns.
  - unfold turns_of in Hturns.
    destruct p; simpl in Hp, Hturns; try discriminate; lia.
  - set (w1 := sched_step w (j, net)).
    assert (w1 = run (schedule ++ [(j, net)]) (start db delay use_selenium seed threads))
      as Hw1 by (unfold w1, w; now rewrite run_app).
    unfold turns_of in Hturns. cbn [filter fst] in Hturns.
    destruct (Nat.eq_dec j i) as [-> | Hne].
    + rewrite Nat.eqb_refl in Hturns. cbn [List.length] in Hturns.
      destruct (critical_step_moves net (crawler w) p Hp)
        as (self' & p' & events & Hstep & Hcase).
      assert (w1 = mkWorld self' (set_nth i p' (workers w)) (trace w ++ events)) as Hw1'.
      { unfold w1, sched_step. now rewrite Hnth, Hstep. }
      destruct Hcase as [Hfree | (Hsame & Hp' & Hsteps)].
      * exists [(i, net)], more. split; [reflexivity |].
        cbn [run fold_left]. fold w1. now rewrite Hw1'.
      * destruct (IH (schedule ++ [(i, net)]) i p') as (before & after & -> & Hfree).
        -- rewrite <- Hw1, Hw1'. cbn [crawler]. congruence.
        -- rewrite <- Hw1, Hw1'. cbn [workers].
           now apply nth_error_set_nth_same with (y := p).
        -- exact Hp'.
        -- unfold turns_of. lia.
        -- exists ((i, net) :: before), after. split; [reflexivity |].
           cbn [run fold_left]. fold w1. rewrite Hw1. exact Hfree.
    + rewrite (proj2 (Nat.eqb_neq j i) Hne) in Hturns.
      assert (lock (crawler w1) = true /\ nth_error (workers w1) i = Some p) as [Hheld1 Hnth1].
      { unfold w1, sched_step.
        destruct (nth_error (workers w) j) as [q |] eqn:Hq; [| auto].
        destruct (thread_step net (crawler w) q) as [[[self' q'] events] |] eqn:Hstep;
          [| auto].
        cbn [crawler workers]. split.
        - apply (outsider_keeps_lock net (crawler w) self' q q' events Hheld); [| exact Hstep].
          pose proof (lock_counts_holders db delay use_selenium seed threads schedule)
            as Hcount.
          cbv zeta in Hcount. fold w in Hcount. rewrite Hheld in Hcount.
          assert (i <> j) as Hne' by congruence.
          pose proof (total_two in_critical (workers w) i j p q Hne' Hnth Hq).
          lia.
        - rewrite nth_error_set_nth_other by congruence. exact Hnth. }
      destruct (IH (schedule ++ [(j, net)]) i p) as (before & after & -> & Hfree).
      * now rewrite <- Hw1.
      * now rewrite <- Hw1.
      * exact Hp.
      * exact Hturns.
      * exists ((j, net) :: before), after. split; [reflexivity |].
        cbn [run fold_left]. fold w1. rewrite Hw1. exact Hfree.
Qed.

(** X3. [self.lock] is held exactly while one worker is inside a
    [with self.lock] block, of [mark_visited] or of [enqueue_new], and
    never by two: at every moment of a run the number of workers inside
    such a block is 1 if the lock is held and 0 if it is free.  The
    holder waits for nothing, it can take its next step whatever the
    network answers; and the lock does not stay held: once the holder
    has had as many turns as its block has steps left (one in
    [mark_visited], one per remaining link and one more in
    [enqueue_new]), the lock has been free, whatever the other workers
    did in between. *)
Theorem lock_is_held_by_one_worker_and_released (db : Table) (delay : Z)
    (use_selenium : bool) (seed : string) (threads : nat)
    (schedule : list (nat * Net)) :
  let w := run schedule (start db delay use_selenium seed threads) in
  total in_critical (workers w) = (if lock (crawler w) then 1 else 0) /\
  (lock (crawler w) = true ->
   exists i p,
     nth_error (workers w) i = Some p /\ in_critical p = 1 /\
     (forall net, thread_step net (crawler w) p <> None) /\
     (forall more, critical_steps p <= turns_of i more ->
        exists before after,
          more = before ++ after /\ lock (crawler (run before w)) = false)).
Proof.
  intros w.
  assert (total in_critical (workers w) = if lock (crawler w) then 1 else 0) as Hcount
    by apply lock_counts_holders.
  split; [exact Hcount |].
  intros Hheld. rewrite Hheld in Hcount.
  destruct (total_positive in_critical (workers w)) as (i & p & Hnth & Hp); [lia |].
  assert (in_critical p = 1) as Hp1.
  { destruct p; simpl in Hp |- *; try lia; reflexivity. }
  exists i, p. split; [exact Hnth |]. split; [exact Hp1 |]. split.
  - intros net. destruct (critical_step_moves net (crawler w) p Hp1)
      as (self' & p' & events & -> & _).
    discriminate.
  - intros more Hturns.
    exact (holder_releases db delay use_selenium seed threads more schedule i p
             Hheld Hnth Hp1 Hturns).
Qed.

End Lock.

(** ** A run from an unvisited seed *)

Lemma is_visited_insert (t : Table) (url u : string) :
  is_visited (fst (insert_or_ignore t url)) u = is_visited t u.
Proof.
  destruct (insert_or_ignore_cases t url) as [[_ ->] | [Hout ->]]; simpl; [reflexivity |].
  unfold is_visited. rewrite select_visited_app.
  destruct (select_visited t u) eqn:E; [reflexivity |]. simpl.
  now destruct (String.eqb url u).
Qed.

Lemma is_visited_append (t : Table) (link u : string) :
  ~ In link (keys t) -> is_visited (t ++ [(link, 0%Z)]) u = is_visited t u.
Proof.
  intros Hout. rewrite <- (is_visited_insert t link u).
  now rewrite (insert_or_ignore_absent _ _ Hout).
Qed.

Lemma is_visited_update_other (t : Table) (url u : string) :
  u <> url -> is_visited (update_visited t url) u = is_visited t u.
Proof.
  intros Hne. unfold is_visited. rewrite select_update_visited.
  now rewrite (proj2 (String.eqb_neq u url) Hne).
Qed.

Lemma is_visited_update_same (t : Table) (url : string) :
  In url (keys t) -> is_visited (update_visited t url) url = true.
Proof.
  intros Hin. unfold is_visited. rewrite select_update_visited, String.eqb_refl.
  destruct (In_keys_select _ _ Hin) as [v ->]. reflexivity.
Qed.

Lemma holds_le_held (url : string) (i : nat) (p : pc) (ws : list pc) :
  nth_error ws i = Some p -> holds url p <= held url ws.
Proof.
  intros Hnth. pose proof (held_set_nth url i p Get ws Hnth) as Hsum. simpl in Hsum. lia.
Qed.

Lemma busy_le_total (i : nat) (p : pc) (ws : list pc) :
  nth_error ws i = Some p -> busy p <= total busy ws.
Proof.
  intros Hnth. pose proof (total_set_nth busy i p Get ws Hnth) as Hsum.
  change (busy Get) with 0 in Hsum. lia.
Qed.

Lemma eqb_as_dec (a b : string) :
  (if String.eqb a b then 1 else 0) = (if string_dec a b then 1 else 0).
Proof.
  destruct (string_dec a b) as [-> | Hne].
  - now rewrite String.eqb_refl.
  - now rewrite (proj2 (String.eqb_neq a b) Hne).
Qed.

Lemma In_ok_fetches_fetches (url : string) (tr : list Event) :
  In url (ok_fetches tr) -> In url (fetches tr).
Proof.
  intros Hin. apply (count_occ_In string_dec) in Hin.
  apply (count_occ_In string_dec). pose proof (count_ok_le_fetches url tr). lia.
Qed.

Section Fresh.
Context `{Libraries}.
Variable db0 : Table.

(** In a fresh world the steps of the skip path and a raising
    [task_done()] do not occur. *)
Lemma fresh_step_kinds (w : World) (i : nat) (net : Net) (p p' : pc)
    (self' : DarknetCrawler) (events : list Event) :
  fresh w ->
  nth_error (workers w) i = Some p ->
  step_rel net (crawler w) p self' p' events ->
  (forall url, p <> Skip url) /\
  (forall url, p' <> Skip url) /\
  p' <> Dead /\
  (forall url, ~ In (TaskDone url true) events).
Proof.
  intros Hfresh Hnth Hstep.
  pose proof (nth_error_In _ _ Hnth) as Hp.
  destruct (nobody_skips _ Hfresh p Hp) as [_ Hskip].
  step_cases Hstep; try (exfalso; eapply Hskip; reflexivity).
  (* a visited URL under [Select] *)
  all: try solve
    [ exfalso; rewrite (queued_unvisited _ Hfresh url) in Hv;
      [ discriminate
      | pose proof (holds_le_held url i _ _ Hnth) as Hle; cbn [holds] in Hle;
        destruct (string_dec url url); [lia | congruence] ] ].
  (* [task_done()] raising in [finally] *)
  all: try solve
    [ exfalso; apply task_done_raises in Hdone;
      pose proof (accounting _ Hfresh) as Hacc;
      pose proof (busy_le_total i _ _ Hnth) as Hle; cbn [busy carried] in Hle; lia ].
  all: repeat split; try discriminate.
  all: try (intros u [Heq | []]; discriminate).
  all: intros u [].
Qed.

Lemma fresh_step (w : World) (i : nat) (net : Net) (p p' : pc)
    (self' : DarknetCrawler) (events : list Event) :
  run_invariant db0 w ->
  fresh w ->
  nth_error (workers w) i = Some p ->
  step_rel net (crawler w) p self' p' events ->
  fresh (mkWorld self' (set_nth i p' (workers w)) (trace w ++ events)).
Proof.
  intros Inv Hfresh Hnth Hstep.
  pose proof (nth_error_In _ _ Hnth) as Hp.
  destruct (fresh_step_kinds w i net p p' self' events Hfresh Hnth Hstep)
    as (Hp_skip & Hp'_skip & Hp'_dead & Hquiet).
  split; cbn [crawler workers trace].
  - (* queued_unvisited *)
    intros u Hq.
    pose proof (held_set_nth u i p p' (workers w) Hnth) as Hheld.
    pose proof (queued_unvisited _ Hfresh u) as Hold.
    step_cases Hstep; cbn [holds conn queue items with_queue with_lock mark_visited
                             with_conn] in *;
      try (apply Hold; lia).
    + apply get_items in Hget. destruct Hget as [Hitems _]. rewrite Hitems in Hold.
      simpl in Hold. apply Hold. destruct (string_dec url u); lia.
    + rewrite (task_done_items _ _ Hdone) in Hq. apply Hold. lia.
    + destruct (string_dec u url) as [-> | Hne].
      * exfalso.
        pose proof (marker_fetched _ _ Inv _ Hp) as Hok. simpl in Hok.
        apply In_ok_fetches_fetches in Hok. apply (count_occ_In string_dec) in Hok.
        pose proof (one_token _ _ Inv url) as Hone. unfold tokens in Hone. lia.
      * rewrite (is_visited_update_other _ _ _ Hne). apply Hold. lia.
    + rewrite (is_visited_append _ _ _ Hout).
      rewrite count_occ_put in Hq.
      destruct (string_dec link u) as [<- | Hne].
      * unfold is_visited. now rewrite (proj2 (select_visited_None _ _) Hout).
      * apply Hold. lia.
    + rewrite (task_done_items _ _ Hdone) in Hq. apply Hold. lia.
  - (* nobody_skips *)
    intros q Hq. destruct (nth_error_set_nth_In _ _ _ _ Hq) as [-> | Hold].
    + split; assumption.
    + exact (nobody_skips _ Hfresh q Hold).
  - (* accounting *)
    pose proof (total_set_nth busy i p p' (workers w) Hnth) as Hbusy.
    pose proof (accounting _ Hfresh) as Hacc.
    step_cases Hstep; cbn [busy carried queue items unfinished_tasks with_queue with_lock
                             mark_visited with_conn put] in *;
      try lia.
    + apply get_items in Hget. destruct Hget as [Hitems Hun]. rewrite Hitems in Hacc.
      simpl in Hacc. lia.
    + exfalso. eapply Hp_skip. reflexivity.
    + rewrite length_app. simpl. lia.
    + destruct (task_done_unfinished _ _ Hdone) as [Hun _].
      rewrite (task_done_items _ _ Hdone). lia.
    + exfalso. now apply Hp'_dead.
  - (* signalled *)
    intros u.
    pose proof (total_set_nth (carries u) i p p' (workers w) Hnth) as Hcar.
    pose proof (signalled _ Hfresh u) as Hold.
    rewrite task_done_calls_app, gots_app, count_occ_app.
    step_cases Hstep; cbn [carries carried] in *;
      unfold task_done_calls at 2; cbn [filter List.length gots flat_map app count_occ];
      try lia.
    + exfalso. eapply Hp_skip. reflexivity.
    + exfalso. eapply Hp_skip. reflexivity.
    + pose proof (eqb_as_dec url u) as Heq.
      destruct (String.eqb url u); simpl; destruct (string_dec url u); simpl in *; lia.
    + exfalso. now apply Hp'_dead.
  - (* never_raised *)
    intros u Hin. apply in_app_or in Hin. destruct Hin as [Hin | Hin].
    + exact (never_raised _ Hfresh u Hin).
    + exact (Hquiet u Hin).
Qed.

Lemma fresh_start (db : Table) (delay : Z) (use_selenium : bool) (seed : string) (threads : nat) :
  is_visited db seed = false ->
  fresh (start db delay use_selenium seed threads).
Proof.
  intros Hseed.
  assert (total busy (repeat Get threads) = 0) as Hbusy.
  { apply total_zero. intros p Hp. apply repeat_spec in Hp. now subst. }
  split; simpl.
  - intros u. rewrite held_repeat_Get.
    destruct (string_dec seed u) as [<- | Hne]; [intros _ | lia].
    now rewrite is_visited_insert.
  - intros p Hp. apply repeat_spec in Hp. subst. split; discriminate.
  - rewrite Hbusy. reflexivity.
  - intros u.
    assert (total (carries u) (repeat Get threads) = 0) as ->; [| reflexivity].
    apply total_zero. intros p Hp. apply repeat_spec in Hp. now subst.
  - intros u [].
Qed.

End Fresh.

Lemma fresh_run `{Libraries} (db : Table) (delay : Z) (use_selenium : bool) (seed : string)
    (threads : nat) (schedule : list (nat * Net)) :
  is_visited db seed = false ->
  fresh (run schedule (start db delay use_selenium seed threads)).
Proof.
  intros Hseed.
  set (w0 := start db delay use_selenium seed threads).
  apply (run_induction (fun w => run_invariant (conn (crawler w0)) w /\ fresh w)).
  - split; [apply start_invariant | now apply fresh_start].
  - intros w i net p self' p' events [Inv Hfresh] Hnth Hthread Hstep. split.
    + eapply thread_step_invariant; eassumption.
    + eapply fresh_step; eassumption.
Qed.

(** X4. In a run whose seed was not yet visited, the already-visited
    path is never taken: no worker skips an item, no [task_done()]
    raises, no worker thread dies, and every [get()] is answered by
    exactly one [task_done()]: at every moment, the calls made for a URL
    plus the workers still working on it equal the times it was popped. *)
Theorem unvisited_seed_run_signals_once `{Libraries} (db : Table) (delay : Z) (use_selenium : bool)
    (seed : string) (threads : nat) (schedule : list (nat * Net)) :
  is_visited db seed = false ->
  let w := run schedule (start db delay use_selenium seed threads) in
  (forall p, In p (workers w) -> p <> Dead /\ forall url, p <> Skip url) /\
  (forall url, ~ In (TaskDone url true) (trace w)) /\
  (forall url,
     task_done_calls url (trace w) + total (carries url) (workers w) =
     count_occ string_dec (gots (trace w)) url).
Proof.
  intros Hseed w.
  pose proof (fresh_run db delay use_selenium seed threads schedule Hseed) as Hfresh.
  split; [exact (nobody_skips _ Hfresh) |].
  split; [exact (never_raised _ Hfresh) | exact (signalled _ Hfresh)].
Qed.

(** X5. In a run whose seed was not yet visited, [unfinished_tasks]
    counts the items queued and the items in work, so [queue.join()]
    can return exactly when the queue is empty and every worker is back
    at [get()]. *)
Theorem join_returns_exactly_when_idle `{Libraries} (db : Table) (delay : Z) (use_selenium : bool)
    (seed : string) (threads : nat) (schedule : list (nat * Net)) :
  is_visited db seed = false ->
  let w := run schedule (start db delay use_selenium seed threads) in
  unfinished_tasks (queue (crawler w)) =
    Z.of_nat (List.length (items (queue (crawler w))) + total busy (workers w)) /\
  (drained (queue (crawler w)) = true <->
   items (queue (crawler w)) = [] /\ forall p, In p (workers w) -> p = Get).
Proof.
  intros Hseed w.
  pose proof (fresh_run db delay use_selenium seed threads schedule Hseed) as Hfresh.
  fold w in Hfresh. pose proof (accounting _ Hfresh) as Hacc.
  split; [exact Hacc |].
  unfold drained. rewrite Z.eqb_eq, Hacc. split.
  - intros Hzero.
    assert (List.length (items (queue (crawler w))) = 0 /\ total busy (workers w) = 0)
      as [Hlen Hbusy] by lia.
    split; [now apply length_zero_iff_nil |].
    intros p Hp. pose proof (proj1 (total_zero busy (workers w)) Hbusy p Hp) as Hidle.
    destruct (nobody_skips _ Hfresh p Hp) as [Hdead _].
    destruct p; try discriminate; [reflexivity | congruence].
  - intros [-> Hidle].
    assert (total busy (workers w) = 0) as ->; [| reflexivity].
    apply total_zero. intros p Hp. now rewrite (Hidle p Hp).
Qed.

(** ** Where fetched URLs and pushed links come from *)

Lemma same_fetch (url h h' : string) (tr : list Event) :
  count_occ string_dec (fetches tr) url <= 1 ->
  In (Fetched url h) tr -> In (Fetched url h') tr -> h = h'.
Proof.
  assert (forall tr0 g, In (Fetched url g) tr0 ->
                        1 <= count_occ string_dec (fetches tr0) url) as Hcount.
  { intros tr0 g Hin. apply (count_occ_In string_dec).
    unfold fetches. apply in_flat_map. exists (Fetched url g). simpl. auto. }
  induction tr as [| e tr IH]; [contradiction |].
  intros Hone [-> | Hin] [Heq | Hin'].
  - congruence.
  - simpl in Hone. destruct (string_dec url url); [| congruence].
    pose proof (Hcount tr h' Hin'). lia.
  - subst e. simpl in Hone. destruct (string_dec url url); [| congruence].
    pose proof (Hcount tr h Hin). lia.
  - apply IH; try assumption.
    destruct e as [u | u g | u x | l | u r]; simpl in Hone; try exact Hone;
      destruct (string_dec u url); lia.
Qed.

Section Provenance.
Context `{Libraries}.

Lemma provenance_grows (tr events : list Event) (p : pc) :
  provenance tr p -> provenance (tr ++ events) p.
Proof.
  destruct p as [| u | u | u | u h | u l | u l | u l | u rest | u |]; simpl; auto.
  - intros [Hin Ht]. split; [apply in_or_app; now left | exact Ht].
  - intros (h & Hin & Hrest). exists h. split; [apply in_or_app; now left | exact Hrest].
  - intros (h & Hin & Hrest). exists h. split; [apply in_or_app; now left | exact Hrest].
  - intros (h & Hin & Hrest). exists h. split; [apply in_or_app; now left | exact Hrest].
  - intros (h & ls & Hin & Hrest). exists h, ls.
    split; [apply in_or_app; now left | exact Hrest].
Qed.

Lemma extracted_grows (tr events : list Event) (link : string) :
  extracted tr link -> extracted (tr ++ events) link.
Proof.
  intros (u & h & l & Hin & Hrest). exists u, h, l.
  split; [apply in_or_app; now left | exact Hrest].
Qed.

Lemma processed_grows (tr events : list Event) (url : string) :
  processed tr url -> processed (tr ++ events) url.
Proof.
  intros (h & l & Hin & Hrest). exists h, l.
  split; [apply in_or_app; now left | exact Hrest].
Qed.

Lemma origins_step (w : World) (i : nat) (net : Net) (p p' : pc)
    (self' : DarknetCrawler) (events : list Event) :
  origins w ->
  nth_error (workers w) i = Some p ->
  step_rel net (crawler w) p self' p' events ->
  origins (mkWorld self' (set_nth i p' (workers w)) (trace w ++ events)).
Proof.
  intros (Hprov & Hpush & Hheld & Hfetch) Hnth Hstep.
  pose proof (nth_error_In _ _ Hnth) as Hp.
  pose proof (Hprov p Hp) as Hmine.
  unfold origins; cbn [workers trace].
  split; [| split; [| split]].
  - intros q Hq. destruct (nth_error_set_nth_In _ _ _ _ Hq) as [-> | Hold];
      [| apply provenance_grows; auto].
    step_cases Hstep; simpl in *; auto.
    + split; [apply in_or_app; right; now left | exact Hhtml].
    + destruct Hmine as [Hin Ht]. exists html. rewrite app_nil_r. auto.
    + rewrite app_nil_r. exact Hmine.
    + rewrite app_nil_r. exact Hmine.
    + destruct Hmine as (h & Hin & Ht & Hparse). exists h, links.
      rewrite app_nil_r. repeat split; auto.
      intros l Hl. exact (Permutation_in l (set_iter_perm links) Hl).
    + destruct Hmine as (h & l & Hin' & Ht & Hparse & Hincl). exists h, l.
      rewrite app_nil_r. repeat split; auto.
      intros x Hx. apply Hincl. now right.
    + destruct Hmine as (h & l & Hin' & Ht & Hparse & Hincl). exists h, l.
      repeat split; auto; [apply in_or_app; now left |].
      intros x Hx. apply Hincl. now right.
  - intros link0 Hmem. rewrite pushes_app in Hmem. apply in_app_or in Hmem.
    destruct Hmem as [Hmem | Hmem]; [apply extracted_grows; auto |].
    step_cases Hstep; simpl in Hmem; try contradiction.
    destruct Hmem as [<- | []]. apply extracted_grows.
    destruct Hmine as (h & l & Hin' & _ & Hparse & Hincl).
    exists url, h, l. repeat split; auto. apply Hincl. now left.
  - intros q u Hq Hu. rewrite gots_app. apply in_or_app.
    destruct (nth_error_set_nth_In _ _ _ _ Hq) as [-> | Hold]; [| left; eauto].
    step_cases Hstep; simpl in Hu; try discriminate.
    + right. simpl. destruct (string_dec url u); [now left | discriminate].
    + left. apply (Hheld (Select url) u Hp). exact Hu.
    + left. apply (Hheld (Select url) u Hp). exact Hu.
  - intros u Hmem. rewrite gots_app. apply in_or_app. left.
    rewrite fetches_app in Hmem. apply in_app_or in Hmem.
    destruct Hmem as [Hmem | Hmem]; [auto |].
    step_cases Hstep; simpl in Hmem; try contradiction;
      destruct Hmem as [<- | []]; apply (Hheld (Fetch url) url Hp); simpl;
      destruct (string_dec url url); congruence.
Qed.

Lemma origins_run (db : Table) (delay : Z) (use_selenium : bool) (seed : string) (threads : nat)
    (schedule : list (nat * Net)) :
  origins (run schedule (start db delay use_selenium seed threads)).
Proof.
  apply (run_induction origins).
  - unfold origins; simpl. repeat split; try contradiction.
    + intros p Hp. apply repeat_spec in Hp. now subst.
    + intros p u Hp. apply repeat_spec in Hp. subst. discriminate.
  - intros w i net p self' p' events Ho Hnth _ Hstep. eapply origins_step; eassumption.
Qed.

End Provenance.

(** X6. The crawler fetches nothing but the seed and links it found:
    every link pushed was extracted by [parse_links] from a page fetched
    earlier in the run, and every URL passed to [fetch] is the seed or
    such a link. *)
Theorem fetched_urls_come_from_fetched_pages `{Libraries} (db : Table)
    (delay : Z) (use_selenium : bool) (seed : string) (threads : nat)
    (schedule : list (nat * Net)) :
  let w := run schedule (start db delay use_selenium seed threads) in
  (forall link, In link (pushes (trace w)) -> extracted (trace w) link) /\
  (forall url, In url (fetches (trace w)) -> url = seed \/ extracted (trace w) url).
Proof.
  intros w.
  destruct (origins_run db delay use_selenium seed threads schedule)
    as (_ & Hpush & _ & Hfetch).
  fold w in Hpush, Hfetch. split; [exact Hpush |].
  intros url Hin. apply Hfetch in Hin.
  assert (In url (seed :: pushes (trace w))) as [Hseed | Hpushed]; auto.
  unfold w.
  rewrite <- (proj1 (fifo_and_mirror db delay use_selenium seed threads schedule)).
  apply in_or_app. now left.
Qed.

(** ** Visited means processed *)

Section Visited.
Context `{Libraries}.
Variable db0 : Table.

Lemma In_Fetched_fetches (url html : string) (tr : list Event) :
  In (Fetched url html) tr -> In url (fetches tr).
Proof.
  intros Hmem. unfold fetches. apply in_flat_map. exists (Fetched url html).
  simpl. auto.
Qed.

Lemma visited_as_processed_step (w : World) (i : nat) (net : Net) (p p' : pc)
    (self' : DarknetCrawler) (events : list Event) :
  run_invariant db0 w ->
  origins w ->
  visited_as_processed db0 w ->
  nth_error (workers w) i = Some p ->
  step_rel net (crawler w) p self' p' events ->
  visited_as_processed db0 (mkWorld self' (set_nth i p' (workers w)) (trace w ++ events)).
Proof.
  intros Inv (Hprov & _) [Hsound Hcomplete] Hnth Hstep.
  pose proof (nth_error_In _ _ Hnth) as Hp.
  pose proof (Hprov p Hp) as Hmine.
  assert (forall u, In u (fetches (trace w)) -> In u (keys (conn (crawler w)))) as Hrow.
  { intros u Hu. apply (token_has_row _ _ Inv). unfold tokens.
    apply (count_occ_In string_dec) in Hu. lia. }
  unfold visited_as_processed; cbn [crawler workers trace]. split.
  - (* visited only if processed *)
    intros u Hu.
    assert (is_visited (conn (crawler w)) u = true \/ processed (trace w) u)
      as [Hold | Hnew].
    { step_cases Hstep; cbn [conn with_queue with_lock mark_visited with_conn] in Hu; auto.
      - destruct (is_visited_after_update _ _ _ Hu) as [-> | Hold]; auto.
        right. destruct Hmine as (h & Hmem & Ht & Hparse). now exists h, links.
      - rewrite (is_visited_append _ _ _ Hout) in Hu. auto. }
    + destruct (Hsound u Hold) as [Hdb | Hproc]; auto.
      right. now apply processed_grows.
    + right. now apply processed_grows.
  - (* processed, so visited or about to be *)
    intros u (h & l & Hmem & Ht & Hl).
    assert (In p' (set_nth i p' (workers w))) as Hp' by (eapply In_set_nth_new; eassumption).
    apply in_app_or in Hmem. destruct Hmem as [Hmem | Hmem].
    + (* the page was fetched before this step *)
      assert (processed (trace w) u) as Hproc by (now exists h, l).
      destruct (Hcomplete u Hproc) as [Hseen | (o & Ho & Hmark)].
      * left.
        step_cases Hstep; cbn [conn with_queue with_lock mark_visited with_conn]; auto.
        -- destruct (string_dec u url) as [-> | Hne].
           ++ apply is_visited_update_same. apply Hrow.
              now apply (In_Fetched_fetches url h).
           ++ rewrite (is_visited_update_other _ _ _ Hne). exact Hseen.
        -- rewrite (is_visited_append _ _ _ Hout). exact Hseen.
      * destruct (In_set_nth_old i p' o p (workers w) Hnth Ho) as [-> | Hstays];
          [| right; eauto].
        step_cases Hstep; simpl in Hmark; try contradiction; subst.
        -- right. eexists. split; [exact Hp' | reflexivity].
        -- exfalso. destruct Hmine as [Hmine _].
           pose proof (one_token _ _ Inv u) as Hone. unfold tokens in Hone.
           assert (h = html) as -> by (eapply same_fetch; [| eassumption | eassumption]; lia).
           congruence.
        -- right. eexists. split; [exact Hp' | reflexivity].
        -- left. cbn [conn with_lock mark_visited with_conn].
           apply is_visited_update_same.
           apply Hrow. now apply (In_Fetched_fetches u h).
    + (* the page is fetched by this step *)
      step_cases Hstep; simpl in Hmem; try contradiction;
        destruct Hmem as [Heq | []]; inversion Heq; subst.
      * right. eexists. split; [exact Hp' | reflexivity].
      * congruence.
Qed.

End Visited.

Lemma visited_as_processed_run `{Libraries} (db : Table) (delay : Z) (use_selenium : bool)
    (seed : string) (threads : nat) (schedule : list (nat * Net)) :
  let w0 := start db delay use_selenium seed threads in
  let w := run schedule w0 in
  run_invariant (conn (crawler w0)) w /\ visited_as_processed (conn (crawler w0)) w.
Proof.
  intros w0 w.
  assert (run_invariant (conn (crawler w0)) w /\ origins w /\
          visited_as_processed (conn (crawler w0)) w) as (Inv & _ & Hvis); [| now split].
  unfold w.
  apply (run_induction
           (fun w => run_invariant (conn (crawler w0)) w /\ origins w /\
                     visited_as_processed (conn (crawler w0)) w)).
  - split; [apply start_invariant | split].
    + unfold origins; simpl. repeat split; try contradiction.
      * intros p Hp. apply repeat_spec in Hp. now subst.
      * intros p u Hp. apply repeat_spec in Hp. subst. discriminate.
    + split; [auto |]. intros u (h & l & [] & _).
  - intros w1 i net p self' p' events (Inv & Ho & Hvis) Hnth Hthread Hstep.
    split; [eapply thread_step_invariant; eassumption | split].
    + eapply origins_step; eassumption.
    + eapply visited_as_processed_step; eassumption.
Qed.

(** X7. What the run marks visited is what it processed.  At every
    moment, a URL is visited only if it was visited before the run or its
    page was fetched with content and parsed; and a page fetched with
    content and parsed is visited, unless its worker has not reached
    [mark_visited] yet.  So once all workers are back at [get()], the
    visited URLs are exactly those visited before and those processed. *)
Theorem visited_urls_are_the_processed_pages `{Libraries} (db : Table)
    (delay : Z) (use_selenium : bool) (seed : string) (threads : nat)
    (schedule : list (nat * Net)) :
  let w := run schedule (start db delay use_selenium seed threads) in
  (forall url, is_visited (conn (crawler w)) url = true ->
               is_visited db url = true \/ processed (trace w) url) /\
  (forall url, processed (trace w) url ->
               is_visited (conn (crawler w)) url = true \/
               exists p, In p (workers w) /\ marking url p) /\
  ((forall p, In p (workers w) -> p = Get) ->
   forall url, is_visited (conn (crawler w)) url = true <->
               is_visited db url = true \/ processed (trace w) url).
Proof.
  intros w.
  destruct (visited_as_processed_run db delay use_selenium seed threads schedule)
    as [Inv [Hsound Hcomplete]].
  fold w in Inv, Hsound, Hcomplete.
  assert (forall url, is_visited (conn (crawler (start db delay use_selenium seed threads))) url
                      = is_visited db url) as Hstart.
  { intros url. simpl. apply is_visited_insert. }
  split; [| split].
  - intros url Hv. destruct (Hsound url Hv) as [Hdb | Hproc]; auto.
    left. now rewrite <- Hstart.
  - exact Hcomplete.
  - intros Hidle url. split.
    + intros Hv. destruct (Hsound url Hv) as [Hdb | Hproc]; auto.
      left. now rewrite <- Hstart.
    + intros [Hdb | Hproc].
      * apply (visited_mono _ _ Inv). now rewrite Hstart.
      * destruct (Hcomplete url Hproc) as [Hv | (p & Hp & Hmark)]; [exact Hv |].
        rewrite (Hidle p Hp) in Hmark. contradiction.
Qed.

(** ** [mark_visited] and [enqueue_new] as operations on the store *)

Lemma update_visited_twice (t : Table) (url : string) :
  update_visited (update_visited t url) url = update_visited t url.
Proof.
  unfold update_visited. rewrite map_map. apply map_ext. intros [u v]. simpl.
  destruct (String.eqb u url) eqn:E; simpl; now rewrite E.
Qed.

Lemma update_visited_unknown (t : Table) (url : string) :
  ~ In url (keys t) -> update_visited t url = t.
Proof.
  induction t as [| [u v] t IH]; simpl; [reflexivity |].
  intros Hout. rewrite IH by tauto.
  destruct (String.eqb u url) eqn:E; [| reflexivity].
  apply String.eqb_eq in E. tauto.
Qed.

Lemma update_visited_comm (t : Table) (a b : string) :
  update_visited (update_visited t a) b = update_visited (update_visited t b) a.
Proof.
  unfold update_visited. rewrite !map_map. apply map_ext. intros [u v]. simpl.
  destruct (String.eqb u a) eqn:Ea; destruct (String.eqb u b) eqn:Eb; simpl;
    rewrite ?Ea, ?Eb; reflexivity.
Qed.

(** X8. [mark_visited] is idempotent, does nothing (and raises nothing)
    for a URL without a row, commutes with itself on different URLs, and
    changes no flag but that of its URL. *)
Theorem mark_visited_is_idempotent (self : DarknetCrawler) (url : string) :
  mark_visited (mark_visited self url) url = mark_visited self url /\
  (~ In url (keys (conn self)) -> mark_visited self url = self) /\
  (forall other,
     mark_visited (mark_visited self url) other =
     mark_visited (mark_visited self other) url) /\
  (forall other, other <> url ->
     select_visited (conn (mark_visited self url)) other =
     select_visited (conn self) other).
Proof.
  unfold mark_visited, with_conn; simpl. split; [| split; [| split]].
  - now rewrite update_visited_twice.
  - intros Hout. rewrite (update_visited_unknown _ _ Hout). now destruct self.
  - intros other. now rewrite update_visited_comm.
  - intros other Hne. rewrite select_update_visited.
    now rewrite (proj2 (String.eqb_neq other url) Hne).
Qed.

Lemma enqueue_new_known (links : list string) (self : DarknetCrawler) :
  (forall l, In l links -> In l (keys (conn self))) -> enqueue_new self links = self.
Proof.
  induction links as [| link links IH]; intros Hall; [reflexivity |].
  rewrite enqueue_new_cons, enqueue_link_present by (apply Hall; now left).
  apply IH. intros l Hl. apply Hall. now right.
Qed.

Lemma is_visited_enqueue_new (links : list string) (self : DarknetCrawler) (url : string) :
  is_visited (conn (enqueue_new self links)) url = is_visited (conn self) url.
Proof.
  revert self. induction links as [| link links IH]; intros self; [reflexivity |].
  rewrite enqueue_new_cons, IH, conn_enqueue_link. apply is_visited_insert.
Qed.

(** X9. [enqueue_new] on links that all have a row changes nothing and
    pushes nothing; so calling it twice with the same links is the same
    as calling it once.  It composes over concatenation. *)
Theorem enqueue_new_is_idempotent (self : DarknetCrawler) (links more : list string) :
  ((forall l, In l links -> In l (keys (conn self))) -> enqueue_new self links = self) /\
  enqueue_new (enqueue_new self links) links = enqueue_new self links /\
  enqueue_new self (links ++ more) = enqueue_new (enqueue_new self links) more.
Proof.
  split; [apply enqueue_new_known | split].
  - apply enqueue_new_known. intros l Hl. now apply enqueue_new_rows.
  - unfold enqueue_new. apply fold_left_app.
Qed.

(** X10. Neither [add_seed] nor [enqueue_new] ever changes whether a URL
    counts as visited: a URL found again keeps its flag, and a new row
    starts unvisited. *)
Theorem inserts_never_change_visited (self : DarknetCrawler) (links : list string)
    (url other : string) :
  is_visited (conn (add_seed self url)) other = is_visited (conn self) other /\
  is_visited (conn (enqueue_new self links)) other = is_visited (conn self) other /\
  (In other links -> ~ In other (keys (conn self)) ->
   select_visited (conn (enqueue_new self links)) other = Some 0%Z).
Proof.
  split; [| split].
  - unfold add_seed; simpl. apply is_visited_insert.
  - apply is_visited_enqueue_new.
  - intros Hin Hout.
    pose proof (enqueue_new_rows links self other Hin) as Hrow.
    destruct (In_keys_select _ _ Hrow) as [v Hv].
    pose proof (is_visited_enqueue_new links self other) as Hsame.
    unfold is_visited in Hsame. rewrite Hv in Hsame.
    rewrite (proj2 (select_visited_None _ _) Hout) in Hsame.
    rewrite Hv. destruct (Z.eqb_spec v 0); [congruence | discriminate].
Qed.

(** ** The command line *)

Module CliFacts.
Import Cli.

Lemma split_nonempty (c : ascii) (s : string) : CPython.split c s <> [].
Proof.
  destruct s as [| d r]; simpl; [discriminate |].
  destruct (Ascii.eqb d c); [discriminate |].
  destruct (CPython.split c r); discriminate.
Qed.

Lemma split_length (c : ascii) (s : string) :
  List.length (CPython.split c s) = S (occurrences c s).
Proof.
  induction s as [| d r IH]; simpl; [reflexivity |].
  destruct (Ascii.eqb d c); simpl; [now rewrite IH |].
  destruct (CPython.split c r) as [| seg segs] eqn:E; simpl in *; [discriminate | exact IH].
Qed.

Lemma split_one (c : ascii) (s v : string) :
  CPython.split c s = [v] -> s = v.
Proof.
  revert v. induction s as [| d r IH]; intros v; simpl.
  - now intros [= <-].
  - destruct (Ascii.eqb d c).
    + intros [= _ Hnil]. now apply split_nonempty in Hnil.
    + destruct (CPython.split c r) as [| seg segs] eqn:E.
      * now apply split_nonempty in E.
      * intros [= <- ->]. now rewrite (IH seg eq_refl).
Qed.

Lemma split_two (c : ascii) (s k v : string) :
  CPython.split c s = [k; v] -> s = (k ++ String c v)%string.
Proof.
  revert k. induction s as [| d r IH]; intros k; simpl; [discriminate |].
  destruct (Ascii.eqb d c) eqn:Ed.
  - intros [= <- Hv]. apply Ascii.eqb_eq in Ed. subst d.
    now rewrite (split_one c r v Hv).
  - destruct (CPython.split c r) as [| seg segs] eqn:E.
    + now apply split_nonempty in E.
    + intros [= <- ->]. simpl. now rewrite (IH seg eq_refl).
Qed.

Lemma login_pair_returns (item : string) :
  (exists kv, login_pair item = Returned kv) <-> occurrences "=" item = 1.
Proof.
  unfold login_pair. pose proof (split_length "=" item) as Hlen.
  destruct (CPython.split "=" item) as [| k [| v [| x rest]]]; simpl in Hlen.
  - discriminate.
  - split; [intros [kv Hkv]; discriminate | lia].
  - split; [lia | intros _; now exists (k, v)].
  - split; [intros [kv Hkv]; discriminate | lia].
Qed.

Lemma login_pair_round_trip (item k v : string) :
  login_pair item = Returned (k, v) -> item = (k ++ "=" ++ v)%string.
Proof.
  unfold login_pair.
  destruct (CPython.split "=" item) as [| k' [| v' [| x rest]]] eqn:E; try discriminate.
  intros [= <- <-]. now apply split_two.
Qed.

Lemma get_attr_app (l l' : Dict) (k : string) :
  get_attr (l ++ l') k =
  match get_attr l k with Some v => Some v | None => get_attr l' k end.
Proof.
  induction l as [| [k' v'] l IH]; simpl; [reflexivity |].
  destruct (String.eqb k' k); [reflexivity | exact IH].
Qed.

Lemma get_dict_set (d : Dict) (k v k' : string) :
  get_attr (dict_set d k v) k' = if String.eqb k k' then Some v else get_attr d k'.
Proof.
  induction d as [| [a b] d IH]; simpl; [reflexivity |].
  destruct (String.eqb a k) eqn:Ea; simpl.
  - apply String.eqb_eq in Ea. subst a. now destruct (String.eqb k k').
  - rewrite IH. destruct (String.eqb a k') eqn:Ea'; [| reflexivity].
    apply String.eqb_eq in Ea'. subst a. now rewrite String.eqb_sym, Ea.
Qed.

Lemma keys_dict_set (d : Dict) (k v x : string) :
  In x (map fst (dict_set d k v)) <-> x = k \/ In x (map fst d).
Proof.
  induction d as [| [a b] d IH]; simpl; [intuition auto |].
  destruct (String.eqb a k) eqn:Ea; simpl.
  - apply String.eqb_eq in Ea. subst a. intuition auto.
  - rewrite IH. intuition auto.
Qed.

Lemma NoDup_dict_set (d : Dict) (k v : string) :
  NoDup (map fst d) -> NoDup (map fst (dict_set d k v)).
Proof.
  induction d as [| [a b] d IH]; simpl; intros Hnd.
  - constructor; [intros [] | constructor].
  - inversion Hnd as [| ? ? Hout Hnd']; subst.
    destruct (String.eqb a k) eqn:Ea; simpl.
    + apply String.eqb_eq in Ea. subst a. now constructor.
    + constructor; [| auto]. rewrite keys_dict_set. intros [-> | Hin]; [| tauto].
      now rewrite String.eqb_refl in Ea.
Qed.

Lemma dict_of_items_spec (items : list string) (d0 d : Dict) :
  dict_of_items items d0 = Returned d ->
  exists pairs,
    Forall2 (fun item kv => login_pair item = Returned kv) items pairs /\
    (forall k, get_attr d k =
               match get_attr (rev pairs) k with Some v => Some v | None => get_attr d0 k end) /\
    (NoDup (map fst d0) -> NoDup (map fst d)).
Proof.
  revert d0. induction items as [| item items IH]; intros d0; simpl.
  - intros [= <-]. exists []. simpl. auto.
  - destruct (login_pair item) as [[k v] | e] eqn:Hpair; [| discriminate].
    simpl. intros Hrest. destruct (IH _ Hrest) as (pairs & Hall & Hget & Hnd).
    exists ((k, v) :: pairs). split; [now constructor | split].
    + intros x. rewrite Hget. simpl. rewrite get_attr_app, get_dict_set. simpl.
      destruct (get_attr (rev pairs) x); [reflexivity |].
      now destruct (String.eqb k x).
    + intros Hnd0. apply Hnd. now apply NoDup_dict_set.
Qed.

Lemma dict_of_items_returns (items : list string) (d0 : Dict) :
  (exists d, dict_of_items items d0 = Returned d) <->
  Forall (fun item => occurrences "=" item = 1) items.
Proof.
  revert d0. induction items as [| item items IH]; intros d0; simpl.
  - split; [constructor | intros _; now exists d0].
  - split.
    + intros [d Hd]. destruct (login_pair item) as [[k v] | e] eqn:Hpair; [| discriminate].
      constructor.
      * apply login_pair_returns. now exists (k, v).
      * apply (IH (dict_set d0 k v)). now exists d.
    + intros Hall. inversion Hall as [| ? ? Hone Hrest]; subst.
      apply login_pair_returns in Hone. destruct Hone as [[k v] ->]. simpl.
      now apply IH.
Qed.

End CliFacts.

(** X11. The login data of the command line become a dictionary exactly
    when every item contains one [=]: an item without one, or with two (a
    password with an [=] in it), makes [__main__] end in [ValueError].
    Each accepted item is its key, [=], its value; keys are kept once,
    and of two items with one key the later one counts. *)
Theorem login_data_need_exactly_one_equals_sign (items : list string) :
  ((exists d, Cli.dict_of_items items [] = Returned d) <->
   Forall (fun item => Cli.occurrences "=" item = 1) items) /\
  (forall d, Cli.dict_of_items items [] = Returned d ->
     NoDup (map fst d) /\
     exists pairs,
       Forall2 (fun item kv => item = (fst kv ++ "=" ++ snd kv)%string) items pairs /\
       forall k, get_attr d k = get_attr (rev pairs) k).
Proof.
  split; [apply CliFacts.dict_of_items_returns |].
  intros d Hd. destruct (CliFacts.dict_of_items_spec items [] d Hd) as (pairs & Hall & Hget & Hnd).
  split; [apply Hnd; constructor |].
  exists pairs. split.
  - clear Hget Hnd Hd. induction Hall as [| item [k v] items' pairs' Hpair Hall IH];
      constructor; [| exact IH].
    now apply CliFacts.login_pair_round_trip.
  - intros k. rewrite Hget. now destruct (get_attr (rev pairs) k).
Qed.

Lemma inserted_has_row (t : Table) (url : string) :
  In url (keys (fst (insert_or_ignore t url))).
Proof.
  destruct (insert_or_ignore_cases t url) as [[Hin ->] | [Hout ->]]; simpl.
  - exact Hin.
  - rewrite keys_app. apply in_or_app. right. now left.
Qed.

Lemma run_without_workers `{Libraries} (schedule : list (nat * Net)) (w : World) :
  workers w = [] -> run schedule w = w.
Proof.
  intros Hnone. induction schedule as [| [i net] schedule IH]; [reflexivity |].
  simpl. unfold sched_step. rewrite Hnone.
  replace (nth_error [] i) with (@None pc) by now destruct i.
  exact IH.
Qed.

(** X12. [__main__] inserts the seed before it logs in, and the login is
    not inside the [try]: when the login data are malformed, or the login
    request raises or is answered 4xx or 5xx, the process ends there with
    the seed's row already in the store; otherwise (login skipped or
    accepted) the crawl starts from that seed. *)
Theorem failed_login_ends_main_after_seeding `{Libraries}
    (session_post : string -> Cli.Dict -> outcome Response) (store : Table)
    (args : Cli.Args) (schedule : list (nat * Net)) :
  match Cli.main session_post store args schedule with
  | Cli.Crashed e t =>
      t = fst (insert_or_ignore store (Cli.seed args)) /\
      In (Cli.seed args) (keys t) /\
      exists url item items,
        Cli.login_url args = Some url /\ truthy url = true /\
        Cli.login_data args = Some (item :: items) /\
        (Cli.dict_of_items (item :: items) [] = Raised e \/
         exists data,
           Cli.dict_of_items (item :: items) [] = Returned data /\
           (session_post url data = Raised e \/
            exists resp, session_post url data = Returned resp /\
                         (400 <= status_code resp < 600)%Z))
  | Cli.Crawling w =>
      w = run schedule (start store (Cli.delay args) false (Cli.seed args)
                          (Z.to_nat (Cli.threads args))) /\
      (Cli.login_url args = None \/ Cli.login_url args = Some EmptyString \/
       Cli.login_data args = None \/ Cli.login_data args = Some [] \/
       exists url items data resp,
         Cli.login_url args = Some url /\ Cli.login_data args = Some items /\
         Cli.dict_of_items items [] = Returned data /\
         session_post url data = Returned resp /\
         ~ (400 <= status_code resp < 600)%Z)
  end.
Proof.
  unfold Cli.main, Cli.login.
  destruct (Cli.login_url args) as [url |]; [| split; auto].
  destruct (Cli.login_data args) as [[| item items] |]; [split; auto 6 | | split; auto].
  destruct url as [| c url]; [split; auto |]. cbn [truthy].
  destruct (Cli.dict_of_items (item :: items) []) as [data | e] eqn:Hdict.
  - cbn [bind]. unfold Cli.authenticate.
    destruct (session_post (String c url) data) as [resp | e] eqn:Hpost; cbn [bind].
    + unfold raise_for_status.
      destruct ((400 <=? status_code resp)%Z && (status_code resp <? 600)%Z) eqn:Hstatus.
      * apply andb_true_iff in Hstatus. destruct Hstatus as [Hlo Hhi].
        apply Z.leb_le in Hlo. apply Z.ltb_lt in Hhi.
        split; [reflexivity | split; [apply inserted_has_row |]].
        exists (String c url), item, items.
        split; [reflexivity | split; [reflexivity | split; [reflexivity |]]].
        right. exists data. split; [exact Hdict |]. right. exists resp. auto.
      * split; [reflexivity |]. right. right. right. right.
        exists (String c url), (item :: items), data, resp.
        split; [reflexivity | split; [reflexivity | split; [exact Hdict |]]].
        split; [exact Hpost |].
        intros [Hlo Hhi]. apply Z.leb_le in Hlo. apply Z.ltb_lt in Hhi.
        rewrite Hlo, Hhi in Hstatus. discriminate.
    + split; [reflexivity | split; [apply inserted_has_row |]].
      exists (String c url), item, items.
      split; [reflexivity | split; [reflexivity | split; [reflexivity |]]].
      right. exists data. auto.
  - cbn [bind]. split; [reflexivity | split; [apply inserted_has_row |]].
    exists (String c url), item, items.
    split; [reflexivity | split; [reflexivity | split; [reflexivity |]]].
    left. exact Hdict.
Qed.

(** X13. With [--threads] zero or negative no worker is started, yet the
    seed has been put on the queue: nothing is ever fetched and the
    queue is never drained, so [queue.join()] does not return. *)
Theorem no_worker_never_drains `{Libraries}
    (session_post : string -> Cli.Dict -> outcome Response) (store : Table)
    (args : Cli.Args) (schedule : list (nat * Net)) (w : World) :
  (Cli.threads args <= 0)%Z ->
  Cli.main session_post store args schedule = Cli.Crawling w ->
  workers w = [] /\ trace w = [] /\
  items (queue (crawler w)) = [Cli.seed args] /\
  drained (queue (crawler w)) = false.
Proof.
  intros Hthreads. unfold Cli.main.
  destruct (Cli.login session_post args); [| discriminate].
  intros [= <-]. replace (Z.to_nat (Cli.threads args)) with 0 by lia.
  rewrite run_without_workers by reflexivity. repeat split.
Qed.

(** ** Progress *)

Lemma length_set_nth {A : Type} (i : nat) (x : A) (l : list A) :
  List.length (set_nth i x l) = List.length l.
Proof.
  revert i. induction l as [| a l IH]; intros [| i]; simpl; auto.
Qed.

Section Progress.
Context `{Libraries}.

Lemma workers_length (db : Table) (delay : Z) (use_selenium : bool) (seed : string)
    (threads : nat) (schedule : list (nat * Net)) :
  List.length (workers (run schedule (start db delay use_selenium seed threads))) = threads.
Proof.
  apply (run_induction (fun w => List.length (workers w) = threads)).
  - simpl. apply repeat_length.
  - intros w i net p self' p' events Hlen _ _ _. simpl. now rewrite length_set_nth.
Qed.

(** A worker with an item in hand can move whenever the lock is free. *)
Lemma busy_worker_moves (net : Net) (self : DarknetCrawler) (p : pc) :
  lock self = false -> 1 <= busy p -> thread_step net self p <> None.
Proof.
  intros Hlock Hbusy.
  destruct p as [| u | u | u | u h | u l | u l | u l | u [| link rest] | u |];
    cbn [busy carried] in Hbusy; try lia; cbn [thread_step]; rewrite ?Hlock;
    try discriminate.
  - destruct (is_visited (conn self) u); discriminate.
  - destruct (task_done (queue self)); discriminate.
  - destruct (fetch self net u) as [html | e]; [destruct (truthy html) |]; discriminate.
  - destruct (parse_links h u); discriminate.
  - destruct (task_done (queue self)); discriminate.
Qed.

(** X14. A crawl from an unvisited seed with at least one worker cannot
    get stuck: as long as the queue is not drained, some worker can take
    a step, whatever the network answers. *)
Theorem crawl_never_deadlocks (db : Table) (delay : Z) (use_selenium : bool)
    (seed : string) (threads : nat) (schedule : list (nat * Net)) :
  is_visited db seed = false ->
  1 <= threads ->
  let w := run schedule (start db delay use_selenium seed threads) in
  drained (queue (crawler w)) = false ->
  exists i p, nth_error (workers w) i = Some p /\
              forall net, thread_step net (crawler w) p <> None.
Proof.
  intros Hseed Hthreads w Hbusy.
  pose proof (fresh_run db delay use_selenium seed threads schedule Hseed) as Hfresh.
  fold w in Hfresh.
  assert (total in_critical (workers w) = if lock (crawler w) then 1 else 0) as Hlock
    by apply lock_counts_holders.
  assert (List.length (workers w) = threads) as Hlen by apply workers_length.
  destruct (lock (crawler w)) eqn:Hheld.
  - destruct (total_positive in_critical (workers w)) as (i & p & Hnth & Hp); [lia |].
    exists i, p. split; [exact Hnth |]. intros net.
    destruct p as [| u | u | u | u h | u l | u l | u l | u [| link rest] | u |];
      cbn [in_critical] in Hp; try lia; discriminate.
  - destruct (Nat.eq_dec (total busy (workers w)) 0) as [Hidle | Hwork].
    + pose proof (accounting _ Hfresh) as Hacc. rewrite Hidle in Hacc.
      unfold drained in Hbusy. apply Z.eqb_neq in Hbusy.
      destruct (workers w) as [| p ws] eqn:Hws; [simpl in Hlen; lia |].
      exists 0, p. split; [reflexivity |]. intros net.
      assert (In p (workers w)) as Hp by (rewrite Hws; now left).
      destruct (nobody_skips _ Hfresh p Hp) as [Hdead _].
      rewrite <- Hws in Hidle.
      pose proof (proj1 (total_zero busy (workers w)) Hidle p Hp) as Hp0.
      destruct p; try discriminate; [| congruence].
      cbn [thread_step]. unfold get.
      destruct (items (queue (crawler w))); [simpl in Hacc; lia | discriminate].
    + destruct (total_positive busy (workers w)) as (i & p & Hnth & Hp); [lia |].
      exists i, p. split; [exact Hnth |]. intros net.
      now apply busy_worker_moves.
Qed.

(** ** What a later run does with the store of an earlier one *)

Lemma pushes_are_new (db : Table) (delay : Z) (use_selenium : bool) (seed : string)
    (threads : nat) (schedule : list (nat * Net)) :
  let w0 := start db delay use_selenium seed threads in
  let w := run schedule w0 in
  (forall url, In url (keys (conn (crawler w0))) -> In url (keys (conn (crawler w)))) /\
  (forall link, In link (pushes (trace w)) -> ~ In link (keys (conn (crawler w0)))).
Proof.
  intros w0 w. unfold w.
  apply (run_induction
           (fun w => (forall url, In url (keys (conn (crawler w0))) ->
                                  In url (keys (conn (crawler w)))) /\
                     (forall link, In link (pushes (trace w)) ->
                                   ~ In link (keys (conn (crawler w0)))))).
  - split; [auto | intros link []].
  - intros w1 i net p self' p' events [Hkept Hnew] _ Hthread _.
    cbn [crawler trace]. split.
    + intros url Hurl.
      apply (rows_kept _ _ (thread_step_preserves_frontier _ _ _ _ _ _ Hthread)). auto.
    + intros link Hlink Hknown. rewrite pushes_app in Hlink. apply in_app_or in Hlink.
      destruct Hlink as [Hlink | Hlink]; [exact (Hnew link Hlink Hknown) |].
      destruct (step_pushes _ _ _ _ _ _ Hthread) as [Hnil | (l & Hone & Hout & _)].
      * rewrite Hnil in Hlink. contradiction.
      * rewrite Hone in Hlink. destruct Hlink as [<- | []]. apply Hout. auto.
Qed.

(** X15. The queue is built from the seed alone, never from the store: a
    URL that has a row when the run starts, visited or not, is not
    pushed, not taken from the queue and not fetched in that run, unless
    it is the seed.  What an earlier run left unvisited is not taken up
    again. *)
Theorem stored_urls_are_not_taken_up (db : Table) (delay : Z) (use_selenium : bool)
    (seed : string) (threads : nat) (schedule : list (nat * Net)) (url : string) :
  In url (keys db) ->
  url <> seed ->
  let w := run schedule (start db delay use_selenium seed threads) in
  ~ In url (pushes (trace w)) /\ ~ In url (gots (trace w)) /\
  ~ In url (fetches (trace w)).
Proof.
  intros Hrow Hne w.
  destruct (pushes_are_new db delay use_selenium seed threads schedule) as [_ Hnew].
  fold w in Hnew.
  assert (~ In url (pushes (trace w))) as Hpush.
  { intros Hin. apply (Hnew url Hin). cbn.
    apply (rows_kept _ _ (insert_preserves_frontier db seed)). exact Hrow. }
  assert (~ In url (gots (trace w))) as Hgot.
  { intros Hin.
    assert (In url (seed :: pushes (trace w))) as [Heq | Hp]; [| congruence | tauto].
    unfold w. rewrite <- (proj1 (fifo_and_mirror db delay use_selenium seed threads schedule)).
    apply in_or_app. now left. }
  split; [exact Hpush | split; [exact Hgot |]].
  intros Hin. apply Hgot.
  destruct (origins_run db delay use_selenium seed threads schedule) as (_ & _ & _ & Hfetch).
  now apply Hfetch.
Qed.

Lemma visited_has_row (t : Table) (url : string) :
  is_visited t url = true -> In url (keys t).
Proof.
  unfold is_visited. destruct (select_visited t url) as [v |] eqn:E; [| discriminate].
  intros _. now apply (select_visited_Some_In t url v).
Qed.

Lemma visited_seed_run (db : Table) (delay : Z) (use_selenium : bool) (seed : string)
    (threads : nat) (schedule : list (nat * Net)) :
  is_visited db seed = true ->
  let w := run schedule (start db delay use_selenium seed threads) in
  fetches (trace w) = [] /\ pushes (trace w) = [] /\ conn (crawler w) = db /\
  (forall url, In url (items (queue (crawler w))) -> url = seed) /\
  (forall p, In p (workers w) -> on_skip_path seed p).
Proof.
  intros Hseed w. unfold w.
  apply (run_induction
           (fun w => fetches (trace w) = [] /\ pushes (trace w) = [] /\
                     conn (crawler w) = db /\
                     (forall url, In url (items (queue (crawler w))) -> url = seed) /\
                     (forall p, In p (workers w) -> on_skip_path seed p))).
  - cbn. rewrite (insert_or_ignore_present _ _ (visited_has_row _ _ Hseed)). cbn.
    split; [reflexivity | split; [reflexivity | split; [reflexivity | split]]].
    + intros url [<- | []]. reflexivity.
    + intros p Hp. apply repeat_spec in Hp. subst. now left.
  - intros w1 i net p self' p' events (Hf & Hpu & Hconn & Hitems & Hws) Hnth _ Hstep.
    pose proof (Hws p (nth_error_In _ _ Hnth)) as Hmine.
    assert (forall q, on_skip_path seed q ->
                      forall o, In o (set_nth i q (workers w1)) -> on_skip_path seed o)
      as Hkeep.
    { intros q Hq o Ho. destruct (nth_error_set_nth_In _ _ _ _ Ho) as [-> | Hold]; auto. }
    cbn [crawler workers trace]. rewrite fetches_app, pushes_app, Hf, Hpu.
    unfold on_skip_path in Hmine.
    step_cases Hstep;
      try (destruct Hmine as [Hm | [Hm | [Hm | [Hm | Hm]]]]; discriminate).
    + apply get_items in Hget. destruct Hget as [Hq _].
      assert (url = seed) as -> by (apply Hitems; rewrite Hq; now left).
      cbn. split; [reflexivity | split; [reflexivity | split; [exact Hconn | split]]].
      * intros u Hu. apply Hitems. rewrite Hq. now right.
      * apply Hkeep. unfold on_skip_path. auto.
    + cbn. split; [reflexivity | split; [reflexivity | split; [exact Hconn | split]]];
        [exact Hitems |]. apply Hkeep.
      destruct Hmine as [Hm | [Hm | [Hm | [Hm | Hm]]]]; try discriminate.
      injection Hm as ->. unfold on_skip_path. auto.
    + exfalso. destruct Hmine as [Hm | [Hm | [Hm | [Hm | Hm]]]]; try discriminate.
      injection Hm as ->. rewrite Hconn, Hseed in Hv. discriminate.
    + cbn. rewrite (task_done_items _ _ Hdone).
      split; [reflexivity | split; [reflexivity | split; [exact Hconn | split]]];
        [exact Hitems |]. apply Hkeep.
      destruct Hmine as [Hm | [Hm | [Hm | [Hm | Hm]]]]; try discriminate.
      injection Hm as ->. unfold on_skip_path. auto.
    + cbn. split; [reflexivity | split; [reflexivity | split; [exact Hconn | split]]];
        [exact Hitems |]. apply Hkeep.
      destruct Hmine as [Hm | [Hm | [Hm | [Hm | Hm]]]]; try discriminate.
      injection Hm as ->. unfold on_skip_path. auto.
    + cbn. rewrite (task_done_items _ _ Hdone).
      split; [reflexivity | split; [reflexivity | split; [exact Hconn | split]]];
        [exact Hitems |]. apply Hkeep. unfold on_skip_path. auto.
    + cbn. split; [reflexivity | split; [reflexivity | split; [exact Hconn | split]]];
        [exact Hitems |]. apply Hkeep. unfold on_skip_path. auto.
Qed.

(** X16. A run whose seed the store already holds as visited does
    nothing: under any schedule it fetches no page, pushes no link and
    leaves the store as it found it, even when the store holds URLs that
    were never visited. *)
Theorem visited_seed_run_fetches_nothing (db : Table) (delay : Z) (use_selenium : bool)
    (seed : string) (threads : nat) (schedule : list (nat * Net)) :
  is_visited db seed = true ->
  let w := run schedule (start db delay use_selenium seed threads) in
  fetches (trace w) = [] /\ pushes (trace w) = [] /\ conn (crawler w) = db.
Proof.
  intros Hseed w.
  destruct (visited_seed_run db delay use_selenium seed threads schedule Hseed)
    as (Hf & Hp & Hc & _).
  auto.
Qed.

End Progress.

(** ** The theorems of Part III at concrete inputs *)

Lemma lock_is_held_by_one_worker_and_released_witness :
  let seed := "http://x.onion/" in
  let net := serving "<a href='/'>home</a> <a href='/about'>about</a>" in
  let w := @run modelled_libraries (repeat (0, net) 5) (start [] 5 false seed 2) in
  lock (crawler w) = true /\
  workers w = [MarkLocked seed [seed; "http://x.onion/about"]; Get] /\
  exists i p,
    nth_error (workers w) i = Some p /\ in_critical p = 1 /\
    forall more, critical_steps p <= turns_of i more ->
      exists before after,
        more = before ++ after /\
        lock (crawler (@run modelled_libraries before w)) = false.
Proof.
  intros seed net w. split; [reflexivity |]. split; [reflexivity |].
  destruct (@lock_is_held_by_one_worker_and_released modelled_libraries [] 5%Z false seed 2
              (repeat (0, net) 5)) as [_ Hholder].
  destruct (Hholder eq_refl) as (i & p & Hnth & Hp & _ & Hfree).
  exists i, p. split; [exact Hnth |]. split; [exact Hp | exact Hfree].
Defined.

Lemma unvisited_seed_run_signals_once_witness :
  let seed := "http://x.onion/" in
  let net := serving "<a href='/'>home</a> <a href='/about'>about</a>" in
  let w := @run modelled_libraries (repeat (0, net) 9 ++ repeat (1, net) 6)
             (start [(seed, 0%Z)] 5 false seed 2) in
  is_visited [(seed, 0%Z)] seed = false /\
  task_done_calls seed (trace w) + total (carries seed) (workers w) =
  count_occ string_dec (gots (trace w)) seed.
Proof.
  intros seed net w. split; [reflexivity |].
  apply (@unvisited_seed_run_signals_once modelled_libraries [(seed, 0%Z)] 5 false seed 2
           (repeat (0, net) 9 ++ repeat (1, net) 6) eq_refl).
Defined.

Lemma join_returns_exactly_when_idle_witness :
  let seed := "http://x.onion/" in
  let net := serving "<p>nothing to follow</p>" in
  let w := @run modelled_libraries (repeat (0, net) 9) (start [] 5 false seed 1) in
  is_visited [] seed = false /\
  drained (queue (crawler w)) = true /\
  items (queue (crawler w)) = [] /\
  forall p, In p (workers w) -> p = Get.
Proof.
  intros seed net w. split; [reflexivity |]. split; [reflexivity |].
  apply (@join_returns_exactly_when_idle modelled_libraries [] 5 false seed 1
           (repeat (0, net) 9) eq_refl).
  reflexivity.
Defined.

Lemma fetched_urls_come_from_fetched_pages_witness :
  let seed := "http://x.onion/" in
  let net := serving "<a href='/'>home</a> <a href='/about'>about</a>" in
  let w := @run modelled_libraries (repeat (0, net) 9 ++ repeat (1, net) 6)
             (start [] 5 false seed 2) in
  In "http://x.onion/about" (fetches (trace w)) /\
  ("http://x.onion/about" = seed \/
   @extracted modelled_libraries (trace w) "http://x.onion/about").
Proof.
  intros seed net w.
  assert (In "http://x.onion/about" (fetches (trace w))) as Hin by (vm_compute; auto).
  split; [exact Hin |].
  apply (@fetched_urls_come_from_fetched_pages modelled_libraries [] 5 false seed 2
           (repeat (0, net) 9 ++ repeat (1, net) 6)).
  exact Hin.
Defined.

Lemma visited_urls_are_the_processed_pages_witness :
  let seed := "http://x.onion/" in
  let net := serving "<p>nothing to follow</p>" in
  let w := @run modelled_libraries (repeat (0, net) 9) (start [] 5 false seed 1) in
  (forall p, In p (workers w) -> p = Get) /\
  is_visited (conn (crawler w)) seed = true /\
  (is_visited [] seed = true \/ @processed modelled_libraries (trace w) seed).
Proof.
  intros seed net w.
  assert (forall p, In p (workers w) -> p = Get) as Hidle.
  { intros p Hp. vm_compute in Hp. destruct Hp as [<- | []]. reflexivity. }
  split; [exact Hidle |]. split; [reflexivity |].
  destruct (@visited_urls_are_the_processed_pages modelled_libraries [] 5 false seed 1
              (repeat (0, net) 9)) as (_ & _ & Hiff).
  apply (Hiff Hidle seed). reflexivity.
Defined.

Lemma mark_visited_is_idempotent_witness :
  let self := init [("http://x.onion/", 0%Z)] 5 false in
  ~ In "http://x.onion/other" (keys (conn self)) /\
  mark_visited self "http://x.onion/other" = self /\
  select_visited (conn (mark_visited self "http://x.onion/other")) "http://x.onion/"
  = Some 0%Z.
Proof.
  intros self.
  assert (~ In "http://x.onion/other" (keys (conn self))) as Hout.
  { simpl. intros [Heq | []]. discriminate. }
  destruct (mark_visited_is_idempotent self "http://x.onion/other")
    as (_ & Hunknown & _ & Hother).
  split; [exact Hout |]. split; [exact (Hunknown Hout) |].
  apply (Hother "http://x.onion/"). discriminate.
Defined.

Lemma enqueue_new_is_idempotent_witness :
  let self := init [("http://x.onion/", 1%Z); ("http://x.onion/a", 0%Z)] 5 false in
  let links := ["http://x.onion/a"; "http://x.onion/"] in
  (forall l, In l links -> In l (keys (conn self))) /\
  enqueue_new self links = self.
Proof.
  intros self links.
  assert (forall l, In l links -> In l (keys (conn self))) as Hknown.
  { intros l [<- | [<- | []]]; simpl; auto. }
  split; [exact Hknown |].
  exact (proj1 (enqueue_new_is_idempotent self links []) Hknown).
Defined.

Lemma inserts_never_change_visited_witness :
  let self := init [("http://x.onion/", 1%Z)] 5 false in
  let links := ["http://x.onion/"; "http://x.onion/a"] in
  In "http://x.onion/a" links /\
  ~ In "http://x.onion/a" (keys (conn self)) /\
  select_visited (conn (enqueue_new self links)) "http://x.onion/a" = Some 0%Z /\
  is_visited (conn (enqueue_new self links)) "http://x.onion/" = true.
Proof.
  intros self links.
  assert (In "http://x.onion/a" links) as Hin by (simpl; auto).
  assert (~ In "http://x.onion/a" (keys (conn self))) as Hout.
  { simpl. intros [Heq | []]. discriminate. }
  destruct (inserts_never_change_visited self links "http://x.onion/s" "http://x.onion/a")
    as (_ & _ & Hnew).
  destruct (inserts_never_change_visited self links "http://x.onion/s" "http://x.onion/")
    as (_ & Hsame & _).
  split; [exact Hin |]. split; [exact Hout |]. split; [exact (Hnew Hin Hout) |].
  rewrite Hsame. reflexivity.
Defined.

Lemma login_data_need_exactly_one_equals_sign_witness :
  let items := ["user=alice"; "pw=secret"; "user=bob"] in
  Forall (fun item => Cli.occurrences "=" item = 1) items /\
  (exists d, Cli.dict_of_items items [] = Returned d) /\
  NoDup (map fst [("user", "bob"); ("pw", "secret")]).
Proof.
  intros items.
  destruct (login_data_need_exactly_one_equals_sign items) as [Hiff Hdict].
  assert (Forall (fun item => Cli.occurrences "=" item = 1) items) as Hall
    by (repeat constructor).
  split; [exact Hall |]. split; [exact (proj2 Hiff Hall) |].
  exact (proj1 (Hdict [("user", "bob"); ("pw", "secret")] eq_refl)).
Defined.

Lemma failed_login_ends_main_after_seeding_witness :
  let seed := "http://x.onion/" in
  let args := Cli.mkArgs seed 5 "crawler.db" 4 (Some "http://x.onion/login")
                (Some ["user=alice"; "pw=a=b"]) in
  let post := fun (_ : string) (_ : Cli.Dict) => Returned (mkResponse 200 "ok") in
  @Cli.main modelled_libraries post [] args [] = Cli.Crashed "ValueError" [(seed, 0%Z)] /\
  In seed (keys [(seed, 0%Z)]).
Proof.
  intros seed args post. split; [reflexivity |].
  pose proof (@failed_login_ends_main_after_seeding modelled_libraries post [] args [])
    as Hmain.
  change (@Cli.main modelled_libraries post [] args [])
    with (Cli.Crashed "ValueError" [(seed, 0%Z)]) in Hmain.
  exact (proj1 (proj2 Hmain)).
Defined.

Lemma no_worker_never_drains_witness :
  let seed := "http://x.onion/" in
  let args := Cli.mkArgs seed 5 "crawler.db" 0 None None in
  let post := fun (_ : string) (_ : Cli.Dict) => Returned (mkResponse 200 "ok") in
  let w := start [] 5 false seed 0 in
  (Cli.threads args <= 0)%Z /\
  @Cli.main modelled_libraries post [] args (repeat (0, offline) 5) = Cli.Crawling w /\
  drained (queue (crawler w)) = false.
Proof.
  intros seed args post w.
  assert ((Cli.threads args <= 0)%Z) as Hthreads by (simpl; lia).
  assert (@Cli.main modelled_libraries post [] args (repeat (0, offline) 5)
          = Cli.Crawling w) as Hmain by reflexivity.
  split; [exact Hthreads |]. split; [exact Hmain |].
  apply (@no_worker_never_drains modelled_libraries post [] args
           (repeat (0, offline) 5) w Hthreads Hmain).
Defined.

Lemma crawl_never_deadlocks_witness :
  let seed := "http://x.onion/" in
  let net := serving "<a href='/'>home</a> <a href='/about'>about</a>" in
  let w := @run modelled_libraries (repeat (0, net) 5) (start [] 5 false seed 2) in
  is_visited [] seed = false /\ 1 <= 2 /\
  drained (queue (crawler w)) = false /\
  exists i p, nth_error (workers w) i = Some p /\
              forall net', @thread_step modelled_libraries net' (crawler w) p <> None.
Proof.
  intros seed net w. split; [reflexivity |]. split; [lia |]. split; [reflexivity |].
  apply (@crawl_never_deadlocks modelled_libraries [] 5 false seed 2 (repeat (0, net) 5)
           eq_refl); [lia | reflexivity].
Defined.

Lemma stored_urls_are_not_taken_up_witness :
  let seed := "http://x.onion/" in
  let left_over := "http://x.onion/about" in
  let db := [(left_over, 0%Z)] in
  let net := serving "<a href='/'>home</a> <a href='/about'>about</a>" in
  let w := @run modelled_libraries (repeat (0, net) 12 ++ repeat (1, net) 6)
             (start db 5 false seed 2) in
  In left_over (keys db) /\ left_over <> seed /\
  is_visited (conn (crawler w)) left_over = false /\
  ~ In left_over (fetches (trace w)).
Proof.
  intros seed left_over db net w.
  assert (In left_over (keys db)) as Hrow by (simpl; auto).
  assert (left_over <> seed) as Hne by discriminate.
  split; [exact Hrow |]. split; [exact Hne |]. split; [reflexivity |].
  apply (@stored_urls_are_not_taken_up modelled_libraries db 5 false seed 2
           (repeat (0, net) 12 ++ repeat (1, net) 6) left_over Hrow Hne).
Defined.

Lemma visited_seed_run_fetches_nothing_witness :
  let seed := "http://x.onion/" in
  let db := [(seed, 1%Z); ("http://x.onion/about", 0%Z)] in
  let net := serving "<a href='/about'>about</a>" in
  let w := @run modelled_libraries (repeat (0, net) 6 ++ repeat (1, net) 6)
             (start db 5 false seed 2) in
  is_visited db seed = true /\
  fetches (trace w) = [] /\ pushes (trace w) = [] /\ conn (crawler w) = db.
Proof.
  intros seed db net w. split; [reflexivity |].
  apply (@visited_seed_run_fetches_nothing modelled_libraries db 5 false seed 2
           (repeat (0, net) 6 ++ repeat (1, net) 6) eq_refl).
Defined.
